(** * Reindeer Maze (day16/main.py): the directional search over a grid

    A shallow embedding of [src/day16/main.py].  Python integers are [Z],
    lists are [list], the [heapq] frontier is a list kept in ascending
    (cost, sequence number) order, the [visited] set and the
    [min_cost_to_position] dictionary are keyed by [Position] as in the
    source, and exceptions are values of [Exn].  Calls to [print] write to
    standard output only and are left out. *)

From Stdlib Require Import ZArith List Bool String Ascii Lia Permutation
  Sorted.
Import ListNotations.
Local Open Scope Z_scope.

(** ** Data model *)

(** [class Cell(Enum)] *)
Inductive Cell : Type := START | END | EMPTY | WALL.

(** A maze entry.  The annotation says [list[list[Cell]]], but
    [count_best_path_tiles] stores the string ["O"] into rows, so an entry is
    a [Cell] member or a [str]. *)
Inductive Obj : Type :=
| OCell (c : Cell)
| OStr (s : string).

(** [class Position(NamedTuple)] *)
Record Position : Type := mkPosition { px : Z; py : Z }.

(** [class Direction(Enum)] *)
Inductive Direction : Type := NORTH | EAST | SOUTH | WEST.

(** [Maze = list[list[Cell]]], read through the rows it references. *)
Definition Maze : Type := list (list Obj).

(** A character of a Python [str]: a Unicode code point. *)
Definition char : Type := N.

(** What a [ValueError] of this program says. *)
Inductive Message : Type :=
| UnknownCellCharacter (c : char) (* f"Unknown cell character: {char}" *)
| NoPathFound.             (* "No path to the end of the maze found." *)

(** Exceptions the code can raise. *)
Inductive Exn : Type :=
| ValueError (msg : Message)
| IndexError
| KeyError.

(** Result of running a function with a budget of loop iterations: a value,
    an exception, or the budget was used up before the function finished. *)
Inductive Outcome (A : Type) : Type :=
| Returned (a : A)
| Raised (e : Exn)
| OutOfFuel.
Arguments Returned {A} a.
Arguments Raised {A} e.
Arguments OutOfFuel {A}.

(** One turn of a [while] loop: go round again, or leave the function. *)
Inductive Iter (S R : Type) : Type :=
| Continue (s : S)
| Break (r : R).
Arguments Continue {S R} s.
Arguments Break {S R} r.

Definition DEFAULT_STARTING_DIRECTION : Direction := EAST.
Definition DEFAULT_MOVE_COST : Z := 1.
Definition DEFAULT_TURN_COST : Z := 1000.

Definition Cell_eqb (a b : Cell) : bool :=
  match a, b with
  | START, START | END, END | EMPTY, EMPTY | WALL, WALL => true
  | _, _ => false
  end.

(** [entry == Cell.WALL]: an enum member equals only itself, a [str] never
    equals it. *)
Definition is_wall (o : Obj) : bool :=
  match o with
  | OCell WALL => true
  | _ => false
  end.

Definition Position_eqb (p q : Position) : bool :=
  (px p =? px q) && (py p =? py q).

Definition Direction_eqb (a b : Direction) : bool :=
  match a, b with
  | NORTH, NORTH | EAST, EAST | SOUTH, SOUTH | WEST, WEST => true
  | _, _ => false
  end.

(** [Direction.value] *)
Definition value (d : Direction) : Z * Z :=
  match d with
  | NORTH => (0, -1)
  | EAST => (1, 0)
  | SOUTH => (0, 1)
  | WEST => (-1, 0)
  end.

(** [Direction.advance] *)
Definition advance (d : Direction) (position : Position) : Position :=
  let (dx, dy) := value d in
  mkPosition (px position + dx) (py position + dy).

(** [Direction.turn_clockwise] *)
Definition turn_clockwise (d : Direction) : Direction :=
  match d with
  | NORTH => EAST
  | EAST => SOUTH
  | SOUTH => WEST
  | WEST => NORTH
  end.

(** [Direction.turn_counter_clockwise] *)
Definition turn_counter_clockwise (d : Direction) : Direction :=
  match d with
  | NORTH => WEST
  | EAST => NORTH
  | SOUTH => EAST
  | WEST => SOUTH
  end.

(** ** Python list access *)

Definition len {A : Type} (l : list A) : Z := Z.of_nat (List.length l).

(** [l[i]]: indices [0 .. len-1] count from the front, [-len .. -1] from the
    back, anything else raises [IndexError] (here [None]). *)
Definition py_index {A : Type} (l : list A) (i : Z) : option A :=
  if (0 <=? i) && (i <? len l) then nth_error l (Z.to_nat i)
  else if (- len l <=? i) && (i <? 0) then nth_error l (Z.to_nat (len l + i))
  else None.

(** [maze[position.y][position.x]] *)
Definition maze_at (maze : Maze) (position : Position) : option Obj :=
  match py_index maze (py position) with
  | Some row => py_index row (px position)
  | None => None
  end.

(** ** Grid helpers *)

(** [find_start_position] *)
Definition find_start_position (maze : Maze) : Position :=
  mkPosition 1 (len maze - 2).

(** [find_end_position]; [maze[0]] raises [IndexError] on a maze without
    rows. *)
Definition find_end_position (maze : Maze) : Outcome Position :=
  match py_index maze 0 with
  | Some row0 => Returned (mkPosition (len row0 - 2) 1)
  | None => Raised IndexError
  end.

(** [is_within_bounds]; defined in the source, called by neither search. *)
Definition is_within_bounds (maze : Maze) (position : Position)
    : Outcome bool :=
  if (0 <=? px position) then
    match py_index maze 0 with
    | Some row0 =>
        Returned ((px position <? len row0)
                  && ((0 <=? py position) && (py position <? len maze)))
    | None => Raised IndexError
    end
  else Returned false.

(** ** The counter

    [create_counter(start)] returns a closure over the variable [counter];
    the closure is modelled by the value of that variable, and a call of it
    by [increment], which gives the new value of the variable and the value
    returned. *)
Definition create_counter (start : Z) : Z := start - 1.

Definition increment (counter : Z) : Z * Z := (counter + 1, counter + 1).

(** ** The frontier

    [heapq] is used with tuples that start with (cost, sequence number); the
    sequence numbers of one search are pairwise different
    ([mc_run_seqs_fresh], [cb_run_seqs_fresh]), so tuple comparison is
    decided by these two fields and [heappop] returns the entry with the
    least (cost, sequence number).  The frontier is modelled by the list of
    its entries in that order. *)
Section Frontier.

Variable E : Type.
Variable cost_of seq_of : E -> Z.

Definition entry_ltb (a b : E) : bool :=
  (cost_of a <? cost_of b)
  || ((cost_of a =? cost_of b) && (seq_of a <? seq_of b)).

Fixpoint heappush (queue : list E) (e : E) : list E :=
  match queue with
  | [] => [e]
  | f :: rest =>
      if entry_ltb e f then e :: queue else f :: heappush rest e
  end.

Definition heappop (queue : list E) : option (E * list E) :=
  match queue with
  | [] => None
  | e :: rest => Some (e, rest)
  end.

End Frontier.
Arguments heappush {E} cost_of seq_of queue e.
Arguments heappop {E} queue.

(** ** [min_cost_to_end] *)

(** A queue tuple [(cost, count(), position, direction)]. *)
Record Step : Type := mkStep {
  s_cost : Z;
  s_seq : Z;
  s_pos : Position;
  s_dir : Direction
}.

(** Loop state: the heap, the counter [count] and the [visited] set (most
    recent first). *)
Record McState : Type := mkMc {
  mc_queue : list Step;
  mc_count : Z;
  mc_visited : list Position
}.

Definition push_step := heappush s_cost s_seq.

(** Body of [while queue:], followed by the [raise] after the loop. *)
Definition mc_iteration (maze : Maze) (end_position : Position)
    (move_cost turn_cost : Z) (st : McState) : Iter McState (Outcome Z) :=
  match heappop (mc_queue st) with
  | None => Break (Raised (ValueError NoPathFound))
  | Some (e, queue) =>
      let cost := s_cost e in
      let position := s_pos e in
      let direction := s_dir e in
      if Position_eqb position end_position then Break (Returned cost)
      else if existsb (Position_eqb position) (mc_visited st)
      then Continue (mkMc queue (mc_count st) (mc_visited st))
      else
        let visited := position :: mc_visited st in
        match maze_at maze position with
        | None => Break (Raised IndexError)
        | Some o =>
            if is_wall o then Continue (mkMc queue (mc_count st) visited)
            else
              let left_direction := turn_counter_clockwise direction in
              let right_direction := turn_clockwise direction in
              let left_position := advance left_direction position in
              let forward_position := advance direction position in
              let right_position := advance right_direction position in
              let move_forward_cost := cost + move_cost in
              let move_side_cost := turn_cost + move_forward_cost in
              let (count, seq_left) := increment (mc_count st) in
              let left_step :=
                mkStep move_side_cost seq_left left_position left_direction in
              let (count, seq_forward) := increment count in
              let forward_step :=
                mkStep move_forward_cost seq_forward forward_position
                       direction in
              let (count, seq_right) := increment count in
              let right_step :=
                mkStep move_side_cost seq_right right_position
                       right_direction in
              let queue := push_step queue left_step in
              let queue := push_step queue forward_step in
              let queue := push_step queue right_step in
              Continue (mkMc queue count visited)
        end
  end.

Fixpoint mc_loop (fuel : nat) (maze : Maze) (end_position : Position)
    (move_cost turn_cost : Z) (st : McState) : Outcome Z :=
  match fuel with
  | O => OutOfFuel
  | S fuel' =>
      match mc_iteration maze end_position move_cost turn_cost st with
      | Break r => r
      | Continue st' => mc_loop fuel' maze end_position move_cost turn_cost st'
      end
  end.

(** State on entry to the loop. *)
Definition mc_init (start_position : Position) (start_direction : Direction)
    : McState :=
  let count := create_counter 0 in
  let (count, seq) := increment count in
  mkMc [mkStep 0 seq start_position start_direction] count [].

Definition min_cost_to_end (fuel : nat) (maze : Maze)
    (start_direction : Direction) (move_cost turn_cost : Z) : Outcome Z :=
  let start_position := find_start_position maze in
  match find_end_position maze with
  | Returned end_position =>
      mc_loop fuel maze end_position move_cost turn_cost
        (mc_init start_position start_direction)
  | Raised e => Raised e
  | OutOfFuel => OutOfFuel
  end.

(** ** [count_best_path_tiles] *)

(** A queue tuple [(cost, count(), position, direction, previous)], where
    [previous] is the tuple it was generated from, or [None]. *)
#[local] Set Warnings "-register-all".
Inductive Node : Type :=
| mkNode (cost seq : Z) (position : Position) (direction : Direction)
         (previous : option Node).

Definition n_cost (n : Node) : Z := let (c, _, _, _, _) := n in c.
Definition n_seq (n : Node) : Z := let (_, s, _, _, _) := n in s.
Definition n_pos (n : Node) : Position := let (_, _, p, _, _) := n in p.
Definition n_dir (n : Node) : Direction := let (_, _, _, d, _) := n in d.
Definition n_prev (n : Node) : option Node := let (_, _, _, _, p) := n in p.

(** The dictionary [min_cost_to_position], as its items in insertion order. *)
Definition Dict : Type := list (Position * Z).

(** [d[k]] ([None] for [KeyError]); [k in d] is [dict_get d k <> None]. *)
Fixpoint dict_get (d : Dict) (k : Position) : option Z :=
  match d with
  | [] => None
  | (k', v) :: rest => if Position_eqb k k' then Some v else dict_get rest k
  end.

(** [d[k] = v] *)
Fixpoint dict_set (d : Dict) (k : Position) (v : Z) : Dict :=
  match d with
  | [] => [(k, v)]
  | (k', v') :: rest =>
      if Position_eqb k k' then (k', v) :: rest
      else (k', v') :: dict_set rest k v
  end.

Record CbState : Type := mkCb {
  cb_queue : list Node;
  cb_count : Z;
  cb_min_cost : Dict;          (* min_cost_to_position *)
  cb_best_paths : list Node    (* best_paths, in append order *)
}.

Definition push_node := heappush n_cost n_seq.

Definition SENTINEL : Z := 999999999.

(** Body of [while queue:]; the loop is left when the queue is empty. *)
Definition cb_iteration (maze : Maze) (end_position : Position)
    (move_cost turn_cost : Z) (st : CbState) : Iter CbState (Outcome CbState) :=
  match heappop (cb_queue st) with
  | None => Break (Returned st)
  | Some (node, queue) =>
      let cost := n_cost node in
      let position := n_pos node in
      let direction := n_dir node in
      let skip := Continue (mkCb queue (cb_count st) (cb_min_cost st)
                                 (cb_best_paths st)) in
      match maze_at maze position with
      | None => Break (Raised IndexError)
      | Some o =>
          if is_wall o then skip
          else
            match dict_get (cb_min_cost st) end_position with
            | None => Break (Raised KeyError)
            | Some end_cost =>
                if end_cost <? cost then skip
                else if match dict_get (cb_min_cost st) position with
                        | Some c => c <? cost
                        | None => false
                        end
                then skip
                else
                  let min_cost := dict_set (cb_min_cost st) position cost in
                  if Position_eqb position end_position
                  then Continue (mkCb queue (cb_count st) min_cost
                                      (cb_best_paths st ++ [node]))
                  else
                    let left_direction := turn_counter_clockwise direction in
                    let right_direction := turn_clockwise direction in
                    let left_position := advance left_direction position in
                    let forward_position := advance direction position in
                    let right_position := advance right_direction position in
                    let move_forward_cost := cost + move_cost in
                    let move_side_cost := turn_cost + move_forward_cost in
                    let (count, seq_left) := increment (cb_count st) in
                    let left_step :=
                      mkNode move_side_cost seq_left left_position
                             left_direction (Some node) in
                    let (count, seq_forward) := increment count in
                    let forward_step :=
                      mkNode move_forward_cost seq_forward forward_position
                             direction (Some node) in
                    let (count, seq_right) := increment count in
                    let right_step :=
                      mkNode move_side_cost seq_right right_position
                             right_direction (Some node) in
                    let queue := push_node queue left_step in
                    let queue := push_node queue forward_step in
                    let queue := push_node queue right_step in
                    Continue (mkCb queue count min_cost (cb_best_paths st))
            end
      end
  end.

Fixpoint cb_loop (fuel : nat) (maze : Maze) (end_position : Position)
    (move_cost turn_cost : Z) (st : CbState) : Outcome CbState :=
  match fuel with
  | O => OutOfFuel
  | S fuel' =>
      match cb_iteration maze end_position move_cost turn_cost st with
      | Break r => r
      | Continue st' => cb_loop fuel' maze end_position move_cost turn_cost st'
      end
  end.

Definition cb_init (start_position end_position : Position)
    (start_direction : Direction) : CbState :=
  let count := create_counter 0 in
  let (count, seq) := increment count in
  mkCb [mkNode 0 seq start_position start_direction None] count
       [(end_position, SENTINEL)] [].

(** [best_path_positions.add(position)] on a set kept as a duplicate-free
    list. *)
Definition set_add (s : list Position) (p : Position) : list Position :=
  if existsb (Position_eqb p) s then s else s ++ [p].

(** [while node: ... node = previous], adding every position of the chain. *)
Fixpoint unwind (node : Node) (s : list Position) : list Position :=
  match node with
  | mkNode _ _ position _ previous =>
      let s := set_add s position in
      match previous with
      | Some prev => unwind prev s
      | None => s
      end
  end.

(** [for end_node in best_paths: ...] *)
Definition best_path_positions (best_paths : list Node) : list Position :=
  fold_left (fun s end_node => unwind end_node s) best_paths [].

(** *** The store of row objects

    A maze is a list of references to row objects; [maze.copy()] makes a new
    outer list that holds the same references. *)
Definition Ref : Type := nat.
Definition Heap : Type := list (list Obj).
Definition MazeRef : Type := list Ref.

Definition row_of (h : Heap) (r : Ref) : list Obj := nth r h [].

(** The maze as seen through the store. *)
Definition deref (h : Heap) (maze : MazeRef) : Maze := map (row_of h) maze.

(** [l[i] = v] for [0 <= i < len(l)]. *)
Fixpoint list_set {A : Type} (l : list A) (i : nat) (v : A) : list A :=
  match l, i with
  | [], _ => []
  | _ :: rest, O => v :: rest
  | a :: rest, S i' => a :: list_set rest i' v
  end.

Definition O_mark : Obj := OStr "O".

(** [for x, _ in enumerate(row): if Position(x, y) in s: row[x] = "O"], the
    row being the object at [r]; [n] columns remain, the next one is [x]. *)
Fixpoint mark_row (s : list Position) (y : Z) (r : Ref) (n : nat) (x : nat)
    (h : Heap) : Heap :=
  match n with
  | O => h
  | S n' =>
      let h' :=
        if existsb (Position_eqb (mkPosition (Z.of_nat x) y)) s
        then list_set h r (list_set (row_of h r) x O_mark)
        else h in
      mark_row s y r n' (S x) h'
  end.

(** [for y, row in enumerate(display_maze): ...] *)
Fixpoint mark_rows (s : list Position) (rows : list Ref) (y : Z) (h : Heap)
    : Heap :=
  match rows with
  | [] => h
  | r :: rest =>
      mark_rows s rest (y + 1) (mark_row s y r (List.length (row_of h r)) 0 h)
  end.

(** [count_best_path_tiles] up to the computation of the set
    [best_path_positions]. *)
Definition best_tiles (fuel : nat) (maze : Maze)
    (start_direction : Direction) (move_cost turn_cost : Z)
    : Outcome (list Position) :=
  let start_position := find_start_position maze in
  match find_end_position maze with
  | Returned end_position =>
      match cb_loop fuel maze end_position move_cost turn_cost
              (cb_init start_position end_position start_direction) with
      | Returned st => Returned (best_path_positions (cb_best_paths st))
      | Raised e => Raised e
      | OutOfFuel => OutOfFuel
      end
  | Raised e => Raised e
  | OutOfFuel => OutOfFuel
  end.

(** [count_best_path_tiles]: the result and the store it leaves behind.
    [display_maze = maze.copy()] is a new outer list holding the references
    of [maze]. *)
Definition count_best_path_tiles (fuel : nat) (h : Heap) (maze : MazeRef)
    (start_direction : Direction) (move_cost turn_cost : Z)
    : Outcome Z * Heap :=
  match best_tiles fuel (deref h maze) start_direction move_cost turn_cost with
  | Returned positions =>
      let display_maze := maze in
      (Returned (len positions), mark_rows positions display_maze 0 h)
  | Raised e => (Raised e, h)
  | OutOfFuel => (OutOfFuel, h)
  end.

(** ** Reading a maze from text *)

(** [str.isspace] for one character (the code points CPython treats as
    whitespace). *)
Definition isspace (c : char) : bool :=
  (((9 <=? c) && (c <=? 13)) || ((28 <=? c) && (c <=? 32))
   || (c =? 133) || (c =? 160) || (c =? 5760)
   || ((8192 <=? c) && (c <=? 8202))
   || (c =? 8232) || (c =? 8233) || (c =? 8239) || (c =? 8287)
   || (c =? 12288))%N.

Fixpoint lstrip (s : list char) : list char :=
  match s with
  | [] => []
  | c :: rest => if isspace c then lstrip rest else s
  end.

(** [str.strip()] *)
Definition strip (s : list char) : list char :=
  rev (lstrip (rev (lstrip s))).

(** The members' values: [Cell.START.value] and so on. *)
Definition Cell_value (c : Cell) : char :=
  match c with
  | START => 83   (* "S" *)
  | END => 69     (* "E" *)
  | EMPTY => 46   (* "." *)
  | WALL => 35    (* "#" *)
  end%N.

(** [interpret_char_as_cell] *)
Definition interpret_char_as_cell (c : char) : Outcome Cell :=
  if (c =? Cell_value START)%N then Returned START
  else if (c =? Cell_value END)%N then Returned END
  else if (c =? Cell_value EMPTY)%N then Returned EMPTY
  else if (c =? Cell_value WALL)%N then Returned WALL
  else Raised (ValueError (UnknownCellCharacter c)).

(** [[interpret_char_as_cell(char) for char in s]] *)
Fixpoint interpret_row (s : list char) : Outcome (list Obj) :=
  match s with
  | [] => Returned []
  | c :: rest =>
      match interpret_char_as_cell c with
      | Returned cell =>
          match interpret_row rest with
          | Returned row => Returned (OCell cell :: row)
          | other => other
          end
      | Raised e => Raised e
      | OutOfFuel => OutOfFuel
      end
  end.

(** [read_maze], on the lines the file yields. *)
Fixpoint read_maze (lines : list (list char)) : Outcome Maze :=
  match lines with
  | [] => Returned []
  | line :: rest =>
      match interpret_row (strip line) with
      | Returned row =>
          match read_maze rest with
          | Returned maze => Returned (row :: maze)
          | other => other
          end
      | Raised e => Raised e
      | OutOfFuel => OutOfFuel
      end
  end.

(** A line of text given as a Rocq string. *)
Definition line_of (s : string) : list char :=
  map N_of_ascii (list_ascii_of_string s).

(** The maze read from the given lines ([[]] if reading fails). *)
Definition maze_of (lines : list string) : Maze :=
  match read_maze (map line_of lines) with
  | Returned maze => maze
  | _ => []
  end.

(** Row objects allocated one after the other, as [read_maze] does. *)
Definition refs_of (maze : Maze) : MazeRef := seq 0 (List.length maze).

(** ** The movement rules

    What the searches are meant to compute is stated over walks: from a
    state (position, direction) a move keeps the direction or turns by 90
    degrees and then steps one cell; it is allowed when the cell entered is
    inside the grid and is not a wall. *)

Inductive Move : Type := TurnLeft | Forward | TurnRight.

Definition heading (d : Direction) (m : Move) : Direction :=
  match m with
  | TurnLeft => turn_counter_clockwise d
  | Forward => d
  | TurnRight => turn_clockwise d
  end.

Definition step_cost (move_cost turn_cost : Z) (m : Move) : Z :=
  match m with
  | Forward => move_cost
  | TurnLeft | TurnRight => move_cost + turn_cost
  end.

(** The cell at a position inside the grid (no wrap-around). *)
Definition cell_at (maze : Maze) (p : Position) : option Obj :=
  if (0 <=? px p) && (0 <=? py p) then
    match nth_error maze (Z.to_nat (py p)) with
    | Some row => nth_error row (Z.to_nat (px p))
    | None => None
    end
  else None.

Definition passable (maze : Maze) (p : Position) : bool :=
  match cell_at maze p with
  | Some o => negb (is_wall o)
  | None => false
  end.

(** Where a sequence of moves leads and what it costs; [None] when a move
    enters a wall or leaves the grid. *)
Fixpoint walk (maze : Maze) (move_cost turn_cost : Z) (p : Position)
    (d : Direction) (ms : list Move) : option (Position * Direction * Z) :=
  match ms with
  | [] => Some (p, d, 0)
  | m :: rest =>
      let d' := heading d m in
      let p' := advance d' p in
      if passable maze p' then
        match walk maze move_cost turn_cost p' d' rest with
        | Some (q, e, c) => Some (q, e, step_cost move_cost turn_cost m + c)
        | None => None
        end
      else None
  end.

(** The cells a sequence of moves passes through, the first one included. *)
Fixpoint walk_cells (p : Position) (d : Direction) (ms : list Move)
    : list Position :=
  match ms with
  | [] => [p]
  | m :: rest =>
      p :: walk_cells (advance (heading d m) p) (heading d m) rest
  end.

(** [ms] is a path from the start state to [target] of cost [c]. *)
Definition path_to (maze : Maze) (move_cost turn_cost : Z)
    (start : Position) (start_direction : Direction) (target : Position)
    (ms : list Move) (c : Z) : Prop :=
  passable maze start = true /\
  exists e, walk maze move_cost turn_cost start start_direction ms
            = Some (target, e, c).

(** ** Shape of a grid *)

Definition width (maze : Maze) : Z :=
  match maze with
  | [] => 0
  | row0 :: _ => len row0
  end.

Definition height (maze : Maze) : Z := len maze.

Definition is_rectangular (maze : Maze) : bool :=
  forallb (fun row => len row =? width maze) maze.

Definition inside (maze : Maze) (p : Position) : bool :=
  (0 <=? px p) && (px p <? width maze)
  && ((0 <=? py p) && (py p <? height maze)).

Definition all_positions (w h : nat) : list Position :=
  flat_map (fun y => map (fun x => mkPosition (Z.of_nat x) (Z.of_nat y))
                         (seq 0 w))
           (seq 0 h).

Definition positions_of (maze : Maze) : list Position :=
  all_positions (Z.to_nat (width maze)) (Z.to_nat (height maze)).

Definition on_border (maze : Maze) (p : Position) : bool :=
  (px p =? 0) || (px p =? width maze - 1)
  || (py p =? 0) || (py p =? height maze - 1).

Definition wall_at (maze : Maze) (p : Position) : bool :=
  match cell_at maze p with
  | Some o => is_wall o
  | None => false
  end.

(** Every cell of the outer rows and columns is a wall. *)
Definition is_walled (maze : Maze) : bool :=
  forallb (fun p => negb (on_border maze p) || wall_at maze p)
          (positions_of maze).

(** A grid as the puzzle gives it: a rectangle of at least 2 by 2 cells with
    walls all around. *)
Definition well_formed (maze : Maze) : bool :=
  is_rectangular maze && is_walled maze
  && (2 <=? width maze) && (2 <=? height maze).

(** ** Running the loops step by step *)

(** The state before iteration [n] of the loop of [min_cost_to_end] ([None]
    if the function has left the loop by then). *)
Fixpoint mc_run (n : nat) (maze : Maze) (end_position : Position)
    (move_cost turn_cost : Z) (st : McState) : option McState :=
  match n with
  | O => Some st
  | S n' =>
      match mc_iteration maze end_position move_cost turn_cost st with
      | Continue st' => mc_run n' maze end_position move_cost turn_cost st'
      | Break _ => None
      end
  end.

(** The same for [count_best_path_tiles]. *)
Fixpoint cb_run (n : nat) (maze : Maze) (end_position : Position)
    (move_cost turn_cost : Z) (st : CbState) : option CbState :=
  match n with
  | O => Some st
  | S n' =>
      match cb_iteration maze end_position move_cost turn_cost st with
      | Continue st' => cb_run n' maze end_position move_cost turn_cost st'
      | Break _ => None
      end
  end.

(** ** Example grids *)

Definition maze1 : Maze := maze_of
  [ "######";
    "##..E#";
    "##.###";
    "##...#";
    "#..#.#";
    "#.##.#";
    "#S...#";
    "######" ]%string.

Definition maze3 : Maze := maze_of
  [ "##########";
    "#.......E#";
    "#.########";
    "#........#";
    "##.#####.#";
    "#..#####.#";
    "#.######.#";
    "#S.......#";
    "##########" ]%string.

(** ** Lower bounds on the cost of walks

    A table gives a cost to some states.  It is a lower-bound table when it
    is closed under the moves: every allowed move from a listed state of cost
    [c] leads to a listed state of cost at most [c] plus the cost of the
    move.  [relax_all], repeated, computes such tables. *)

Definition Table : Type := list (Position * Direction * Z).

Fixpoint tbl_get (t : Table) (p : Position) (d : Direction) : option Z :=
  match t with
  | [] => None
  | (q, e, c) :: rest =>
      if Position_eqb p q && Direction_eqb d e then Some c
      else tbl_get rest p d
  end.

(** Record cost [c] for a state unless a cost at most [c] is recorded. *)
Fixpoint tbl_lower (t : Table) (p : Position) (d : Direction) (c : Z)
    : Table :=
  match t with
  | [] => [(p, d, c)]
  | (q, e, c') :: rest =>
      if Position_eqb p q && Direction_eqb d e
      then (q, e, Z.min c c') :: rest
      else (q, e, c') :: tbl_lower rest p d c
  end.

Definition all_moves : list Move := [TurnLeft; Forward; TurnRight].

Definition relax_state (maze : Maze) (move_cost turn_cost : Z)
    (t : Table) (s : Position * Direction * Z) : Table :=
  let '(p, d, c) := s in
  fold_left
    (fun t m =>
       let d' := heading d m in
       let p' := advance d' p in
       if passable maze p'
       then tbl_lower t p' d' (c + step_cost move_cost turn_cost m)
       else t)
    all_moves t.

Definition relax_all (maze : Maze) (move_cost turn_cost : Z) (t : Table)
    : Table :=
  fold_left (relax_state maze move_cost turn_cost) t t.

Fixpoint relax_n (n : nat) (maze : Maze) (move_cost turn_cost : Z)
    (t : Table) : Table :=
  match n with
  | O => t
  | S n' => relax_n n' maze move_cost turn_cost
              (relax_all maze move_cost turn_cost t)
  end.

Definition closed_state (maze : Maze) (move_cost turn_cost : Z)
    (t : Table) (s : Position * Direction * Z) : bool :=
  let '(p, d, c) := s in
  forallb
    (fun m =>
       let d' := heading d m in
       let p' := advance d' p in
       if passable maze p' then
         match tbl_get t p' d' with
         | Some c' => c' <=? c + step_cost move_cost turn_cost m
         | None => false
         end
       else true)
    all_moves.

Definition closed_table (maze : Maze) (move_cost turn_cost : Z) (t : Table)
    : bool :=
  forallb (closed_state maze move_cost turn_cost t) t.

Definition start1 : Position := find_start_position maze1.
Definition end1 : Position := mkPosition 4 1.

(** Costs of the states of [maze1] from its start state facing east, with
    the default weights. *)
Definition table1 : Table :=
  Eval vm_compute in relax_n 40 maze1 1 1000 [(start1, EAST, 0)].

(** A path of [maze1] with four turns and eight steps. *)
Definition best_route1 : list Move :=
  [TurnLeft; Forward; TurnRight; TurnLeft; Forward; Forward; TurnRight;
   Forward].

(** The store once [read_maze] has built [maze1]: the row object of row [y]
    at address [y], and the maze referring to them in order. *)
Definition heap1 : Heap := maze1.
Definition refs1 : MazeRef := refs_of maze1.

(** The entries popped by the first [n] iterations of [min_cost_to_end]. *)
Definition mc_popped (n : nat) (maze : Maze) (end_position : Position)
    (move_cost turn_cost : Z) (st : McState) : list Step :=
  flat_map
    (fun k =>
       match mc_run k maze end_position move_cost turn_cost st with
       | Some s => match mc_queue s with e :: _ => [e] | [] => [] end
       | None => []
       end)
    (seq 0 n).

Definition cb_popped (n : nat) (maze : Maze) (end_position : Position)
    (move_cost turn_cost : Z) (st : CbState) : list Node :=
  flat_map
    (fun k =>
       match cb_run k maze end_position move_cost turn_cost st with
       | Some s => match cb_queue s with e :: _ => [e] | [] => [] end
       | None => []
       end)
    (seq 0 n).

(** The junction of [maze1] that both routes pass. *)
Definition junction1 : Position := mkPosition 2 3.

(** Does an entry carry the state (position, direction)? *)
Definition step_in_state (p : Position) (d : Direction) (e : Step) : bool :=
  Position_eqb (s_pos e) p && Direction_eqb (s_dir e) d.

Definition node_in_state (p : Position) (d : Direction) (n : Node) : bool :=
  Position_eqb (n_pos n) p && Direction_eqb (n_dir n) d.

(** An end wall cut off from the start. *)
Definition maze4 : Maze := maze_of
  [ "#####";
    "#.#E#";
    "#.###";
    "#S..#";
    "#####" ]%string.

Definition table4 : Table :=
  Eval vm_compute in
    relax_n 20 maze4 1 1000 [(find_start_position maze4, EAST, 0)].

(** A grid without walls around it. *)
Definition maze8 : Maze := maze_of [ ".S."; ".E." ]%string.

Definition table8 : Table :=
  Eval vm_compute in
    relax_n 20 maze8 1 1000000000 [(find_start_position maze8, EAST, 0)].

(** ** What the specification asks of the grid model *)

(** The first cell of a kind in row-major order, as the specification words
    [find]; [None] stands for its [CellNotFoundError]. *)
Fixpoint spec_find_in_row (kind : Cell) (row : list Obj) (x y : Z)
    : option Position :=
  match row with
  | [] => None
  | o :: rest =>
      match o with
      | OCell c =>
          if Cell_eqb c kind then Some (mkPosition x y)
          else spec_find_in_row kind rest (x + 1) y
      | OStr _ => spec_find_in_row kind rest (x + 1) y
      end
  end.

Fixpoint spec_find_from (kind : Cell) (maze : Maze) (y : Z)
    : option Position :=
  match maze with
  | [] => None
  | row :: rest =>
      match spec_find_in_row kind row 0 y with
      | Some p => Some p
      | None => spec_find_from kind rest (y + 1)
      end
  end.

Definition spec_find (kind : Cell) (maze : Maze) : option Position :=
  spec_find_from kind maze 0.

Definition maze6 : Maze := maze_of
  [ "#####";
    "#S.E#";
    "#...#";
    "#####" ]%string.

(** A character [interpret_char_as_cell] knows. *)
Definition recognized (c : char) : bool :=
  ((c =? 83) || (c =? 69) || (c =? 46) || (c =? 35))%N.

Definition cell_of_char (c : char) : Cell :=
  if (c =? 83)%N then START
  else if (c =? 69)%N then END
  else if (c =? 46)%N then EMPTY
  else WALL.

(** ** Successors and measures used in the proofs *)

(** The entry [min_cost_to_end] pushes for move [m] from the popped entry
    [e], with sequence number [seq]. *)
Definition mc_child (move_cost turn_cost : Z) (e : Step) (m : Move)
    (seq : Z) : Step :=
  mkStep
    (match m with
     | Forward => s_cost e + move_cost
     | TurnLeft | TurnRight => turn_cost + (s_cost e + move_cost)
     end)
    seq
    (advance (heading (s_dir e) m) (s_pos e))
    (heading (s_dir e) m).

(** The same for [count_best_path_tiles]. *)
Definition cb_child (move_cost turn_cost : Z) (n : Node) (m : Move)
    (seq : Z) : Node :=
  mkNode
    (match m with
     | Forward => n_cost n + move_cost
     | TurnLeft | TurnRight => turn_cost + (n_cost n + move_cost)
     end)
    seq
    (advance (heading (n_dir n) m) (n_pos n))
    (heading (n_dir n) m)
    (Some n).

(** Iterations [min_cost_to_end] can still make: every position is added to
    [visited] once, and every addition pushes three entries. *)
Definition mc_measure (maze : Maze) (st : McState) : nat :=
  3 * (List.length (positions_of maze) - List.length (mc_visited st))
  + List.length (mc_queue st).

(** Cells ahead of a position before the edge of the grid. *)
Definition steps_left (maze : Maze) (p : Position) (d : Direction) : Z :=
  match d with
  | NORTH => py p
  | EAST => width maze - 1 - px p
  | SOUTH => height maze - 1 - py p
  | WEST => px p
  end.

(** How far an entry of cost [c] is from exceeding the bound [B]: with
    non-negative weights that are not both zero, every successor of an entry
    within the bound ranks lower. *)
Definition rank (maze : Maze) (B : Z) (c : Z) (p : Position) (d : Direction)
    : nat :=
  Z.to_nat (1 + (B - c) * (width maze + height maze + 1) + steps_left maze p d).

Definition node_weight (maze : Maze) (B : Z) (n : Node) : nat :=
  4 ^ rank maze B (n_cost n) (n_pos n) (n_dir n).

Definition cb_measure (maze : Maze) (B : Z) (st : CbState) : nat :=
  list_sum (map (node_weight maze B) (cb_queue st)).

(** ** One iteration, case by case

    What an iteration of each loop does, as a relation between the state and
    the outcome; [mc_iteration_case] and [cb_iteration_case] show that the
    loop bodies follow it. *)

Inductive mc_case (maze : Maze) (end_position : Position) (M T : Z)
    (st : McState) : Iter McState (Outcome Z) -> Prop :=
| mc_exhausted :
    mc_queue st = [] ->
    mc_case maze end_position M T st (Break (Raised (ValueError NoPathFound)))
| mc_at_end e rest :
    mc_queue st = e :: rest -> s_pos e = end_position ->
    mc_case maze end_position M T st (Break (Returned (s_cost e)))
| mc_stale e rest :
    mc_queue st = e :: rest -> s_pos e <> end_position ->
    In (s_pos e) (mc_visited st) ->
    mc_case maze end_position M T st
      (Continue (mkMc rest (mc_count st) (mc_visited st)))
| mc_out_of_range e rest :
    mc_queue st = e :: rest -> s_pos e <> end_position ->
    ~ In (s_pos e) (mc_visited st) ->
    maze_at maze (s_pos e) = None ->
    mc_case maze end_position M T st (Break (Raised IndexError))
| mc_wall e rest o :
    mc_queue st = e :: rest -> s_pos e <> end_position ->
    ~ In (s_pos e) (mc_visited st) ->
    maze_at maze (s_pos e) = Some o -> is_wall o = true ->
    mc_case maze end_position M T st
      (Continue (mkMc rest (mc_count st) (s_pos e :: mc_visited st)))
| mc_expand e rest o :
    mc_queue st = e :: rest -> s_pos e <> end_position ->
    ~ In (s_pos e) (mc_visited st) ->
    maze_at maze (s_pos e) = Some o -> is_wall o = false ->
    mc_case maze end_position M T st
      (Continue
         (mkMc (push_step
                  (push_step
                     (push_step rest
                        (mc_child M T e TurnLeft (mc_count st + 1)))
                     (mc_child M T e Forward (mc_count st + 1 + 1)))
                  (mc_child M T e TurnRight (mc_count st + 1 + 1 + 1)))
               (mc_count st + 1 + 1 + 1) (s_pos e :: mc_visited st))).

Definition cb_skip (st : CbState) (rest : list Node) : CbState :=
  mkCb rest (cb_count st) (cb_min_cost st) (cb_best_paths st).

Inductive cb_case (maze : Maze) (end_position : Position) (M T : Z)
    (st : CbState) : Iter CbState (Outcome CbState) -> Prop :=
| cb_exhausted :
    cb_queue st = [] ->
    cb_case maze end_position M T st (Break (Returned st))
| cb_out_of_range n rest :
    cb_queue st = n :: rest -> maze_at maze (n_pos n) = None ->
    cb_case maze end_position M T st (Break (Raised IndexError))
| cb_wall n rest o :
    cb_queue st = n :: rest ->
    maze_at maze (n_pos n) = Some o -> is_wall o = true ->
    cb_case maze end_position M T st (Continue (cb_skip st rest))
| cb_no_end_cost n rest o :
    cb_queue st = n :: rest ->
    maze_at maze (n_pos n) = Some o -> is_wall o = false ->
    dict_get (cb_min_cost st) end_position = None ->
    cb_case maze end_position M T st (Break (Raised KeyError))
| cb_beyond_end_cost n rest o end_cost :
    cb_queue st = n :: rest ->
    maze_at maze (n_pos n) = Some o -> is_wall o = false ->
    dict_get (cb_min_cost st) end_position = Some end_cost ->
    end_cost < n_cost n ->
    cb_case maze end_position M T st (Continue (cb_skip st rest))
| cb_beyond_position_cost n rest o end_cost c :
    cb_queue st = n :: rest ->
    maze_at maze (n_pos n) = Some o -> is_wall o = false ->
    dict_get (cb_min_cost st) end_position = Some end_cost ->
    n_cost n <= end_cost ->
    dict_get (cb_min_cost st) (n_pos n) = Some c -> c < n_cost n ->
    cb_case maze end_position M T st (Continue (cb_skip st rest))
| cb_arrive n rest o end_cost :
    cb_queue st = n :: rest ->
    maze_at maze (n_pos n) = Some o -> is_wall o = false ->
    dict_get (cb_min_cost st) end_position = Some end_cost ->
    n_cost n <= end_cost ->
    n_pos n = end_position ->
    cb_case maze end_position M T st
      (Continue (mkCb rest (cb_count st)
                      (dict_set (cb_min_cost st) (n_pos n) (n_cost n))
                      (cb_best_paths st ++ [n])))
| cb_expand n rest o end_cost :
    cb_queue st = n :: rest ->
    maze_at maze (n_pos n) = Some o -> is_wall o = false ->
    dict_get (cb_min_cost st) end_position = Some end_cost ->
    n_cost n <= end_cost ->
    n_pos n <> end_position ->
    cb_case maze end_position M T st
      (Continue
         (mkCb (push_node
                  (push_node
                     (push_node rest
                        (cb_child M T n TurnLeft (cb_count st + 1)))
                     (cb_child M T n Forward (cb_count st + 1 + 1)))
                  (cb_child M T n TurnRight (cb_count st + 1 + 1 + 1)))
               (cb_count st + 1 + 1 + 1)
               (dict_set (cb_min_cost st) (n_pos n) (n_cost n))
               (cb_best_paths st))).

(** ** Invariants of the loops *)

(** The sequence numbers in a queue are pairwise different and at most the
    counter. *)
Definition seqs_fresh (seqs : list Z) (count : Z) : Prop :=
  NoDup seqs /\ Forall (fun s => s <= count) seqs.

(** Every frontier entry is inside the grid. *)
Definition mc_bounded (maze : Maze) (st : McState) : Prop :=
  Forall (fun e => inside maze (s_pos e) = true) (mc_queue st).

Definition cb_bounded (maze : Maze) (st : CbState) : Prop :=
  Forall (fun n => inside maze (n_pos n) = true) (cb_queue st).

(** A state at a passable position is the end of a walk of the given cost
    that began in the start state on a passable cell. *)
Definition traced (maze : Maze) (M T : Z) (start_direction : Direction)
    (p : Position) (d : Direction) (c : Z) : Prop :=
  passable maze p = true ->
  passable maze (find_start_position maze) = true /\
  exists ms,
    walk maze M T (find_start_position maze) start_direction ms
    = Some (p, d, c).

Definition mc_traced (maze : Maze) (M T : Z) (start_direction : Direction)
    (st : McState) : Prop :=
  Forall (fun e => traced maze M T start_direction
                     (s_pos e) (s_dir e) (s_cost e))
         (mc_queue st).

Definition cb_traced (maze : Maze) (M T : Z) (start_direction : Direction)
    (st : CbState) : Prop :=
  Forall (fun n => traced maze M T start_direction
                     (n_pos n) (n_dir n) (n_cost n))
         (cb_queue st).

Definition mc_inv (maze : Maze) (M T : Z) (start_direction : Direction)
    (st : McState) : Prop :=
  mc_bounded maze st /\ mc_traced maze M T start_direction st /\
  NoDup (mc_visited st) /\ incl (mc_visited st) (positions_of maze).

(** [B] bounds the recorded cost of the end position, and no entry at the
    end position has been accepted. *)
Definition cb_inv (maze : Maze) (end_position : Position) (M T : Z)
    (start_direction : Direction) (B : Z) (st : CbState) : Prop :=
  cb_bounded maze st /\
  cb_traced maze M T start_direction st /\
  (exists end_cost,
     dict_get (cb_min_cost st) end_position = Some end_cost /\ end_cost <= B) /\
  cb_best_paths st = [].

(** Until an entry at the end position is accepted, the end position keeps
    the sentinel as its recorded cost. *)
Definition cb_unreached (end_position : Position) (st : CbState) : Prop :=
  cb_best_paths st = [] ->
  dict_get (cb_min_cost st) end_position = Some SENTINEL.

(** ** More example data *)

(** Costs from the cell (4, 6) of [maze1], entered facing east or south. *)
Definition table1_east : Table :=
  Eval vm_compute in relax_n 40 maze1 1 1000 [(mkPosition 4 6, EAST, 0)].

Definition table1_south : Table :=
  Eval vm_compute in relax_n 40 maze1 1 1000 [(mkPosition 4 6, SOUTH, 0)].

(** The set [best_path_positions] that [count_best_path_tiles] builds on
    [maze1]. *)
Definition tiles1 : list Position :=
  [mkPosition 4 1; mkPosition 3 1; mkPosition 2 1; mkPosition 2 2;
   mkPosition 2 3; mkPosition 3 3; mkPosition 4 3; mkPosition 4 4;
   mkPosition 4 5; mkPosition 4 6; mkPosition 3 6; mkPosition 2 6;
   mkPosition 1 6].

(** Costs of the states of [maze1] when a turn costs 1000000000. *)
Definition table1_dear : Table :=
  Eval vm_compute in relax_n 40 maze1 1 1000000000 [(start1, EAST, 0)].

(** A grid with no start and no end cell. *)
Definition maze_blank : Maze := maze_of [ "###"; "#.#"; "###" ]%string.

(** A grid of the shape of [maze6] made of walls only. *)
Definition maze6_walls : Maze := maze_of
  [ "#####";
    "#####";
    "#####";
    "#####" ]%string.

(** The first character, in reading order, that is left after stripping the
    lines and is not a cell character. *)
Definition first_unknown (lines : list (list char)) : option char :=
  find (fun c => negb (recognized c)) (List.concat (map strip lines)).

(** A grid open at the bottom, its end cell walled in. *)
Definition maze9 : Maze := maze_of
  [ "####";
    "##E#";
    "#S##";
    "#.##" ]%string.

Definition table9 : Table :=
  Eval vm_compute in
    relax_n 20 maze9 1 1000 [(find_start_position maze9, EAST, 0)].

(** [maze1] with a wall where the end cell was. *)
Definition maze1_closed : Maze := maze_of
  [ "######";
    "##..##";
    "##.###";
    "##...#";
    "#..#.#";
    "#.##.#";
    "#S...#";
    "######" ]%string.

(** The path of [maze3] along the bottom row, the right column, the middle
    row and the top row: 27 steps and four turns. *)
Definition route3 : list Move :=
  repeat Forward 7 ++ TurnLeft :: repeat Forward 3
  ++ TurnLeft :: repeat Forward 6 ++ TurnRight :: Forward
  :: TurnRight :: repeat Forward 6.

Definition start3 : Position := find_start_position maze3.
Definition end3 : Position := mkPosition 8 1.

(** Costs of the states of [maze3] for turn costs 11 and 13. *)
Definition table3_11 : Table :=
  Eval vm_compute in relax_n 60 maze3 1 11 [(start3, EAST, 0)].

Definition table3_13 : Table :=
  Eval vm_compute in relax_n 60 maze3 1 13 [(start3, EAST, 0)].

(** ** Printing a maze *)

Definition newline : char := 10%N.

(** [Cell.__str__]: the value of the member. *)
Definition Cell_str (c : Cell) : list char := [Cell_value c].

(** [str(entry)], as [print] writes it. *)
Definition Obj_str (o : Obj) : list char :=
  match o with
  | OCell c => Cell_str c
  | OStr s => line_of s
  end.

(** What [print_maze] writes for one row: [print(cell, end="")] for every
    cell, then [print()]. *)
Definition print_row (row : list Obj) : list char :=
  flat_map Obj_str row ++ [newline].

(** [print_maze]: the text written to standard output. *)
Definition print_maze (maze : Maze) : list char :=
  flat_map print_row maze.

(** The values returned by [n] calls in a row of a counter, and the variable
    [counter] after them. *)
Fixpoint count_calls (n : nat) (counter : Z) : list Z * Z :=
  match n with
  | O => ([], counter)
  | S n' =>
      let (counter, v) := increment counter in
      let (vs, counter) := count_calls n' counter in
      (v :: vs, counter)
  end.

(** The direction opposite to [d], by two clockwise turns. *)
Definition reverse (d : Direction) : Direction :=
  turn_clockwise (turn_clockwise d).

(** ** Chains of back pointers *)

(** The positions of a queue tuple and of the tuples it was generated from,
    the latest first: what [while node:] walks over. *)
Fixpoint chain_positions (n : Node) : list Position :=
  match n with
  | mkNode _ _ position _ previous =>
      position :: match previous with
                  | Some prev => chain_positions prev
                  | None => []
                  end
  end.

(** A tuple built by [count_best_path_tiles]: the start tuple, or a
    successor of such a tuple that was on a passable cell. *)
Inductive chain_ok (maze : Maze) (M T : Z) (start : Position)
    (start_direction : Direction) : Node -> Prop :=
| chain_root seq :
    chain_ok maze M T start start_direction
      (mkNode 0 seq start start_direction None)
| chain_link n m seq :
    chain_ok maze M T start start_direction n ->
    passable maze (n_pos n) = true ->
    chain_ok maze M T start start_direction (cb_child M T n m seq).

(** The tuples on the frontier are such tuples; the ones in [best_paths] are
    moreover on the end position, which is passable. *)
Definition cb_chains (maze : Maze) (end_position : Position) (M T : Z)
    (start_direction : Direction) (st : CbState) : Prop :=
  Forall (chain_ok maze M T (find_start_position maze) start_direction)
         (cb_queue st) /\
  Forall (fun b =>
            chain_ok maze M T (find_start_position maze) start_direction b /\
            passable maze (n_pos b) = true /\ n_pos b = end_position)
         (cb_best_paths st).

(** The frontier is in ascending order of cost; every tuple in [best_paths]
    is on the end position, has the cost recorded for the end position, and
    costs no more than any tuple on the frontier. *)
Definition cb_ordered (end_position : Position) (st : CbState) : Prop :=
  StronglySorted (fun a b => n_cost a <= n_cost b) (cb_queue st) /\
  Forall (fun b =>
            n_pos b = end_position /\
            dict_get (cb_min_cost st) end_position = Some (n_cost b) /\
            Forall (fun n => n_cost b <= n_cost n) (cb_queue st))
         (cb_best_paths st).

(** A line with whitespace put before and after it. *)
Definition padded (l : list char * list char * list char) : list char :=
  let '(a, s, b) := l in a ++ s ++ b.

Definition padding_is_space (l : list char * list char * list char) : bool :=
  let '(a, _, b) := l in forallb isspace a && forallb isspace b.

Definition unpadded (l : list char * list char * list char) : list char :=
  let '(_, s, _) := l in s.


(** ** The maze after marking *)

(** Row [y] from column [x] on, with "O" in place of the cells whose position
    is in [s]. *)
Fixpoint marked_row (s : list Position) (y : Z) (x : nat) (row : list Obj)
    : list Obj :=
  match row with
  | [] => []
  | o :: rest =>
      (if existsb (Position_eqb (mkPosition (Z.of_nat x) y)) s
       then O_mark else o)
      :: marked_row s y (S x) rest
  end.

(** The rows from row [y] on, marked in this way. *)
Fixpoint marked (s : list Position) (y : Z) (maze : Maze) : Maze :=
  match maze with
  | [] => []
  | row :: rest => marked_row s y 0 row :: marked s (y + 1) rest
  end.

(** What the searches read of a maze: its shape and, cell by cell, the
    outcome of the comparison [== Cell.WALL]. *)
Definition wall_map (maze : Maze) : list (list bool) :=
  map (map is_wall) maze.

(** ** What the search has covered *)

(** The cell behind a state: the one a turn by two quarters faces. *)
Definition behind (d : Direction) (p : Position) : Position :=
  advance (turn_clockwise (turn_clockwise d)) p.

(** Some tuple of the queue is on position [q]. *)
Definition queued (q : Position) (queue : list Step) : Prop :=
  exists e, In e queue /\ s_pos e = q.

(** Every tuple on the frontier is the start tuple or lies in front of a
    visited position; the start position is visited or queued; the end
    position is never put into [visited]; and every open neighbour of a
    visited open position is visited or queued. *)
Definition mc_closed (maze : Maze) (end_position : Position)
    (d0 : Direction) (st : McState) : Prop :=
  Forall (fun e =>
            (s_pos e = find_start_position maze /\ s_dir e = d0) \/
            In (behind (s_dir e) (s_pos e)) (mc_visited st))
         (mc_queue st) /\
  (In (find_start_position maze) (mc_visited st) \/
   queued (find_start_position maze) (mc_queue st)) /\
  ~ In end_position (mc_visited st) /\
  forall p d,
    In p (mc_visited st) ->
    passable maze p = true -> passable maze (advance d p) = true ->
    In (advance d p) (mc_visited st) \/ queued (advance d p) (mc_queue st).

(** The same for [count_best_path_tiles], with the costs the dictionary
    [min_cost_to_position] holds. *)

(** The iterations that go on, with what the tests of the loop body have
    established. *)
Inductive cb_continue (maze : Maze) (end_position : Position) (M T : Z)
    (st : CbState) : CbState -> Prop :=
| cb_continue_wall n rest o :
    cb_queue st = n :: rest ->
    maze_at maze (n_pos n) = Some o -> is_wall o = true ->
    cb_continue maze end_position M T st (cb_skip st rest)
| cb_continue_beyond_end n rest end_cost :
    cb_queue st = n :: rest ->
    dict_get (cb_min_cost st) end_position = Some end_cost ->
    end_cost < n_cost n ->
    cb_continue maze end_position M T st (cb_skip st rest)
| cb_continue_beyond_position n rest c :
    cb_queue st = n :: rest ->
    dict_get (cb_min_cost st) (n_pos n) = Some c -> c < n_cost n ->
    cb_continue maze end_position M T st (cb_skip st rest)
| cb_continue_arrive n rest o end_cost :
    cb_queue st = n :: rest ->
    maze_at maze (n_pos n) = Some o -> is_wall o = false ->
    dict_get (cb_min_cost st) end_position = Some end_cost ->
    n_cost n <= end_cost ->
    (forall c, dict_get (cb_min_cost st) (n_pos n) = Some c ->
               n_cost n <= c) ->
    n_pos n = end_position ->
    cb_continue maze end_position M T st
      (mkCb rest (cb_count st)
            (dict_set (cb_min_cost st) (n_pos n) (n_cost n))
            (cb_best_paths st ++ [n]))
| cb_continue_expand n rest o end_cost :
    cb_queue st = n :: rest ->
    maze_at maze (n_pos n) = Some o -> is_wall o = false ->
    dict_get (cb_min_cost st) end_position = Some end_cost ->
    n_cost n <= end_cost ->
    (forall c, dict_get (cb_min_cost st) (n_pos n) = Some c ->
               n_cost n <= c) ->
    n_pos n <> end_position ->
    cb_continue maze end_position M T st
      (mkCb (push_node
               (push_node
                  (push_node rest
                     (cb_child M T n TurnLeft (cb_count st + 1)))
                  (cb_child M T n Forward (cb_count st + 1 + 1)))
               (cb_child M T n TurnRight (cb_count st + 1 + 1 + 1)))
            (cb_count st + 1 + 1 + 1)
            (dict_set (cb_min_cost st) (n_pos n) (n_cost n))
            (cb_best_paths st)).

(** Some tuple of the queue is on position [q] and costs at most [bound]. *)
Definition cb_queued (q : Position) (bound : Z) (queue : list Node) : Prop :=
  exists n, In n queue /\ n_pos n = q /\ n_cost n <= bound.

(** The dictionary holds a cost of at most [bound] for position [q]. *)
Definition cb_recorded (st : CbState) (q : Position) (bound : Z) : Prop :=
  exists c, dict_get (cb_min_cost st) q = Some c /\ c <= bound.

(** As long as the end position holds the sentinel: every tuple on the
    frontier is the start tuple or lies in front of a position recorded at
    no more than its cost; the start position is recorded or queued at cost
    0; and every open neighbour of an open position recorded at a cost [cp]
    is recorded or queued at no more than [cp] plus a move and a turn,
    unless that exceeds the sentinel. *)
Definition cb_closed (maze : Maze) (end_position : Position)
    (d0 : Direction) (M T : Z) (st : CbState) : Prop :=
  dict_get (cb_min_cost st) end_position = Some SENTINEL /\
  Forall (fun n =>
            (n_pos n = find_start_position maze /\ n_dir n = d0) \/
            cb_recorded st (behind (n_dir n) (n_pos n)) (n_cost n))
         (cb_queue st) /\
  (cb_recorded st (find_start_position maze) 0 \/
   cb_queued (find_start_position maze) 0 (cb_queue st)) /\
  forall p d cp,
    dict_get (cb_min_cost st) p = Some cp -> p <> end_position ->
    passable maze p = true -> passable maze (advance d p) = true ->
    cp + M + T <= SENTINEL ->
    cb_recorded st (advance d p) (cp + M + T) \/
    cb_queued (advance d p) (cp + M + T) (cb_queue st).

(** A tuple has arrived at the end position, or the search is still closed
    in this sense. *)
Definition cb_found (maze : Maze) (end_position : Position)
    (d0 : Direction) (M T : Z) (st : CbState) : Prop :=
  cb_best_paths st <> [] \/ cb_closed maze end_position d0 M T st.

(** * Properties *)

(** ** Equality tests *)

Lemma Position_eqb_eq (p q : Position) : Position_eqb p q = true <-> p = q.
Proof.
  unfold Position_eqb. destruct p as [x y], q as [x' y']; simpl.
  rewrite andb_true_iff, !Z.eqb_eq. split.
  - intros [-> ->]. reflexivity.
  - intros H. inversion H. auto.
Qed.

Lemma Position_eqb_refl (p : Position) : Position_eqb p p = true.
Proof. apply Position_eqb_eq. reflexivity. Qed.

Lemma Position_eqb_neq (p q : Position) : Position_eqb p q = false <-> p <> q.
Proof.
  split.
  - intros H E. apply Position_eqb_eq in E. congruence.
  - intros H. destruct (Position_eqb p q) eqn:E; [|reflexivity].
    apply Position_eqb_eq in E. contradiction.
Qed.

Lemma Direction_eqb_eq (a b : Direction) : Direction_eqb a b = true <-> a = b.
Proof.
  destruct a, b; simpl; split; intros H; try reflexivity; discriminate.
Qed.

(** ** Lower-bound tables *)

Lemma tbl_get_In (t : Table) (p : Position) (d : Direction) (c : Z) :
  tbl_get t p d = Some c -> In (p, d, c) t.
Proof.
  induction t as [|[[q e] c'] t IH]; simpl; [discriminate|].
  destruct (Position_eqb p q && Direction_eqb d e) eqn:E.
  - intros H. inversion H. subst c'.
    apply andb_true_iff in E. destruct E as [E1 E2].
    apply Position_eqb_eq in E1. apply Direction_eqb_eq in E2.
    subst. left. reflexivity.
  - intros H. right. auto.
Qed.

Lemma closed_table_step (maze : Maze) (M T : Z) (t : Table)
    (p : Position) (d : Direction) (cp : Z) (m : Move) :
  closed_table maze M T t = true ->
  tbl_get t p d = Some cp ->
  passable maze (advance (heading d m) p) = true ->
  exists c', tbl_get t (advance (heading d m) p) (heading d m) = Some c'
             /\ c' <= cp + step_cost M T m.
Proof.
  intros Hc Hg Hp. apply tbl_get_In in Hg.
  unfold closed_table in Hc. rewrite forallb_forall in Hc.
  specialize (Hc _ Hg). unfold closed_state in Hc.
  rewrite forallb_forall in Hc.
  assert (Hm : In m all_moves) by (destruct m; simpl; auto).
  specialize (Hc m Hm). cbv zeta in Hc. rewrite Hp in Hc.
  destruct (tbl_get t (advance (heading d m) p) (heading d m)) as [c'|];
    [|discriminate].
  exists c'. split; [reflexivity|]. apply Z.leb_le. exact Hc.
Qed.

(** A closed table bounds the cost of every walk from below. *)
Lemma closed_table_lower_bound (maze : Maze) (M T : Z) (t : Table) :
  closed_table maze M T t = true ->
  forall ms p d cp q e c,
    tbl_get t p d = Some cp ->
    walk maze M T p d ms = Some (q, e, c) ->
    exists c', tbl_get t q e = Some c' /\ c' <= cp + c.
Proof.
  intros Hc. induction ms as [|m ms IH]; intros p d cp q e c Hg Hw.
  - simpl in Hw. inversion Hw. subst. exists cp. split; [assumption|lia].
  - simpl in Hw.
    destruct (passable maze (advance (heading d m) p)) eqn:Hp; [|discriminate].
    destruct (walk maze M T (advance (heading d m) p) (heading d m) ms)
      as [[[q' e'] c0]|] eqn:Hw'; [|discriminate].
    inversion Hw. subst q' e' c. clear Hw.
    destruct (closed_table_step maze M T t p d cp m Hc Hg Hp) as [c1 [Hg1 Hle]].
    destruct (IH _ _ _ _ _ _ Hg1 Hw') as [c' [Hg' Hle']].
    exists c'. split; [assumption|lia].
Qed.

(** ** [min_cost_to_end] on [maze1] *)

Lemma maze1_lower_bound (ms : list Move) (c : Z) :
  path_to maze1 1 1000 start1 EAST end1 ms c -> 4008 <= c.
Proof.
  intros [_ [e Hw]].
  destruct (closed_table_lower_bound maze1 1 1000 table1 eq_refl
              ms start1 EAST 0 end1 e c eq_refl Hw) as [c' [Hg Hle]].
  destruct e; vm_compute in Hg; inversion Hg; subst; lia.
Qed.

(** C1: on [maze1], with the default weights, [min_cost_to_end] returns 4012,
    although [best_route1] is a path from the start state to the end position
    through non-wall cells that costs 4008, the least cost of any such
    path. *)
Theorem min_cost_to_end_misses_minimum :
  is_rectangular maze1 = true /\
  min_cost_to_end 100 maze1 DEFAULT_STARTING_DIRECTION DEFAULT_MOVE_COST
    DEFAULT_TURN_COST = Returned 4012 /\
  find_end_position maze1 = Returned end1 /\
  path_to maze1 1 1000 (find_start_position maze1) EAST end1 best_route1 4008 /\
  (forall ms c,
     path_to maze1 1 1000 (find_start_position maze1) EAST end1 ms c ->
     4008 <= c).
Proof.
  split; [reflexivity|]. split; [vm_compute; reflexivity|].
  split; [reflexivity|]. split.
  - split; [reflexivity|]. exists EAST. vm_compute. reflexivity.
  - exact maze1_lower_bound.
Qed.

(** ** [count_best_path_tiles] on [maze1] *)

Lemma walk_split (maze : Maze) (M T : Z) (q : Position) :
  forall ms p d r e c,
    walk maze M T p d ms = Some (r, e, c) ->
    In q (walk_cells p d ms) ->
    exists ms1 ms2 d1 c1 c2,
      walk maze M T p d ms1 = Some (q, d1, c1) /\
      walk maze M T q d1 ms2 = Some (r, e, c2) /\
      c = c1 + c2.
Proof.
  induction ms as [|m ms IH]; intros p d r e c Hw Hin.
  - simpl in Hin. destruct Hin as [<-|[]].
    exists [], [], d, 0, c. simpl. auto.
  - simpl in Hin. destruct Hin as [<-|Hin].
    + exists [], (m :: ms), d, 0, c. simpl. auto.
    + simpl in Hw.
      destruct (passable maze (advance (heading d m) p)) eqn:Hp;
        [|discriminate].
      destruct (walk maze M T (advance (heading d m) p) (heading d m) ms)
        as [[[r' e'] c0]|] eqn:Hw'; [|discriminate].
      inversion Hw. subst r' e' c. clear Hw.
      destruct (IH _ _ _ _ _ Hw' Hin)
        as (ms1 & ms2 & d1 & c1 & c2 & H1 & H2 & H3).
      exists (m :: ms1), ms2, d1, (step_cost M T m + c1), c2.
      simpl. rewrite Hp, H1. repeat split; [assumption|lia].
Qed.

Lemma maze1_through_4_6 (ms : list Move) (c : Z) :
  path_to maze1 1 1000 start1 EAST end1 ms c ->
  In (mkPosition 4 6) (walk_cells start1 EAST ms) ->
  4008 < c.
Proof.
  intros [_ [e Hw]] Hin.
  destruct (walk_split maze1 1 1000 _ _ _ _ _ _ _ Hw Hin)
    as (ms1 & ms2 & d1 & c1 & c2 & H1 & H2 & ->).
  destruct (closed_table_lower_bound maze1 1 1000 table1 eq_refl
              ms1 start1 EAST 0 _ d1 c1 eq_refl H1) as [a [Ha Hla]].
  destruct d1; vm_compute in Ha; try discriminate; inversion Ha; subst a.
  - destruct (closed_table_lower_bound maze1 1 1000 table1_east eq_refl
                ms2 (mkPosition 4 6) EAST 0 _ e c2 eq_refl H2) as [b [Hb Hlb]].
    destruct e; vm_compute in Hb; try discriminate; inversion Hb; subst b; lia.
  - destruct (closed_table_lower_bound maze1 1 1000 table1_south eq_refl
                ms2 (mkPosition 4 6) SOUTH 0 _ e c2 eq_refl H2) as [b [Hb Hlb]].
    destruct e; vm_compute in Hb; try discriminate; inversion Hb; subst b; lia.
Qed.

(** C2: on [maze1], with the default weights, [count_best_path_tiles]
    returns 13, the size of [tiles1].  The least cost of a path is 4008 and
    [best_route1] has it; its cell (1, 5) is missing from [tiles1], while
    the cell (4, 6) of [tiles1] lies only on paths that cost more. *)
Theorem count_best_path_tiles_misses_best_path :
  fst (count_best_path_tiles 100 heap1 refs1 DEFAULT_STARTING_DIRECTION
         DEFAULT_MOVE_COST DEFAULT_TURN_COST) = Returned 13 /\
  best_tiles 100 (deref heap1 refs1) DEFAULT_STARTING_DIRECTION
    DEFAULT_MOVE_COST DEFAULT_TURN_COST = Returned tiles1 /\
  path_to maze1 1 1000 (find_start_position maze1) EAST end1 best_route1 4008 /\
  (forall ms c,
     path_to maze1 1 1000 (find_start_position maze1) EAST end1 ms c ->
     4008 <= c) /\
  In (mkPosition 1 5)
     (walk_cells (find_start_position maze1) EAST best_route1) /\
  ~ In (mkPosition 1 5) tiles1 /\
  In (mkPosition 4 6) tiles1 /\
  (forall ms c,
     path_to maze1 1 1000 (find_start_position maze1) EAST end1 ms c ->
     In (mkPosition 4 6) (walk_cells (find_start_position maze1) EAST ms) ->
     4008 < c).
Proof.
  split; [vm_compute; reflexivity|]. split; [vm_compute; reflexivity|].
  split; [split; [reflexivity|]; exists EAST; vm_compute; reflexivity|].
  split; [exact maze1_lower_bound|].
  split; [vm_compute; tauto|].
  split.
  - intros H. simpl in H.
    repeat (destruct H as [H|H]; [discriminate H|]). exact H.
  - split; [simpl; tauto|]. exact maze1_through_4_6.
Qed.

(** C3: on [maze1] both searches drop the entry for the state (junction,
    north) of cost 3004 when it is popped, although no entry for that state
    was popped before: only the state (junction, west) was, at cost 2008.
    [min_cost_to_end] skips it because the position is in [visited],
    [count_best_path_tiles] because the position has the lower cost 2008 in
    [min_cost_to_position]. *)
Theorem searches_prune_by_position_alone :
  (exists st e rest,
     mc_run 31 maze1 end1 1 1000 (mc_init start1 EAST) = Some st /\
     mc_queue st = e :: rest /\
     s_cost e = 3004 /\ s_pos e = junction1 /\ s_dir e = NORTH /\
     existsb (step_in_state junction1 NORTH)
       (mc_popped 31 maze1 end1 1 1000 (mc_init start1 EAST)) = false /\
     existsb (step_in_state junction1 WEST)
       (mc_popped 31 maze1 end1 1 1000 (mc_init start1 EAST)) = true /\
     existsb (Position_eqb junction1) (mc_visited st) = true /\
     mc_iteration maze1 end1 1 1000 st
     = Continue (mkMc rest (mc_count st) (mc_visited st))) /\
  (exists st n rest,
     cb_run 31 maze1 end1 1 1000 (cb_init start1 end1 EAST) = Some st /\
     cb_queue st = n :: rest /\
     n_cost n = 3004 /\ n_pos n = junction1 /\ n_dir n = NORTH /\
     existsb (node_in_state junction1 NORTH)
       (cb_popped 31 maze1 end1 1 1000 (cb_init start1 end1 EAST)) = false /\
     existsb (node_in_state junction1 WEST)
       (cb_popped 31 maze1 end1 1 1000 (cb_init start1 end1 EAST)) = true /\
     dict_get (cb_min_cost st) junction1 = Some 2008 /\
     cb_iteration maze1 end1 1 1000 st
     = Continue (mkCb rest (cb_count st) (cb_min_cost st) (cb_best_paths st))).
Proof.
  split.
  - destruct (mc_run 31 maze1 end1 1 1000 (mc_init start1 EAST))
      as [st|] eqn:Hrun; [|vm_compute in Hrun; discriminate].
    exists st.
    destruct (mc_queue st) as [|e rest] eqn:Hq;
      [vm_compute in Hrun; inversion Hrun; subst st; discriminate Hq|].
    exists e, rest. vm_compute in Hrun. inversion Hrun. subst st. clear Hrun.
    vm_compute in Hq. inversion Hq. subst e rest. clear Hq.
    repeat split; vm_compute; reflexivity.
  - destruct (cb_run 31 maze1 end1 1 1000 (cb_init start1 end1 EAST))
      as [st|] eqn:Hrun; [|vm_compute in Hrun; discriminate].
    exists st.
    destruct (cb_queue st) as [|n rest] eqn:Hq;
      [vm_compute in Hrun; inversion Hrun; subst st; discriminate Hq|].
    exists n, rest. vm_compute in Hrun. inversion Hrun. subst st. clear Hrun.
    vm_compute in Hq. inversion Hq. subst n rest. clear Hq.
    repeat split; vm_compute; reflexivity.
Qed.

(** C5: after [count_best_path_tiles] has returned 13 on [maze1], the rows
    of the caller's maze hold the string ["O"] where they held cells: the
    start cell is one of them. *)
Theorem count_best_path_tiles_overwrites_maze :
  fst (count_best_path_tiles 100 heap1 refs1 DEFAULT_STARTING_DIRECTION
         DEFAULT_MOVE_COST DEFAULT_TURN_COST) = Returned 13 /\
  deref heap1 refs1 = maze1 /\
  cell_at (deref heap1 refs1) (find_start_position maze1)
  = Some (OCell START) /\
  cell_at (deref (snd (count_best_path_tiles 100 heap1 refs1
                         DEFAULT_STARTING_DIRECTION DEFAULT_MOVE_COST
                         DEFAULT_TURN_COST))
                 refs1)
          (find_start_position maze1)
  = Some (OStr "O").
Proof. repeat split; vm_compute; reflexivity. Qed.

Lemma maze3_lower_bound_11 (ms : list Move) (c : Z) :
  path_to maze3 1 11 start3 EAST end3 ms c -> 71 <= c.
Proof.
  intros [_ [e Hw]].
  destruct (closed_table_lower_bound maze3 1 11 table3_11 eq_refl
              ms start3 EAST 0 end3 e c eq_refl Hw) as [c' [Hg Hle]].
  destruct e; vm_compute in Hg; inversion Hg; subst; lia.
Qed.

Lemma maze3_lower_bound_13 (ms : list Move) (c : Z) :
  path_to maze3 1 13 start3 EAST end3 ms c -> 79 <= c.
Proof.
  intros [_ [e Hw]].
  destruct (closed_table_lower_bound maze3 1 13 table3_13 eq_refl
              ms start3 EAST 0 end3 e c eq_refl Hw) as [c' [Hg Hle]].
  destruct e; vm_compute in Hg; inversion Hg; subst; lia.
Qed.

(** C9: on [maze3], with move cost 1, [min_cost_to_end] returns 81 for
    turn cost 11 and 79 for turn cost 13, so the result drops when the turn
    cost grows.  The least costs of a path, 71 and 79, do not: [route3] has
    them, and with turn cost 11 the function misses it by 10. *)
Theorem min_cost_to_end_not_monotone_in_turn_cost :
  well_formed maze3 = true /\
  find_end_position maze3 = Returned end3 /\
  min_cost_to_end 200 maze3 EAST 1 11 = Returned 81 /\
  min_cost_to_end 200 maze3 EAST 1 13 = Returned 79 /\
  path_to maze3 1 11 (find_start_position maze3) EAST end3 route3 71 /\
  path_to maze3 1 13 (find_start_position maze3) EAST end3 route3 79 /\
  (forall ms c,
     path_to maze3 1 11 (find_start_position maze3) EAST end3 ms c ->
     71 <= c) /\
  (forall ms c,
     path_to maze3 1 13 (find_start_position maze3) EAST end3 ms c ->
     79 <= c).
Proof.
  split; [reflexivity|]. split; [reflexivity|].
  split; [vm_compute; reflexivity|]. split; [vm_compute; reflexivity|].
  split; [split; [reflexivity|]; exists EAST; vm_compute; reflexivity|].
  split; [split; [reflexivity|]; exists EAST; vm_compute; reflexivity|].
  split; [exact maze3_lower_bound_11|exact maze3_lower_bound_13].
Qed.

(** ** Python indexing *)

Lemma py_index_front {A : Type} (l : list A) (i : Z) :
  0 <= i < len l -> py_index l i = nth_error l (Z.to_nat i).
Proof.
  intros H. unfold py_index.
  assert (E : (0 <=? i) && (i <? len l) = true).
  { apply andb_true_iff. split; [apply Z.leb_le|apply Z.ltb_lt]; lia. }
  rewrite E. reflexivity.
Qed.

Lemma nth_error_front {A : Type} (l : list A) (i : Z) :
  0 <= i < len l -> exists a, nth_error l (Z.to_nat i) = Some a.
Proof.
  intros H. destruct (nth_error l (Z.to_nat i)) as [a|] eqn:E.
  - exists a. reflexivity.
  - apply nth_error_None in E. unfold len in H. lia.
Qed.

(** ** Well-formed grids *)

Lemma in_all_positions (w h : nat) (x y : Z) :
  0 <= x < Z.of_nat w -> 0 <= y < Z.of_nat h ->
  In (mkPosition x y) (all_positions w h).
Proof.
  intros Hx Hy. unfold all_positions. apply in_flat_map.
  exists (Z.to_nat y). split.
  - apply in_seq. lia.
  - apply in_map_iff. exists (Z.to_nat x). split.
    + f_equal; lia.
    + apply in_seq. lia.
Qed.

Lemma inside_spec (maze : Maze) (p : Position) :
  inside maze p = true <->
  0 <= px p < width maze /\ 0 <= py p < height maze.
Proof.
  unfold inside. rewrite !andb_true_iff, !Z.leb_le, !Z.ltb_lt. tauto.
Qed.

Lemma inside_in_positions (maze : Maze) (p : Position) :
  inside maze p = true -> In p (positions_of maze).
Proof.
  intros H. apply inside_spec in H. destruct p as [x y]. simpl in H.
  unfold positions_of. apply in_all_positions; lia.
Qed.

Lemma width_height_nonneg (maze : Maze) : 0 <= width maze /\ 0 <= height maze.
Proof.
  unfold height, width, len. destruct maze; simpl; lia.
Qed.

Section WellFormed.

Variable maze : Maze.
Hypothesis Hwf : well_formed maze = true.

Lemma wf_rectangular : is_rectangular maze = true.
Proof.
  unfold well_formed in Hwf. rewrite !andb_true_iff in Hwf. tauto.
Qed.

Lemma wf_walled : is_walled maze = true.
Proof.
  unfold well_formed in Hwf. rewrite !andb_true_iff in Hwf. tauto.
Qed.

Lemma wf_size : 2 <= width maze /\ 2 <= height maze.
Proof.
  unfold well_formed in Hwf. rewrite !andb_true_iff, !Z.leb_le in Hwf. tauto.
Qed.

(** Inside the grid, Python's indexing reads the cell at the position. *)
Lemma maze_at_inside (p : Position) :
  inside maze p = true ->
  exists o, maze_at maze p = Some o /\ cell_at maze p = Some o.
Proof.
  intros H. apply inside_spec in H. destruct H as [Hx Hy].
  unfold maze_at, cell_at.
  rewrite (py_index_front maze (py p)) by (unfold height in Hy; lia).
  assert (E : (0 <=? px p) && (0 <=? py p) = true).
  { apply andb_true_iff. split; apply Z.leb_le; lia. }
  rewrite E.
  destruct (nth_error_front maze (py p)) as [row Hrow];
    [unfold height in Hy; lia|].
  rewrite Hrow.
  assert (Hlen : len row = width maze).
  { pose proof wf_rectangular as Hr. unfold is_rectangular in Hr.
    rewrite forallb_forall in Hr. apply Z.eqb_eq. apply Hr.
    eapply nth_error_In. exact Hrow. }
  rewrite (py_index_front row (px p)) by lia.
  destruct (nth_error_front row (px p)) as [o Ho]; [lia|].
  exists o. rewrite Ho. split; reflexivity.
Qed.

Lemma border_is_wall (p : Position) :
  inside maze p = true -> on_border maze p = true -> wall_at maze p = true.
Proof.
  intros Hin Hb. pose proof wf_walled as Hw. unfold is_walled in Hw.
  rewrite forallb_forall in Hw.
  specialize (Hw p (inside_in_positions maze p Hin)).
  rewrite Hb in Hw. simpl in Hw. exact Hw.
Qed.

(** A cell that is read as a non-wall is passable and off the border. *)
Lemma open_cell_is_interior (p : Position) (o : Obj) :
  inside maze p = true -> maze_at maze p = Some o -> is_wall o = false ->
  passable maze p = true /\
  1 <= px p <= width maze - 2 /\ 1 <= py p <= height maze - 2.
Proof.
  intros Hin Hat Hnw.
  destruct (maze_at_inside p Hin) as [o' [Hat' Hc]].
  rewrite Hat in Hat'. inversion Hat'. subst o'. clear Hat'.
  assert (Hp : passable maze p = true).
  { unfold passable. rewrite Hc, Hnw. reflexivity. }
  split; [exact Hp|].
  destruct (on_border maze p) eqn:Hb.
  - pose proof (border_is_wall p Hin Hb) as Hw.
    unfold wall_at in Hw. rewrite Hc in Hw. congruence.
  - unfold on_border in Hb. rewrite !orb_false_iff, !Z.eqb_neq in Hb.
    apply inside_spec in Hin. lia.
Qed.

Lemma neighbour_inside (p : Position) (d : Direction) :
  1 <= px p <= width maze - 2 -> 1 <= py p <= height maze - 2 ->
  inside maze (advance d p) = true.
Proof.
  intros Hx Hy. apply inside_spec. destruct d; simpl; lia.
Qed.

Lemma within_bounds_inside (p : Position) :
  is_within_bounds maze p = Returned (inside maze p).
Proof.
  pose proof wf_size as [Hw Hh].
  unfold is_within_bounds, inside.
  destruct maze as [|row0 rest] eqn:Em.
  - unfold height, len in Hh. simpl in Hh. lia.
  - rewrite <- Em. rewrite py_index_front.
    + rewrite Em. simpl nth_error. simpl width.
      destruct (0 <=? px p); reflexivity.
    + rewrite Em. unfold len. simpl. lia.
Qed.

End WellFormed.

(** ** The frontier *)

Lemma heappush_perm {E : Type} (cost_of seq_of : E -> Z) (q : list E) (e : E) :
  Permutation (e :: q) (heappush cost_of seq_of q e).
Proof.
  induction q as [|f rest IH]; simpl.
  - apply Permutation_refl.
  - destruct (entry_ltb E cost_of seq_of e f).
    + apply Permutation_refl.
    + eapply perm_trans; [apply perm_swap|]. apply perm_skip. exact IH.
Qed.

Lemma heappush3_perm {E : Type} (cost_of seq_of : E -> Z) (q : list E)
    (a b c : E) :
  Permutation (c :: b :: a :: q)
    (heappush cost_of seq_of
       (heappush cost_of seq_of (heappush cost_of seq_of q a) b) c).
Proof.
  eapply perm_trans; [|apply heappush_perm]. apply perm_skip.
  eapply perm_trans; [|apply heappush_perm]. apply perm_skip.
  apply heappush_perm.
Qed.

Lemma existsb_Position_In (p : Position) (l : list Position) :
  existsb (Position_eqb p) l = true <-> In p l.
Proof.
  rewrite existsb_exists. split.
  - intros [q [Hin Heq]]. apply Position_eqb_eq in Heq. subst. exact Hin.
  - intros Hin. exists p. split; [exact Hin|apply Position_eqb_refl].
Qed.

(** ** The loop bodies follow the case relations *)

Lemma mc_iteration_case (maze : Maze) (end_position : Position) (M T : Z)
    (st : McState) :
  mc_case maze end_position M T st (mc_iteration maze end_position M T st).
Proof.
  unfold mc_iteration.
  destruct (mc_queue st) as [|e rest] eqn:Hq; simpl.
  - apply mc_exhausted. exact Hq.
  - destruct (Position_eqb (s_pos e) end_position) eqn:Hend.
    + apply Position_eqb_eq in Hend. eapply mc_at_end; eauto.
    + apply Position_eqb_neq in Hend.
      destruct (existsb (Position_eqb (s_pos e)) (mc_visited st)) eqn:Hv.
      * apply existsb_Position_In in Hv. eapply mc_stale; eauto.
      * assert (Hnv : ~ In (s_pos e) (mc_visited st)).
        { intros Hin. apply existsb_Position_In in Hin. congruence. }
        destruct (maze_at maze (s_pos e)) as [o|] eqn:Hat.
        -- destruct (is_wall o) eqn:Hw.
           ++ eapply mc_wall; eauto.
           ++ eapply mc_expand; eauto.
        -- eapply mc_out_of_range; eauto.
Qed.

Lemma cb_iteration_case (maze : Maze) (end_position : Position) (M T : Z)
    (st : CbState) :
  cb_case maze end_position M T st (cb_iteration maze end_position M T st).
Proof.
  unfold cb_iteration.
  destruct (cb_queue st) as [|n rest] eqn:Hq; simpl.
  - apply cb_exhausted. exact Hq.
  - destruct (maze_at maze (n_pos n)) as [o|] eqn:Hat;
      [|eapply cb_out_of_range; eauto].
    destruct (is_wall o) eqn:Hw; [eapply cb_wall; eauto|].
    destruct (dict_get (cb_min_cost st) end_position) as [end_cost|] eqn:He;
      [|eapply cb_no_end_cost; eauto].
    destruct (end_cost <? n_cost n) eqn:Hlt.
    { apply Z.ltb_lt in Hlt. eapply cb_beyond_end_cost; eauto. }
    apply Z.ltb_ge in Hlt.
    destruct (dict_get (cb_min_cost st) (n_pos n)) as [c|] eqn:Hp.
    + destruct (c <? n_cost n) eqn:Hc.
      { apply Z.ltb_lt in Hc. eapply cb_beyond_position_cost; eauto. }
      destruct (Position_eqb (n_pos n) end_position) eqn:Hend.
      * apply Position_eqb_eq in Hend. eapply cb_arrive; eauto.
      * apply Position_eqb_neq in Hend. eapply cb_expand; eauto.
    + destruct (Position_eqb (n_pos n) end_position) eqn:Hend.
      * apply Position_eqb_eq in Hend. eapply cb_arrive; eauto.
      * apply Position_eqb_neq in Hend. eapply cb_expand; eauto.
Qed.

(** ** Sequence numbers are never repeated

    This is what lets the frontier be ordered by (cost, sequence number)
    alone: no two entries of a queue agree on both. *)

Lemma seqs_fresh_pop (s : Z) (seqs : list Z) (count : Z) :
  seqs_fresh (s :: seqs) count -> seqs_fresh seqs count.
Proof.
  intros [Hnd Hle]. inversion Hnd. inversion Hle. split; assumption.
Qed.

Lemma seqs_fresh_push3 (seqs l : list Z) (count : Z) :
  seqs_fresh seqs count ->
  Permutation (count + 1 + 1 + 1 :: count + 1 + 1 :: count + 1 :: seqs) l ->
  seqs_fresh l (count + 1 + 1 + 1).
Proof.
  intros [Hnd Hle] Hperm.
  assert (Hlt : forall d, 0 < d -> ~ In (count + d) seqs).
  { intros d Hd Hin. rewrite Forall_forall in Hle.
    specialize (Hle _ Hin). lia. }
  split.
  - eapply Permutation_NoDup; [exact Hperm|].
    constructor.
    { intros [H|[H|H]]; try lia.
      apply (Hlt 3); [lia|]. replace (count + 3) with (count + 1 + 1 + 1) by lia.
      exact H. }
    constructor.
    { intros [H|H]; try lia.
      apply (Hlt 2); [lia|]. replace (count + 2) with (count + 1 + 1) by lia.
      exact H. }
    constructor; [apply (Hlt 1); lia|exact Hnd].
  - eapply Permutation_Forall; [exact Hperm|].
    repeat (constructor; [lia|]).
    eapply Forall_impl; [|exact Hle]. intros x Hx. simpl in Hx. lia.
Qed.

Lemma mc_seqs_fresh_step (maze : Maze) (end_position : Position) (M T : Z)
    (st st' : McState) :
  seqs_fresh (map s_seq (mc_queue st)) (mc_count st) ->
  mc_iteration maze end_position M T st = Continue st' ->
  seqs_fresh (map s_seq (mc_queue st')) (mc_count st').
Proof.
  intros Hf Hit.
  pose proof (mc_iteration_case maze end_position M T st) as Hc.
  rewrite Hit in Hc.
  inversion Hc as [| | e rest Hq | | e rest o Hq | e rest o Hq];
    subst; rewrite Hq in Hf; simpl map in Hf; cbn [mc_queue mc_count].
  - eapply seqs_fresh_pop. exact Hf.
  - eapply seqs_fresh_pop. exact Hf.
  - apply (seqs_fresh_push3 (map s_seq rest));
      [eapply seqs_fresh_pop; exact Hf|].
    exact (Permutation_map s_seq
             (heappush3_perm s_cost s_seq rest
                (mc_child M T e TurnLeft (mc_count st + 1))
                (mc_child M T e Forward (mc_count st + 1 + 1))
                (mc_child M T e TurnRight (mc_count st + 1 + 1 + 1)))).
Qed.

Lemma cb_seqs_fresh_step (maze : Maze) (end_position : Position) (M T : Z)
    (st st' : CbState) :
  seqs_fresh (map n_seq (cb_queue st)) (cb_count st) ->
  cb_iteration maze end_position M T st = Continue st' ->
  seqs_fresh (map n_seq (cb_queue st')) (cb_count st').
Proof.
  intros Hf Hit.
  pose proof (cb_iteration_case maze end_position M T st) as Hc.
  rewrite Hit in Hc.
  inversion Hc as [| | | | | | | n rest o ec Hq]; subst;
    match goal with
    | Hq : cb_queue st = _ :: _ |- _ =>
        rewrite Hq in Hf; simpl map in Hf; cbn [cb_queue cb_count cb_skip]
    end;
    try (eapply seqs_fresh_pop; exact Hf).
  apply (seqs_fresh_push3 (map n_seq rest));
    [eapply seqs_fresh_pop; exact Hf|].
  exact (Permutation_map n_seq
           (heappush3_perm n_cost n_seq rest
              (cb_child M T n TurnLeft (cb_count st + 1))
              (cb_child M T n Forward (cb_count st + 1 + 1))
              (cb_child M T n TurnRight (cb_count st + 1 + 1 + 1)))).
Qed.

Lemma mc_run_seqs_fresh (maze : Maze) (end_position : Position) (M T : Z)
    (p : Position) (d : Direction) (k : nat) (st : McState) :
  mc_run k maze end_position M T (mc_init p d) = Some st ->
  seqs_fresh (map s_seq (mc_queue st)) (mc_count st).
Proof.
  assert (H : forall k st0 st,
            seqs_fresh (map s_seq (mc_queue st0)) (mc_count st0) ->
            mc_run k maze end_position M T st0 = Some st ->
            seqs_fresh (map s_seq (mc_queue st)) (mc_count st)).
  { clear. induction k as [|k IH]; intros st0 st Hf Hrun; simpl in Hrun.
    - inversion Hrun. subst. exact Hf.
    - destruct (mc_iteration maze end_position M T st0) as [st1|r] eqn:Hit;
        [|discriminate].
      eapply IH; [|exact Hrun]. eapply mc_seqs_fresh_step; eassumption. }
  apply H. simpl. split.
  - constructor; [intros []|constructor].
  - constructor; [simpl; lia|constructor].
Qed.

Lemma cb_run_seqs_fresh (maze : Maze) (end_position : Position) (M T : Z)
    (p : Position) (d : Direction) (k : nat) (st : CbState) :
  cb_run k maze end_position M T (cb_init p end_position d) = Some st ->
  seqs_fresh (map n_seq (cb_queue st)) (cb_count st).
Proof.
  assert (H : forall k st0 st,
            seqs_fresh (map n_seq (cb_queue st0)) (cb_count st0) ->
            cb_run k maze end_position M T st0 = Some st ->
            seqs_fresh (map n_seq (cb_queue st)) (cb_count st)).
  { clear. induction k as [|k IH]; intros st0 st Hf Hrun; simpl in Hrun.
    - inversion Hrun. subst. exact Hf.
    - destruct (cb_iteration maze end_position M T st0) as [st1|r] eqn:Hit;
        [|discriminate].
      eapply IH; [|exact Hrun]. eapply cb_seqs_fresh_step; eassumption. }
  apply H. simpl. split.
  - constructor; [intros []|constructor].
  - constructor; [simpl; lia|constructor].
Qed.

(** ** More budget does not change a result *)

Lemma mc_loop_more_fuel (maze : Maze) (end_position : Position) (M T : Z) :
  forall fuel fuel' st,
    (fuel <= fuel')%nat ->
    mc_loop fuel maze end_position M T st <> OutOfFuel ->
    mc_loop fuel' maze end_position M T st
    = mc_loop fuel maze end_position M T st.
Proof.
  induction fuel as [|fuel IH]; intros fuel' st Hle Hr; simpl in *;
    [congruence|].
  destruct fuel' as [|fuel']; [lia|]. simpl.
  destruct (mc_iteration maze end_position M T st) as [st'|r];
    [|reflexivity].
  apply IH; [lia|exact Hr].
Qed.

Lemma cb_loop_more_fuel (maze : Maze) (end_position : Position) (M T : Z) :
  forall fuel fuel' st,
    (fuel <= fuel')%nat ->
    cb_loop fuel maze end_position M T st <> OutOfFuel ->
    cb_loop fuel' maze end_position M T st
    = cb_loop fuel maze end_position M T st.
Proof.
  induction fuel as [|fuel IH]; intros fuel' st Hle Hr; simpl in *;
    [congruence|].
  destruct fuel' as [|fuel']; [lia|]. simpl.
  destruct (cb_iteration maze end_position M T st) as [st'|r];
    [|reflexivity].
  apply IH; [lia|exact Hr].
Qed.

(** ** Frontier entries stay inside a well-formed grid *)

Section Bounds.

Variable maze : Maze.
Hypothesis Hwf : well_formed maze = true.
Variable end_position : Position.
Variables M T : Z.

Lemma start_inside : inside maze (find_start_position maze) = true.
Proof.
  pose proof (wf_size maze Hwf) as [Hw Hh].
  apply inside_spec. unfold find_start_position, height in *. simpl. lia.
Qed.

Lemma mc_child_inside (e : Step) (o : Obj) (m : Move) (seq : Z) :
  inside maze (s_pos e) = true ->
  maze_at maze (s_pos e) = Some o -> is_wall o = false ->
  inside maze (s_pos (mc_child M T e m seq)) = true.
Proof.
  intros Hin Hat Hw.
  destruct (open_cell_is_interior maze Hwf _ _ Hin Hat Hw) as (_ & Hx & Hy).
  simpl. apply neighbour_inside; assumption.
Qed.

Lemma cb_child_inside (n : Node) (o : Obj) (m : Move) (seq : Z) :
  inside maze (n_pos n) = true ->
  maze_at maze (n_pos n) = Some o -> is_wall o = false ->
  inside maze (n_pos (cb_child M T n m seq)) = true.
Proof.
  intros Hin Hat Hw.
  destruct (open_cell_is_interior maze Hwf _ _ Hin Hat Hw) as (_ & Hx & Hy).
  simpl. apply neighbour_inside; assumption.
Qed.

Lemma mc_bounded_init (d : Direction) :
  mc_bounded maze (mc_init (find_start_position maze) d).
Proof.
  unfold mc_bounded, mc_init. simpl. constructor; [|constructor].
  simpl. apply start_inside.
Qed.

Lemma cb_bounded_init (d : Direction) :
  cb_bounded maze (cb_init (find_start_position maze) end_position d).
Proof.
  unfold cb_bounded, cb_init. simpl. constructor; [|constructor].
  simpl. apply start_inside.
Qed.

Lemma mc_bounded_step (st st' : McState) :
  mc_bounded maze st ->
  mc_iteration maze end_position M T st = Continue st' ->
  mc_bounded maze st'.
Proof.
  unfold mc_bounded. intros Hb Hit.
  pose proof (mc_iteration_case maze end_position M T st) as Hc.
  rewrite Hit in Hc.
  inversion Hc as [| | e rest Hq | | e rest o Hq | e rest o Hq Hne Hnv Hat Hw];
    subst; rewrite Hq in Hb; inversion Hb as [|? ? He Hrest]; subst; simpl.
  - exact Hrest.
  - exact Hrest.
  - eapply Permutation_Forall; [apply heappush3_perm|].
    repeat constructor; try exact Hrest;
      eapply mc_child_inside; eassumption.
Qed.

Lemma cb_bounded_step (st st' : CbState) :
  cb_bounded maze st ->
  cb_iteration maze end_position M T st = Continue st' ->
  cb_bounded maze st'.
Proof.
  unfold cb_bounded. intros Hb Hit.
  pose proof (cb_iteration_case maze end_position M T st) as Hc.
  rewrite Hit in Hc.
  inversion Hc; subst;
    match goal with
    | Hq : cb_queue st = _ :: _ |- _ =>
        rewrite Hq in Hb; inversion Hb as [|? ? He Hrest]; subst; simpl
    end;
    try exact Hrest.
  eapply Permutation_Forall; [apply heappush3_perm|].
  repeat constructor; try exact Hrest;
    eapply cb_child_inside; eassumption.
Qed.

Lemma mc_bounded_in_range (st : McState) :
  mc_bounded maze st ->
  mc_iteration maze end_position M T st <> Break (Raised IndexError).
Proof.
  unfold mc_bounded. intros Hb Hit.
  pose proof (mc_iteration_case maze end_position M T st) as Hc.
  rewrite Hit in Hc.
  inversion Hc as [| | | e rest Hq Hne Hnv Hat | |]; subst.
  rewrite Hq in Hb. inversion Hb as [|? ? He Hrest]; subst.
  destruct (maze_at_inside maze Hwf _ He) as [o [Ho _]]. congruence.
Qed.

Lemma cb_bounded_in_range (st : CbState) :
  cb_bounded maze st ->
  cb_iteration maze end_position M T st <> Break (Raised IndexError).
Proof.
  unfold cb_bounded. intros Hb Hit.
  pose proof (cb_iteration_case maze end_position M T st) as Hc.
  rewrite Hit in Hc.
  inversion Hc as [| n rest Hq Hat | | | | | |]; subst.
  rewrite Hq in Hb. inversion Hb as [|? ? He Hrest]; subst.
  destruct (maze_at_inside maze Hwf _ He) as [o [Ho _]]. congruence.
Qed.

Lemma mc_run_bounded (n : nat) :
  forall st st',
    mc_bounded maze st ->
    mc_run n maze end_position M T st = Some st' ->
    mc_bounded maze st'.
Proof.
  induction n as [|n IH]; intros st st' Hb Hrun; simpl in Hrun.
  - inversion Hrun. subst. exact Hb.
  - destruct (mc_iteration maze end_position M T st) as [st1|r] eqn:Hit;
      [|discriminate].
    eapply IH; [|exact Hrun]. eapply mc_bounded_step; eassumption.
Qed.

Lemma cb_run_bounded (n : nat) :
  forall st st',
    cb_bounded maze st ->
    cb_run n maze end_position M T st = Some st' ->
    cb_bounded maze st'.
Proof.
  induction n as [|n IH]; intros st st' Hb Hrun; simpl in Hrun.
  - inversion Hrun. subst. exact Hb.
  - destruct (cb_iteration maze end_position M T st) as [st1|r] eqn:Hit;
      [|discriminate].
    eapply IH; [|exact Hrun]. eapply cb_bounded_step; eassumption.
Qed.

End Bounds.

Lemma bounded_within_bounds (maze : Maze) (A : Type) (pos : A -> Position)
    (q : list A) :
  well_formed maze = true ->
  Forall (fun e => inside maze (pos e) = true) q ->
  Forall (fun e => is_within_bounds maze (pos e) = Returned true) q.
Proof.
  intros Hwf H. eapply Forall_impl; [|exact H].
  intros e He. simpl in He. rewrite (within_bounds_inside maze Hwf), He.
  reflexivity.
Qed.

(** C8 (amended): on a rectangular grid of at least 2 by 2 cells whose outer
    rows and columns are walls, every entry on the frontier of either search
    (the start entry and every successor pushed) has a position that
    [is_within_bounds] accepts, and no iteration raises [IndexError], at any
    point of the run, for any end position, weights and start direction. *)
Theorem frontier_within_bounds_of_walled_grid
    (maze : Maze) (end_position : Position) (M T : Z)
    (start_direction : Direction) (n : nat) :
  well_formed maze = true ->
  (forall st,
     mc_run n maze end_position M T
       (mc_init (find_start_position maze) start_direction) = Some st ->
     Forall (fun e => is_within_bounds maze (s_pos e) = Returned true)
            (mc_queue st) /\
     mc_iteration maze end_position M T st <> Break (Raised IndexError)) /\
  (forall st,
     cb_run n maze end_position M T
       (cb_init (find_start_position maze) end_position start_direction)
     = Some st ->
     Forall (fun e => is_within_bounds maze (n_pos e) = Returned true)
            (cb_queue st) /\
     cb_iteration maze end_position M T st <> Break (Raised IndexError)).
Proof.
  intros Hwf. split; intros st Hrun.
  - assert (Hb : mc_bounded maze st).
    { eapply mc_run_bounded; [exact Hwf| |exact Hrun].
      apply mc_bounded_init. exact Hwf. }
    split.
    + apply bounded_within_bounds; assumption.
    + apply mc_bounded_in_range; assumption.
  - assert (Hb : cb_bounded maze st).
    { eapply cb_run_bounded; [exact Hwf| |exact Hrun].
      apply cb_bounded_init. exact Hwf. }
    split.
    + apply bounded_within_bounds; assumption.
    + apply cb_bounded_in_range; assumption.
Qed.

(** ** Frontier entries are ends of walks *)

Lemma walk_snoc (maze : Maze) (M T : Z) (m : Move) :
  forall ms p d q e c,
    walk maze M T p d ms = Some (q, e, c) ->
    passable maze (advance (heading e m) q) = true ->
    walk maze M T p d (ms ++ [m])
    = Some (advance (heading e m) q, heading e m, c + step_cost M T m).
Proof.
  induction ms as [|m0 ms IH]; intros p d q e c Hw Hp; simpl in *.
  - inversion Hw. subst. rewrite Hp. f_equal. f_equal. lia.
  - destruct (passable maze (advance (heading d m0) p)); [|discriminate].
    destruct (walk maze M T (advance (heading d m0) p) (heading d m0) ms)
      as [[[q' e'] c']|] eqn:Hw'; [|discriminate].
    inversion Hw. subst q' e' c. clear Hw.
    rewrite (IH _ _ _ _ _ Hw' Hp). f_equal. f_equal. lia.
Qed.

Lemma find_end_position_wf (maze : Maze) :
  well_formed maze = true ->
  find_end_position maze = Returned (mkPosition (width maze - 2) 1).
Proof.
  intros Hwf. pose proof (wf_size maze Hwf) as [_ Hh].
  unfold find_end_position. destruct maze as [|row0 rest].
  - unfold height, len in Hh. simpl in Hh. lia.
  - rewrite py_index_front; [reflexivity|]. unfold len. simpl. lia.
Qed.

Section Traced.

Variable maze : Maze.
Hypothesis Hwf : well_formed maze = true.
Variable end_position : Position.
Variables M T : Z.
Variable start_direction : Direction.

Lemma traced_start :
  traced maze M T start_direction (find_start_position maze)
    start_direction 0.
Proof.
  intros Hp. split; [exact Hp|]. exists []. reflexivity.
Qed.

Lemma traced_child (p : Position) (d : Direction) (c c' : Z) (m : Move) :
  passable maze p = true ->
  traced maze M T start_direction p d c ->
  c' = c + step_cost M T m ->
  traced maze M T start_direction (advance (heading d m) p) (heading d m) c'.
Proof.
  intros Hp Htr -> Hp'. destruct (Htr Hp) as [Hs [ms Hw]].
  split; [exact Hs|]. exists (ms ++ [m]).
  apply walk_snoc; assumption.
Qed.

Lemma mc_child_traced (e : Step) (m : Move) (seq : Z) :
  passable maze (s_pos e) = true ->
  traced maze M T start_direction (s_pos e) (s_dir e) (s_cost e) ->
  traced maze M T start_direction
    (s_pos (mc_child M T e m seq)) (s_dir (mc_child M T e m seq))
         (s_cost (mc_child M T e m seq)).
Proof.
  intros Hp Htr. simpl. eapply traced_child; [exact Hp|exact Htr|].
  destruct m; simpl; lia.
Qed.

Lemma cb_child_traced (n : Node) (m : Move) (seq : Z) :
  passable maze (n_pos n) = true ->
  traced maze M T start_direction (n_pos n) (n_dir n) (n_cost n) ->
  traced maze M T start_direction
    (n_pos (cb_child M T n m seq)) (n_dir (cb_child M T n m seq))
         (n_cost (cb_child M T n m seq)).
Proof.
  intros Hp Htr. simpl. eapply traced_child; [exact Hp|exact Htr|].
  destruct m; simpl; lia.
Qed.

(** *** [min_cost_to_end] *)

Lemma mc_inv_init :
  mc_inv maze M T start_direction
    (mc_init (find_start_position maze) start_direction).
Proof.
  split; [apply mc_bounded_init; exact Hwf|]. split.
  - unfold mc_traced, mc_init. simpl. constructor; [|constructor].
    simpl. apply traced_start.
  - simpl. split; [constructor|]. intros p [].
Qed.

Lemma visited_room (p : Position) (visited : list Position) :
  NoDup visited -> incl visited (positions_of maze) ->
  ~ In p visited -> inside maze p = true ->
  (List.length visited < List.length (positions_of maze))%nat.
Proof.
  intros Hnd Hincl Hnin Hin.
  assert (H : (List.length (p :: visited)
               <= List.length (positions_of maze))%nat).
  { apply NoDup_incl_length.
    - constructor; assumption.
    - intros q [<-|Hq]; [apply inside_in_positions; exact Hin|auto]. }
  simpl in H. lia.
Qed.

Lemma mc_inv_step (st st' : McState) :
  mc_inv maze M T start_direction st ->
  mc_iteration maze end_position M T st = Continue st' ->
  mc_inv maze M T start_direction st' /\
  (mc_measure maze st' < mc_measure maze st)%nat.
Proof.
  intros (Hb & Ht & Hnd & Hincl) Hit.
  pose proof (mc_bounded_step maze Hwf end_position M T st st' Hb Hit) as Hb'.
  pose proof (mc_iteration_case maze end_position M T st) as Hc.
  rewrite Hit in Hc. unfold mc_inv, mc_traced, mc_measure.
  unfold mc_bounded in Hb. unfold mc_traced in Ht.
  inversion Hc as [| | e rest Hq Hne Hv | | e rest o Hq Hne Hnv Hat Hw
                   | e rest o Hq Hne Hnv Hat Hw];
    subst; rewrite Hq in Hb, Ht;
    inversion Hb as [|? ? Hin _]; inversion Ht as [|? ? Hte Htrest]; subst;
    simpl; rewrite Hq; simpl.
  - split; [|lia]. split; [exact Hb'|]. split; [exact Htrest|].
    split; assumption.
  - pose proof (visited_room _ _ Hnd Hincl Hnv Hin) as Hroom.
    split; [|lia]. split; [exact Hb'|]. split; [exact Htrest|]. split.
    + constructor; assumption.
    + intros q [<-|Hq']; [apply inside_in_positions; exact Hin|auto].
  - pose proof (visited_room _ _ Hnd Hincl Hnv Hin) as Hroom.
    destruct (open_cell_is_interior maze Hwf _ _ Hin Hat Hw) as (Hp & _).
    split.
    + split; [exact Hb'|]. split; [|split].
      * eapply Permutation_Forall; [apply heappush3_perm|].
        constructor; [apply mc_child_traced; assumption|].
        constructor; [apply mc_child_traced; assumption|].
        constructor; [apply mc_child_traced; assumption|exact Htrest].
      * constructor; assumption.
      * intros q [<-|Hq']; [apply inside_in_positions; exact Hin|auto].
    + unfold push_step.
      rewrite <- (Permutation_length (heappush3_perm s_cost s_seq rest _ _ _)).
      simpl. lia.
Qed.

(** With no walk to a passable end position the loop runs until the
    frontier is empty, and the function raises. *)
Lemma mc_loop_exhausts :
  passable maze end_position = true ->
  (forall ms e c,
     passable maze (find_start_position maze) = true ->
     walk maze M T (find_start_position maze) start_direction ms
     <> Some (end_position, e, c)) ->
  forall k st,
    (mc_measure maze st < k)%nat -> mc_inv maze M T start_direction st ->
    exists fuel,
      mc_loop fuel maze end_position M T st
      = Raised (ValueError NoPathFound).
Proof.
  intros Hpe Hno. induction k as [|k IH]; intros st Hk Hinv; [lia|].
  pose proof (mc_iteration_case maze end_position M T st) as Hc.
  destruct (mc_iteration maze end_position M T st) as [st'|r] eqn:Hit.
  - destruct (mc_inv_step st st' Hinv Hit) as [Hinv' Hlt].
    destruct (IH st') as [fuel Hf]; [lia|exact Hinv'|].
    exists (S fuel). simpl. rewrite Hit. exact Hf.
  - destruct Hinv as (Hb & Ht & _).
    inversion Hc as [Hq | e rest Hq He | | e rest Hq Hne Hnv Hat | |]; subst.
    + exists 1%nat. simpl. rewrite Hit. reflexivity.
    + unfold mc_traced in Ht. rewrite Hq in Ht.
      inversion Ht as [|? ? Hte _]; subst.
      destruct (Hte Hpe) as [Hs [ms Hw]].
      exfalso. eapply Hno; eassumption.
    + exfalso. eapply mc_bounded_in_range; eassumption.
Qed.

(** What [min_cost_to_end] returns is the cost of a path, though not always
    of a cheapest one. *)
Lemma mc_loop_returns_path_cost :
  passable maze end_position = true ->
  forall fuel st c,
    mc_inv maze M T start_direction st ->
    mc_loop fuel maze end_position M T st = Returned c ->
    exists ms,
      path_to maze M T (find_start_position maze) start_direction
        end_position ms c.
Proof.
  intros Hpe. induction fuel as [|fuel IH]; intros st c Hinv Hloop;
    simpl in Hloop; [discriminate|].
  pose proof (mc_iteration_case maze end_position M T st) as Hc.
  destruct (mc_iteration maze end_position M T st) as [st'|r] eqn:Hit.
  - destruct (mc_inv_step st st' Hinv Hit) as [Hinv' _].
    eapply IH; eassumption.
  - subst r. destruct Hinv as (_ & Ht & _).
    inversion Hc as [| e rest Hq He | | | |]; subst.
    unfold mc_traced in Ht. rewrite Hq in Ht.
    inversion Ht as [|? ? Hte _]; subst.
    destruct (Hte Hpe) as [Hs [ms Hw]].
    exists ms. split; [exact Hs|]. exists (s_dir e). exact Hw.
Qed.

End Traced.

(** ** The dictionary *)

Lemma dict_get_set_same (d : Dict) (k : Position) (v : Z) :
  dict_get (dict_set d k v) k = Some v.
Proof.
  induction d as [|[k' v'] d IH]; simpl.
  - rewrite Position_eqb_refl. reflexivity.
  - destruct (Position_eqb k k') eqn:E; simpl; rewrite E; auto.
Qed.

Lemma dict_get_set_other (d : Dict) (k k' : Position) (v : Z) :
  k' <> k -> dict_get (dict_set d k v) k' = dict_get d k'.
Proof.
  intros Hne. induction d as [|[k0 v0] d IH]; simpl.
  - apply Position_eqb_neq in Hne. rewrite Hne. reflexivity.
  - destruct (Position_eqb k k0) eqn:E; simpl.
    + apply Position_eqb_eq in E. subst k0.
      apply Position_eqb_neq in Hne. rewrite Hne. reflexivity.
    + destruct (Position_eqb k' k0); auto.
Qed.

Lemma list_sum_perm (l l' : list nat) :
  Permutation l l' -> list_sum l = list_sum l'.
Proof.
  induction 1; simpl; lia.
Qed.

(** ** [count_best_path_tiles] under a bound on the cost at the end *)

Section Capped.

Variable maze : Maze.
Hypothesis Hwf : well_formed maze = true.
Variable end_position : Position.
Variables M T : Z.
Hypothesis HM : 0 <= M.
Hypothesis HT : 0 <= T.
Hypothesis HMT : 1 <= M + T.
Variable start_direction : Direction.
Variable B : Z.

(** Every walk from the start state to the end position costs more than
    [B]. *)
Hypothesis Hfar :
  forall ms e c,
    passable maze (find_start_position maze) = true ->
    walk maze M T (find_start_position maze) start_direction ms
    = Some (end_position, e, c) ->
    B < c.

Lemma steps_left_range (p : Position) (d : Direction) :
  inside maze p = true ->
  0 <= steps_left maze p d <= width maze + height maze - 1.
Proof.
  intros Hin. apply inside_spec in Hin. destruct d; simpl; lia.
Qed.

Lemma steps_left_ahead (p : Position) (d : Direction) :
  steps_left maze (advance d p) d = steps_left maze p d - 1.
Proof. destruct d; simpl; lia. Qed.

(** A successor of an entry within the bound ranks lower. *)
Lemma rank_child (c : Z) (p : Position) (d : Direction) (m : Move) :
  inside maze p = true ->
  inside maze (advance (heading d m) p) = true ->
  c <= B ->
  (S (rank maze B (c + step_cost M T m)
        (advance (heading d m) p) (heading d m))
   <= rank maze B c p d)%nat.
Proof.
  intros Hin Hin' Hc. unfold rank.
  pose proof (steps_left_range p d Hin) as Hs.
  pose proof (steps_left_range _ (heading d m) Hin') as Hs'.
  pose proof (width_height_nonneg maze) as [Hw Hh].
  set (K := width maze + height maze + 1) in *.
  assert (HK : 1 <= K) by (unfold K; lia).
  assert (Hgoal :
    1 + (B - (c + step_cost M T m)) * K
    + steps_left maze (advance (heading d m) p) (heading d m) + 1
    <= 1 + (B - c) * K + steps_left maze p d).
  { destruct m; simpl step_cost; simpl heading.
    - assert ((M + T) * K >= K) by nia.
      simpl heading in Hs'. nia.
    - rewrite steps_left_ahead. nia.
    - assert ((M + T) * K >= K) by nia.
      simpl heading in Hs'. nia. }
  assert (0 <= (B - c) * K) by nia.
  lia.
Qed.

Lemma node_weight_pos (n : Node) : (1 <= node_weight maze B n)%nat.
Proof.
  unfold node_weight.
  pose proof (Nat.pow_nonzero 4 (rank maze B (n_cost n) (n_pos n) (n_dir n))).
  lia.
Qed.

Lemma cb_child_weight (n : Node) (m : Move) (seq : Z) (o : Obj) :
  inside maze (n_pos n) = true ->
  maze_at maze (n_pos n) = Some o -> is_wall o = false ->
  n_cost n <= B ->
  (4 * node_weight maze B (cb_child M T n m seq) <= node_weight maze B n)%nat.
Proof.
  intros Hin Hat Hw Hc.
  pose proof (cb_child_inside maze Hwf M T n o m seq Hin Hat Hw) as Hin'.
  pose proof (rank_child (n_cost n) (n_pos n) (n_dir n) m Hin Hin' Hc) as Hr.
  unfold node_weight.
  assert (Hcost : n_cost (cb_child M T n m seq) = n_cost n + step_cost M T m).
  { destruct m; simpl; lia. }
  rewrite Hcost. simpl n_pos. simpl n_dir.
  set (r' := rank maze B (n_cost n + step_cost M T m)
               (advance (heading (n_dir n) m) (n_pos n))
               (heading (n_dir n) m)) in *.
  set (r := rank maze B (n_cost n) (n_pos n) (n_dir n)) in *.
  change (4 * 4 ^ r')%nat with (4 ^ S r')%nat.
  apply Nat.pow_le_mono_r; lia.
Qed.

Lemma cb_inv_step (st st' : CbState) :
  cb_inv maze end_position M T start_direction B st ->
  cb_iteration maze end_position M T st = Continue st' ->
  cb_inv maze end_position M T start_direction B st' /\
  (cb_measure maze B st' < cb_measure maze B st)%nat.
Proof.
  intros (Hb & Ht & (ec & Hec & HecB) & Hbest) Hit.
  pose proof (cb_bounded_step maze Hwf end_position M T st st' Hb Hit) as Hb'.
  pose proof (cb_iteration_case maze end_position M T st) as Hc.
  rewrite Hit in Hc. unfold cb_inv, cb_traced, cb_measure.
  unfold cb_bounded in Hb. unfold cb_traced in Ht.
  assert (Hskip : forall n rest,
            cb_queue st = n :: rest ->
            Forall (fun n => traced maze M T start_direction
                               (n_pos n) (n_dir n) (n_cost n)) rest ->
            cb_bounded maze (cb_skip st rest) ->
            cb_inv maze end_position M T start_direction B (cb_skip st rest) /\
            (cb_measure maze B (cb_skip st rest) < cb_measure maze B st)%nat).
  { intros n rest Hq Htrest Hbr. split.
    - split; [exact Hbr|]. split; [exact Htrest|]. split; [|exact Hbest].
      exists ec. split; assumption.
    - unfold cb_measure. rewrite Hq. simpl.
      pose proof (node_weight_pos n). lia. }
  inversion Hc as [| | n rest o Hq Hat Hw
                   | | n rest o ec' Hq Hat Hw He Hlt
                   | n rest o ec' c Hq Hat Hw He Hle Hp Hlt
                   | n rest o ec' Hq Hat Hw He Hle Hend
                   | n rest o ec' Hq Hat Hw He Hle Hne];
    subst; rewrite Hq in Hb, Ht;
    inversion Hb as [|? ? Hin _]; inversion Ht as [|? ? Htn Htrest]; subst.
  - apply (Hskip n rest Hq Htrest Hb').
  - apply (Hskip n rest Hq Htrest Hb').
  - apply (Hskip n rest Hq Htrest Hb').
  - exfalso.
    destruct (open_cell_is_interior maze Hwf _ _ Hin Hat Hw) as (Hp & _).
    destruct (Htn Hp) as [Hs [ms Hw']].
    rewrite Hec in He. inversion He. subst ec'.
    pose proof (Hfar ms (n_dir n) (n_cost n) Hs Hw'). lia.
  - destruct (open_cell_is_interior maze Hwf _ _ Hin Hat Hw) as (Hp & _).
    rewrite Hec in He. inversion He. subst ec'.
    split.
    + split; [exact Hb'|]. split; [|split].
      * simpl.
        eapply Permutation_Forall; [apply heappush3_perm|].
        constructor; [apply cb_child_traced; assumption|].
        constructor; [apply cb_child_traced; assumption|].
        constructor; [apply cb_child_traced; assumption|exact Htrest].
      * simpl. exists ec. split; [|exact HecB].
        rewrite dict_get_set_other; [exact Hec|].
        intros E. apply Hne. symmetry. exact E.
      * simpl. exact Hbest.
    + rewrite Hq. simpl cb_queue. unfold push_node.
      rewrite <- (list_sum_perm _ _
                    (Permutation_map (node_weight maze B)
                       (heappush3_perm n_cost n_seq rest _ _ _))).
      simpl map. simpl list_sum.
      assert (HcB : n_cost n <= B) by lia.
      pose proof (cb_child_weight n TurnLeft (cb_count st + 1) o
                    Hin Hat Hw HcB).
      pose proof (cb_child_weight n Forward (cb_count st + 1 + 1) o
                    Hin Hat Hw HcB).
      pose proof (cb_child_weight n TurnRight (cb_count st + 1 + 1 + 1) o
                    Hin Hat Hw HcB).
      pose proof (node_weight_pos
                    (cb_child M T n TurnLeft (cb_count st + 1))).
      lia.
Qed.

(** The loop runs until the frontier is empty and records no best path. *)
Lemma cb_loop_exhausts :
  forall k st,
    (cb_measure maze B st < k)%nat ->
    cb_inv maze end_position M T start_direction B st ->
    exists fuel st',
      cb_loop fuel maze end_position M T st = Returned st' /\
      cb_best_paths st' = [].
Proof.
  induction k as [|k IH]; intros st Hk Hinv; [lia|].
  pose proof (cb_iteration_case maze end_position M T st) as Hc.
  destruct (cb_iteration maze end_position M T st) as [st1|r] eqn:Hit.
  - destruct (cb_inv_step st st1 Hinv Hit) as [Hinv' Hlt].
    destruct (IH st1) as (fuel & st' & Hf & Hbest); [lia|exact Hinv'|].
    exists (S fuel), st'. simpl. rewrite Hit. split; assumption.
  - destruct Hinv as (Hb & Ht & (ec & Hec & HecB) & Hbest).
    inversion Hc as [Hq | n rest Hq Hat | | n rest o Hq Hat Hw He | | | |];
      subst.
    + exists 1%nat, st. simpl. rewrite Hit. split; [reflexivity|exact Hbest].
    + exfalso. eapply cb_bounded_in_range; eassumption.
    + congruence.
Qed.

End Capped.

(** ** After the loop of [count_best_path_tiles] *)

Lemma mark_row_nil (y : Z) (r : Ref) (n x : nat) (h : Heap) :
  mark_row [] y r n x h = h.
Proof.
  revert x h. induction n as [|n IH]; intros x h; simpl; [reflexivity|].
  apply IH.
Qed.

Lemma mark_rows_nil (rows : list Ref) (y : Z) (h : Heap) :
  mark_rows [] rows y h = h.
Proof.
  revert y h. induction rows as [|r rows IH]; intros y h; simpl;
    [reflexivity|].
  rewrite mark_row_nil. apply IH.
Qed.

(** On a well-formed grid, with non-negative weights that are not both
    zero, [count_best_path_tiles] returns 0 and leaves the store alone when
    every path from the start state to the end position costs more than the
    sentinel. *)
Lemma count_best_path_tiles_capped (h : Heap) (refs : MazeRef)
    (start_direction : Direction) (M T : Z) (end_position : Position) :
  well_formed (deref h refs) = true ->
  find_end_position (deref h refs) = Returned end_position ->
  0 <= M -> 0 <= T -> 1 <= M + T ->
  (forall ms c,
     path_to (deref h refs) M T (find_start_position (deref h refs))
       start_direction end_position ms c ->
     SENTINEL < c) ->
  exists fuel,
    forall fuel', (fuel <= fuel')%nat ->
      count_best_path_tiles fuel' h refs start_direction M T
      = (Returned 0, h).
Proof.
  intros Hwf Hend HM HT HMT Hfar.
  set (maze := deref h refs) in *.
  assert (Hfar' : forall ms e c,
            passable maze (find_start_position maze) = true ->
            walk maze M T (find_start_position maze) start_direction ms
            = Some (end_position, e, c) ->
            SENTINEL < c).
  { intros ms e c Hs Hw. apply (Hfar ms c). split; [exact Hs|].
    exists e. exact Hw. }
  assert (Hinv : cb_inv maze end_position M T start_direction SENTINEL
                   (cb_init (find_start_position maze) end_position
                      start_direction)).
  { split; [apply cb_bounded_init; exact Hwf|]. split; [|split].
    - unfold cb_traced, cb_init. simpl. constructor; [|constructor].
      simpl. apply traced_start.
    - exists SENTINEL. split; [|apply Z.le_refl].
      unfold cb_init. simpl. rewrite Position_eqb_refl. reflexivity.
    - reflexivity. }
  destruct (cb_loop_exhausts maze Hwf end_position M T HM HT HMT
              start_direction SENTINEL Hfar' _ _
              (Nat.lt_succ_diag_r _) Hinv)
    as (fuel & st' & Hloop & Hbest).
  exists fuel. intros fuel' Hle. unfold count_best_path_tiles, best_tiles.
  fold maze.
  rewrite Hend, (cb_loop_more_fuel maze end_position M T fuel fuel' _ Hle),
    Hloop, Hbest; [|rewrite Hloop; discriminate].
  unfold best_path_positions. simpl fold_left.
  rewrite mark_rows_nil. reflexivity.
Qed.

(** ** An end position that cannot be reached *)

(** When the loop of [min_cost_to_end] ends in the no-path error, the
    frontier has been emptied. *)
Lemma mc_loop_no_path_exhausted (maze : Maze) (end_position : Position)
    (M T : Z) :
  forall fuel st,
    mc_loop fuel maze end_position M T st = Raised (ValueError NoPathFound) ->
    exists n st',
      mc_run n maze end_position M T st = Some st' /\ mc_queue st' = [].
Proof.
  induction fuel as [|fuel IH]; intros st Hloop; simpl in Hloop;
    [discriminate|].
  pose proof (mc_iteration_case maze end_position M T st) as Hc.
  destruct (mc_iteration maze end_position M T st) as [st1|r] eqn:Hit.
  - destruct (IH st1 Hloop) as (n & st' & Hrun & Hq).
    exists (S n), st'. simpl. rewrite Hit. split; assumption.
  - subst r. inversion Hc as [Hq | | | | |]; subst.
    exists 0%nat, st. split; [reflexivity|exact Hq].
Qed.

(** C4 (amended): on a rectangular grid of at least 2 by 2 cells with walls
    all around, whose end position is not a wall and is the end of no path
    from the start state, [min_cost_to_end] runs until the frontier is empty
    and then raises its no-path [ValueError]; it returns no value. *)
Theorem unreachable_end_raises_no_path (maze : Maze)
    (start_direction : Direction) (M T : Z) (end_position : Position) :
  well_formed maze = true ->
  find_end_position maze = Returned end_position ->
  passable maze end_position = true ->
  (forall ms c,
     ~ path_to maze M T (find_start_position maze) start_direction
         end_position ms c) ->
  (exists fuel,
     forall fuel', (fuel <= fuel')%nat ->
       min_cost_to_end fuel' maze start_direction M T
       = Raised (ValueError NoPathFound)) /\
  (exists n st,
     mc_run n maze end_position M T
       (mc_init (find_start_position maze) start_direction) = Some st /\
     mc_queue st = []) /\
  (forall fuel c,
     min_cost_to_end fuel maze start_direction M T <> Returned c).
Proof.
  intros Hwf Hend Hpe Hno.
  destruct (mc_loop_exhausts maze Hwf end_position M T start_direction Hpe)
    with
      (k := S (mc_measure maze
                 (mc_init (find_start_position maze) start_direction)))
      (st := mc_init (find_start_position maze) start_direction)
    as [fuel Hf].
  { intros ms e c Hs Hw. apply (Hno ms c). split; [exact Hs|].
    exists e. exact Hw. }
  { apply Nat.lt_succ_diag_r. }
  { apply mc_inv_init. exact Hwf. }
  assert (Hmore : forall fuel', (fuel <= fuel')%nat ->
            min_cost_to_end fuel' maze start_direction M T
            = Raised (ValueError NoPathFound)).
  { intros fuel' Hle. unfold min_cost_to_end. rewrite Hend.
    rewrite (mc_loop_more_fuel maze end_position M T fuel fuel' _ Hle);
      [exact Hf|]. rewrite Hf. discriminate. }
  split; [exists fuel; exact Hmore|]. split.
  - eapply mc_loop_no_path_exhausted. exact Hf.
  - intros fuel' c Hret.
    destruct (Nat.le_ge_cases fuel fuel') as [Hle|Hge].
    + rewrite (Hmore fuel' Hle) in Hret. discriminate.
    + unfold min_cost_to_end in Hret. rewrite Hend in Hret.
      pose proof (mc_loop_more_fuel maze end_position M T fuel' fuel
                    (mc_init (find_start_position maze) start_direction)
                    Hge) as Hsame.
      rewrite Hret, Hf in Hsame.
      assert (Hne : Returned c <> @OutOfFuel Z) by discriminate.
      specialize (Hsame Hne). discriminate Hsame.
Qed.

Lemma maze4_unreachable (ms : list Move) (c : Z) :
  ~ path_to maze4 1 1000 (find_start_position maze4) EAST (mkPosition 3 1)
      ms c.
Proof.
  intros [_ [e Hw]].
  destruct (closed_table_lower_bound maze4 1 1000 table4 eq_refl
              ms (find_start_position maze4) EAST 0 _ e c eq_refl Hw)
    as [c' [Hg _]].
  destruct e; vm_compute in Hg; discriminate.
Qed.

Lemma unreachable_end_raises_no_path_witness :
  (exists fuel,
     forall fuel', (fuel <= fuel')%nat ->
       min_cost_to_end fuel' maze4 EAST 1 1000
       = Raised (ValueError NoPathFound)) /\
  (exists n st,
     mc_run n maze4 (mkPosition 3 1) 1 1000
       (mc_init (find_start_position maze4) EAST) = Some st /\
     mc_queue st = []) /\
  (forall fuel c, min_cost_to_end fuel maze4 EAST 1 1000 <> Returned c).
Proof.
  apply (unreachable_end_raises_no_path maze4 EAST 1 1000 (mkPosition 3 1)).
  - reflexivity.
  - reflexivity.
  - reflexivity.
  - exact maze4_unreachable.
Defined.

Lemma maze9_unreachable (ms : list Move) (c : Z) :
  ~ path_to maze9 1 1000 (find_start_position maze9) EAST (mkPosition 2 1)
      ms c.
Proof.
  intros [_ [e Hw]].
  destruct (closed_table_lower_bound maze9 1 1000 table9 eq_refl
              ms (find_start_position maze9) EAST 0 _ e c eq_refl Hw)
    as [c' [Hg _]].
  destruct e; vm_compute in Hg; discriminate.
Qed.

(** A walk that moves ends on a passable cell. *)
Lemma walk_end_passable (maze : Maze) (M T : Z) :
  forall ms p d q e c,
    walk maze M T p d ms = Some (q, e, c) ->
    ms = [] /\ q = p \/ passable maze q = true.
Proof.
  induction ms as [|m ms IH]; intros p d q e c Hw; simpl in Hw.
  - inversion Hw. left. split; reflexivity.
  - destruct (passable maze (advance (heading d m) p)) eqn:Hp; [|discriminate].
    destruct (walk maze M T (advance (heading d m) p) (heading d m) ms)
      as [[[q' e'] c']|] eqn:Hw'; [|discriminate].
    inversion Hw. subst q' e' c. clear Hw.
    destruct (IH _ _ _ _ _ Hw') as [[_ ->]|H]; right; assumption.
Qed.

Lemma maze1_closed_unreachable (ms : list Move) (c : Z) :
  ~ path_to maze1_closed 1 1000 (find_start_position maze1_closed) EAST
      (mkPosition 4 1) ms c.
Proof.
  intros [_ [e Hw]].
  destruct (walk_end_passable _ _ _ _ _ _ _ _ _ Hw) as [[_ H]|H];
    vm_compute in H; discriminate.
Qed.

(** C4, as stated, fails in three ways.  On [maze4] the end cell is walled
    off and [count_best_path_tiles] returns 0 where the claim has it raise.
    On [maze9], which has no wall at the bottom, the end cell is walled off
    and both functions raise [IndexError].  On [maze1_closed] the end
    position holds a wall, so no path ends there, and [min_cost_to_end]
    returns 4012. *)
Lemma searches_without_path_do_not_raise_no_path :
  (well_formed maze4 = true /\
   find_end_position maze4 = Returned (mkPosition 3 1) /\
   cell_at maze4 (mkPosition 3 1) = Some (OCell END) /\
   (forall ms c,
      ~ path_to maze4 1 1000 (find_start_position maze4) EAST
          (mkPosition 3 1) ms c) /\
   count_best_path_tiles 50 maze4 (refs_of maze4) EAST 1 1000
   = (Returned 0, maze4)) /\
  (is_rectangular maze9 = true /\
   find_end_position maze9 = Returned (mkPosition 2 1) /\
   cell_at maze9 (mkPosition 2 1) = Some (OCell END) /\
   (forall ms c,
      ~ path_to maze9 1 1000 (find_start_position maze9) EAST
          (mkPosition 2 1) ms c) /\
   min_cost_to_end 50 maze9 EAST 1 1000 = Raised IndexError /\
   count_best_path_tiles 50 maze9 (refs_of maze9) EAST 1 1000
   = (Raised IndexError, maze9)) /\
  (well_formed maze1_closed = true /\
   find_end_position maze1_closed = Returned (mkPosition 4 1) /\
   cell_at maze1_closed (mkPosition 4 1) = Some (OCell WALL) /\
   (forall ms c,
      ~ path_to maze1_closed 1 1000 (find_start_position maze1_closed) EAST
          (mkPosition 4 1) ms c) /\
   min_cost_to_end 100 maze1_closed EAST 1 1000 = Returned 4012).
Proof.
  split; [|split].
  - split; [reflexivity|]. split; [reflexivity|]. split; [reflexivity|].
    split; [exact maze4_unreachable|]. vm_compute. reflexivity.
  - split; [reflexivity|]. split; [reflexivity|]. split; [reflexivity|].
    split; [exact maze9_unreachable|]. split; vm_compute; reflexivity.
  - split; [reflexivity|]. split; [reflexivity|]. split; [reflexivity|].
    split; [exact maze1_closed_unreachable|]. vm_compute. reflexivity.
Qed.

(** ** The sentinel *)

Lemma cb_unreached_step (maze : Maze) (end_position : Position) (M T : Z)
    (st st' : CbState) :
  cb_unreached end_position st ->
  cb_iteration maze end_position M T st = Continue st' ->
  cb_unreached end_position st'.
Proof.
  unfold cb_unreached. intros Hu Hit.
  pose proof (cb_iteration_case maze end_position M T st) as Hc.
  rewrite Hit in Hc.
  inversion Hc; subst; simpl; try exact Hu.
  - intros Happ. apply app_eq_nil in Happ. destruct Happ as [_ Hn].
    discriminate Hn.
  - intros Hbest. rewrite dict_get_set_other; [auto|].
    intros E. symmetry in E. contradiction.
Qed.

Lemma cb_run_unreached (maze : Maze) (end_position : Position) (M T : Z)
    (k : nat) :
  forall st st',
    cb_unreached end_position st ->
    cb_run k maze end_position M T st = Some st' ->
    cb_unreached end_position st'.
Proof.
  induction k as [|k IH]; intros st st' Hu Hrun; simpl in Hrun.
  - inversion Hrun. subst. exact Hu.
  - destruct (cb_iteration maze end_position M T st) as [st1|r] eqn:Hit;
      [|discriminate].
    eapply IH; [|exact Hrun]. eapply cb_unreached_step; eassumption.
Qed.

(** A walk is free when neither moving nor turning costs anything. *)
Lemma walk_free (maze : Maze) :
  forall ms p d q e c, walk maze 0 0 p d ms = Some (q, e, c) -> c = 0.
Proof.
  induction ms as [|m ms IH]; intros p d q e c Hw; simpl in Hw.
  - inversion Hw. reflexivity.
  - destruct (passable maze (advance (heading d m) p)); [|discriminate].
    destruct (walk maze 0 0 (advance (heading d m) p) (heading d m) ms)
      as [[[q' e'] c']|] eqn:Hw'; [|discriminate].
    inversion Hw. subst. apply IH in Hw'. subst c'. destruct m; reflexivity.
Qed.

(** A popped entry that costs more than the end position's recorded cost is
    dropped: nothing is recorded and nothing is pushed. *)
Lemma cb_prunes_beyond (maze : Maze) (end_position : Position) (M T : Z)
    (st : CbState) (n : Node) (rest : list Node) (end_cost : Z) :
  well_formed maze = true -> cb_bounded maze st ->
  cb_queue st = n :: rest ->
  dict_get (cb_min_cost st) end_position = Some end_cost ->
  end_cost < n_cost n ->
  cb_iteration maze end_position M T st = Continue (cb_skip st rest).
Proof.
  intros Hwf Hb Hq He Hlt.
  pose proof (cb_bounded_in_range maze Hwf end_position M T st Hb) as Hrange.
  pose proof (cb_iteration_case maze end_position M T st) as Hc.
  inversion Hc as [Hq' H
                  | n' rest' Hq' Hat H
                  | n' rest' o Hq' Hat Hw H
                  | n' rest' o Hq' Hat Hw He' H
                  | n' rest' o ec' Hq' Hat Hw He' Hlt' H
                  | n' rest' o ec' c Hq' Hat Hw He' Hle Hp Hlt' H
                  | n' rest' o ec' Hq' Hat Hw He' Hle Hend H
                  | n' rest' o ec' Hq' Hat Hw He' Hle Hne H];
    rewrite Hq in Hq'; try discriminate Hq';
    inversion Hq'; subst n' rest'; try reflexivity.
  - symmetry in H. contradiction.
  - congruence.
  - rewrite He in He'. inversion He'. subst ec'. lia.
  - rewrite He in He'. inversion He'. subst ec'. lia.
Qed.

(** C10 (amended): [count_best_path_tiles] starts with 999999999 as the
    recorded cost of the end position.  On a rectangular grid of at least 2
    by 2 cells with walls all around, at every point of the run a popped
    entry that costs more than the end position's recorded cost is dropped,
    and so is one that costs more than 999999999 as long as no entry at the
    end position has been accepted; and when the end position can be reached
    and every path to it from the start state costs more than 999999999, the
    weights being non-negative, the function returns 0 and marks no cell. *)
Theorem sentinel_caps_best_path_search (h : Heap) (refs : MazeRef)
    (start_direction : Direction) (M T : Z) (end_position : Position) :
  well_formed (deref h refs) = true ->
  find_end_position (deref h refs) = Returned end_position ->
  dict_get
    (cb_min_cost (cb_init (find_start_position (deref h refs)) end_position
                    start_direction))
    end_position = Some 999999999 /\
  (forall k st n rest,
     cb_run k (deref h refs) end_position M T
       (cb_init (find_start_position (deref h refs)) end_position
          start_direction) = Some st ->
     cb_queue st = n :: rest ->
     (forall end_cost,
        dict_get (cb_min_cost st) end_position = Some end_cost ->
        end_cost < n_cost n ->
        cb_iteration (deref h refs) end_position M T st
        = Continue (cb_skip st rest)) /\
     (cb_best_paths st = [] -> 999999999 < n_cost n ->
      cb_iteration (deref h refs) end_position M T st
      = Continue (cb_skip st rest))) /\
  (0 <= M -> 0 <= T ->
   (exists ms c,
      path_to (deref h refs) M T (find_start_position (deref h refs))
        start_direction end_position ms c) ->
   (forall ms c,
      path_to (deref h refs) M T (find_start_position (deref h refs))
        start_direction end_position ms c ->
      999999999 < c) ->
   exists fuel,
     forall fuel', (fuel <= fuel')%nat ->
       count_best_path_tiles fuel' h refs start_direction M T
       = (Returned 0, h)).
Proof.
  intros Hwf Hend. split; [|split].
  - unfold cb_init. simpl. rewrite Position_eqb_refl. reflexivity.
  - intros k st n rest Hrun Hq.
    assert (Hb : cb_bounded (deref h refs) st).
    { eapply cb_run_bounded; [exact Hwf| |exact Hrun].
      apply cb_bounded_init. exact Hwf. }
    assert (Hu : cb_unreached end_position st).
    { eapply cb_run_unreached; [|exact Hrun].
      intros _. unfold cb_init. simpl. rewrite Position_eqb_refl.
      reflexivity. }
    split.
    + intros end_cost He Hlt.
      eapply cb_prunes_beyond; eassumption.
    + intros Hbest Hlt.
      eapply cb_prunes_beyond; try eassumption. apply Hu. exact Hbest.
  - intros HM HT (ms & c & Hpath) Hfar.
    assert (HMT : 1 <= M + T).
    { destruct (Z_lt_le_dec (M + T) 1) as [Hlt|Hle]; [|exact Hle].
      assert (M = 0) by lia. assert (T = 0) by lia. subst M T.
      pose proof (Hfar ms c Hpath) as Hc.
      destruct Hpath as [_ [e Hw]]. apply walk_free in Hw. lia. }
    apply (count_best_path_tiles_capped h refs start_direction M T
             end_position Hwf Hend HM HT HMT Hfar).
Qed.

Lemma maze1_dear_turns (ms : list Move) (c : Z) :
  path_to maze1 1 1000000000 (find_start_position maze1) EAST end1 ms c ->
  999999999 < c.
Proof.
  intros [_ [e Hw]].
  destruct (closed_table_lower_bound maze1 1 1000000000 table1_dear eq_refl
              ms start1 EAST 0 end1 e c eq_refl Hw) as [c' [Hg Hle]].
  destruct e; vm_compute in Hg; inversion Hg; subst; lia.
Qed.

Lemma sentinel_caps_best_path_search_witness :
  path_to maze1 1 1000000000 (find_start_position maze1) EAST end1
    best_route1 4000000008 /\
  exists fuel,
    forall fuel', (fuel <= fuel')%nat ->
      count_best_path_tiles fuel' heap1 refs1 EAST 1 1000000000
      = (Returned 0, heap1).
Proof.
  split.
  - split; [reflexivity|]. exists EAST. vm_compute. reflexivity.
  - destruct (sentinel_caps_best_path_search heap1 refs1 EAST 1 1000000000
                end1 eq_refl eq_refl) as (_ & _ & H).
    apply H; [lia|lia| |exact maze1_dear_turns].
    exists best_route1, 4000000008. split; [reflexivity|].
    exists EAST. vm_compute. reflexivity.
Defined.

Lemma maze8_dear_turns (ms : list Move) (c : Z) :
  path_to maze8 1 1000000000 (find_start_position maze8) EAST
    (mkPosition 1 1) ms c ->
  999999999 < c.
Proof.
  intros [_ [e Hw]].
  destruct (closed_table_lower_bound maze8 1 1000000000 table8 eq_refl
              ms (find_start_position maze8) EAST 0 _ e c eq_refl Hw)
    as [c' [Hg Hle]].
  destruct e; vm_compute in Hg; inversion Hg; subst; lia.
Qed.

(** C10, as stated, fails on a grid without walls around it: on [maze8],
    with turn cost 1000000000, every path from the start state to the end
    position costs more than 999999999 (the cheapest one 1000000001), and
    [count_best_path_tiles] raises [IndexError] where the claim has it
    return 0. *)
Lemma count_best_path_tiles_raises_off_grid :
  is_rectangular maze8 = true /\
  find_end_position maze8 = Returned (mkPosition 1 1) /\
  path_to maze8 1 1000000000 (find_start_position maze8) EAST
    (mkPosition 1 1) [TurnRight] 1000000001 /\
  (forall ms c,
     path_to maze8 1 1000000000 (find_start_position maze8) EAST
       (mkPosition 1 1) ms c ->
     999999999 < c) /\
  count_best_path_tiles 10 maze8 (refs_of maze8) EAST 1 1000000000
  = (Raised IndexError, maze8).
Proof.
  split; [reflexivity|]. split; [reflexivity|]. split.
  - split; [reflexivity|]. exists SOUTH. vm_compute. reflexivity.
  - split; [exact maze8_dear_turns|]. vm_compute. reflexivity.
Qed.

Lemma frontier_within_bounds_witness :
  (forall st,
     mc_run 20 maze1 end1 1 1000 (mc_init (find_start_position maze1) EAST)
     = Some st ->
     Forall (fun e => is_within_bounds maze1 (s_pos e) = Returned true)
            (mc_queue st) /\
     mc_iteration maze1 end1 1 1000 st <> Break (Raised IndexError)) /\
  (forall st,
     cb_run 20 maze1 end1 1 1000
       (cb_init (find_start_position maze1) end1 EAST) = Some st ->
     Forall (fun e => is_within_bounds maze1 (n_pos e) = Returned true)
            (cb_queue st) /\
     cb_iteration maze1 end1 1 1000 st <> Break (Raised IndexError)).
Proof.
  apply (frontier_within_bounds_of_walled_grid maze1 end1 1 1000 EAST 20).
  reflexivity.
Defined.

(** C8, as stated, fails on a grid without walls around it: on [maze8] the
    first iteration of [min_cost_to_end] pushes the position (1, -1), which
    [is_within_bounds] rejects, and the third one indexes the grid out of
    range. *)
Lemma search_pushes_position_off_grid :
  is_rectangular maze8 = true /\
  (exists st,
     mc_run 1 maze8 (mkPosition 1 1) 1 1000
       (mc_init (find_start_position maze8) EAST) = Some st /\
     In (mkStep 1001 1 (mkPosition 1 (-1)) NORTH) (mc_queue st)) /\
  is_within_bounds maze8 (mkPosition 1 (-1)) = Returned false /\
  min_cost_to_end 10 maze8 EAST 1 1000 = Raised IndexError.
Proof.
  split; [reflexivity|]. split.
  - eexists. split; [vm_compute; reflexivity|]. simpl. tauto.
  - split; vm_compute; reflexivity.
Qed.

(** ** Finding the start and the end *)

(** C6 (amended): [find_start_position] returns the position (1, number of
    rows - 2) and [find_end_position] the position (length of the first row
    - 2, 1), or raises [IndexError] when there is no row; the cells are not
    read, so two mazes whose rows have the same lengths give the same
    answers, and no error reports a missing cell. *)
Theorem find_positions_depend_on_shape_only (maze maze' : Maze) :
  map (@List.length Obj) maze = map (@List.length Obj) maze' ->
  find_start_position maze = mkPosition 1 (len maze - 2) /\
  find_end_position maze
  = match maze with
    | [] => Raised IndexError
    | row0 :: _ => Returned (mkPosition (len row0 - 2) 1)
    end /\
  find_start_position maze' = find_start_position maze /\
  find_end_position maze' = find_end_position maze.
Proof.
  intros Hshape.
  assert (Hend : forall m : Maze,
            find_end_position m
            = match m with
              | [] => Raised IndexError
              | row0 :: _ => Returned (mkPosition (len row0 - 2) 1)
              end).
  { intros [|row0 rest]; [reflexivity|].
    unfold find_end_position. rewrite py_index_front; [reflexivity|].
    unfold len. simpl. lia. }
  split; [reflexivity|]. split; [apply Hend|]. split.
  - unfold find_start_position, len.
    rewrite <- (length_map (@List.length Obj) maze'), <- Hshape, length_map.
    reflexivity.
  - rewrite !Hend. destruct maze as [|r rest], maze' as [|r' rest'];
      simpl in Hshape; try discriminate; [reflexivity|].
    injection Hshape as Hr _. unfold len. rewrite Hr. reflexivity.
Qed.

Lemma find_positions_depend_on_shape_only_witness :
  find_start_position maze6 = mkPosition 1 2 /\
  find_end_position maze6 = Returned (mkPosition 3 1) /\
  find_start_position maze6_walls = find_start_position maze6 /\
  find_end_position maze6_walls = find_end_position maze6.
Proof.
  apply (find_positions_depend_on_shape_only maze6 maze6_walls).
  reflexivity.
Defined.

(** C6, as stated, fails: the first start cell of [maze6] in row-major order
    is at (1, 1), and [find_start_position] returns (1, 2), an empty cell;
    [maze_blank] has neither a start nor an end cell, and both functions
    return a position for it. *)
Lemma find_start_position_is_not_a_search :
  spec_find START maze6 = Some (mkPosition 1 1) /\
  find_start_position maze6 = mkPosition 1 2 /\
  cell_at maze6 (mkPosition 1 2) = Some (OCell EMPTY) /\
  spec_find START maze_blank = None /\
  find_start_position maze_blank = mkPosition 1 1 /\
  spec_find END maze_blank = None /\
  find_end_position maze_blank = Returned (mkPosition 1 1).
Proof. repeat split; vm_compute; reflexivity. Qed.

(** ** Reading the maze *)

Lemma interpret_char_as_cell_spec (c : char) :
  interpret_char_as_cell c
  = if recognized c then Returned (cell_of_char c)
    else Raised (ValueError (UnknownCellCharacter c)).
Proof.
  unfold interpret_char_as_cell, recognized, cell_of_char. simpl Cell_value.
  destruct (c =? 83)%N; [reflexivity|].
  destruct (c =? 69)%N; [reflexivity|].
  destruct (c =? 46)%N; [reflexivity|].
  destruct (c =? 35)%N; reflexivity.
Qed.

Lemma interpret_row_spec (s : list char) :
  interpret_row s
  = match find (fun c => negb (recognized c)) s with
    | None => Returned (map (fun c => OCell (cell_of_char c)) s)
    | Some c => Raised (ValueError (UnknownCellCharacter c))
    end.
Proof.
  induction s as [|c s IH]; simpl; [reflexivity|].
  rewrite interpret_char_as_cell_spec.
  destruct (recognized c); simpl; [|reflexivity].
  rewrite IH. destruct (find (fun c => negb (recognized c)) s); reflexivity.
Qed.

Lemma find_app {A : Type} (f : A -> bool) (l l' : list A) :
  find f (l ++ l')
  = match find f l with
    | Some a => Some a
    | None => find f l'
    end.
Proof.
  induction l as [|a l IH]; simpl; [reflexivity|].
  destruct (f a); [reflexivity|exact IH].
Qed.

(** C7 (amended): [read_maze] raises [ValueError] exactly when some line,
    once leading and trailing whitespace is stripped, holds a character
    other than S, E, . and #, and the error names the first such character;
    otherwise it returns the rows of cells of the stripped lines, whatever
    their lengths. *)
Theorem read_maze_outcome (lines : list (list char)) :
  read_maze lines
  = match first_unknown lines with
    | Some c => Raised (ValueError (UnknownCellCharacter c))
    | None =>
        Returned (map (fun line => map (fun c => OCell (cell_of_char c))
                                       (strip line))
                      lines)
    end.
Proof.
  unfold first_unknown. induction lines as [|line lines IH]; simpl;
    [reflexivity|].
  rewrite interpret_row_spec, find_app.
  destruct (find (fun c => negb (recognized c)) (strip line));
    [reflexivity|].
  rewrite IH.
  destruct (find (fun c => negb (recognized c))
                 (List.concat (map strip lines)));
    reflexivity.
Qed.

(** C7, as stated, fails: rows of lengths 3 and 2 are loaded, and so is a
    line that ends with a line feed, a character that is no cell
    character. *)
Lemma read_maze_accepts_ragged_rows :
  read_maze [line_of "#S#"; line_of "#E"]
  = Returned [[OCell WALL; OCell START; OCell WALL]; [OCell WALL; OCell END]] /\
  read_maze [line_of "#S#" ++ [10%N]]
  = Returned [[OCell WALL; OCell START; OCell WALL]] /\
  recognized 10%N = false.
Proof. repeat split; vm_compute; reflexivity. Qed.

(** * Further properties of the code *)

(** ** Directions *)

(** X1: the two turns undo each other, four turns in the same sense come
    back to the direction they started from, and a turn never keeps the
    direction nor reverses it. *)
Theorem turns_are_quarter_rotations (d : Direction) :
  turn_counter_clockwise (turn_clockwise d) = d /\
  turn_clockwise (turn_counter_clockwise d) = d /\
  turn_clockwise (turn_clockwise (turn_clockwise (turn_clockwise d))) = d /\
  turn_counter_clockwise
    (turn_counter_clockwise
       (turn_counter_clockwise (turn_counter_clockwise d))) = d /\
  turn_clockwise (turn_clockwise d)
  = turn_counter_clockwise (turn_counter_clockwise d) /\
  turn_clockwise d <> d /\ turn_counter_clockwise d <> d /\
  turn_clockwise d <> turn_counter_clockwise d.
Proof. destruct d; repeat split; simpl; congruence. Qed.

(** X2: [advance] moves to one of the four neighbours (exactly one
    coordinate changes, by one), different directions lead to different
    neighbours, and advancing in the opposite direction comes back. *)
Theorem advance_steps_to_a_neighbour (d e : Direction) (p : Position) :
  Z.abs (px (advance d p) - px p) + Z.abs (py (advance d p) - py p) = 1 /\
  advance (reverse d) (advance d p) = p /\
  (advance d p = advance e p <-> d = e).
Proof.
  destruct p as [x y]. split; [|split].
  - destruct d; simpl; lia.
  - destruct d; unfold advance; simpl; f_equal; lia.
  - split; [|intros ->; reflexivity].
    destruct d, e; simpl; intros H; try reflexivity; inversion H;
      exfalso; lia.
Qed.

(** ** Characters and cells *)

(** X3: [interpret_char_as_cell] inverts [Cell.value]: it returns a cell
    exactly for the character that is the value of that cell, and raises
    [ValueError] naming the character otherwise. *)
Theorem interpret_char_as_cell_inverts_value (c : char) (cell : Cell) :
  interpret_char_as_cell (Cell_value cell) = Returned cell /\
  (interpret_char_as_cell c = Returned cell <-> c = Cell_value cell) /\
  ((forall k, c <> Cell_value k) <->
   interpret_char_as_cell c = Raised (ValueError (UnknownCellCharacter c))).
Proof.
  split; [destruct cell; reflexivity|]. split.
  - split.
    + unfold interpret_char_as_cell.
      destruct (c =? Cell_value START)%N eqn:E1;
        [apply N.eqb_eq in E1; intros H; inversion H; subst; reflexivity|].
      destruct (c =? Cell_value END)%N eqn:E2;
        [apply N.eqb_eq in E2; intros H; inversion H; subst; reflexivity|].
      destruct (c =? Cell_value EMPTY)%N eqn:E3;
        [apply N.eqb_eq in E3; intros H; inversion H; subst; reflexivity|].
      destruct (c =? Cell_value WALL)%N eqn:E4;
        [apply N.eqb_eq in E4; intros H; inversion H; subst; reflexivity|].
      discriminate.
    + intros ->. destruct cell; reflexivity.
  - unfold interpret_char_as_cell. split.
    + intros H.
      destruct (c =? Cell_value START)%N eqn:E1;
        [apply N.eqb_eq in E1; destruct (H START E1)|].
      destruct (c =? Cell_value END)%N eqn:E2;
        [apply N.eqb_eq in E2; destruct (H END E2)|].
      destruct (c =? Cell_value EMPTY)%N eqn:E3;
        [apply N.eqb_eq in E3; destruct (H EMPTY E3)|].
      destruct (c =? Cell_value WALL)%N eqn:E4;
        [apply N.eqb_eq in E4; destruct (H WALL E4)|].
      reflexivity.
    + intros H k ->. destruct k; discriminate H.
Qed.

(** ** Printing and reading back *)

Lemma Cell_value_not_space (c : Cell) : isspace (Cell_value c) = false.
Proof. destruct c; reflexivity. Qed.

Lemma lstrip_nonspace (s : list char) :
  Forall (fun c => isspace c = false) s -> lstrip s = s.
Proof.
  intros H. destruct s as [|c s]; [reflexivity|].
  inversion H as [|? ? Hc _]; subst. simpl. rewrite Hc. reflexivity.
Qed.

Lemma strip_before_newline (s : list char) :
  Forall (fun c => isspace c = false) s -> strip (s ++ [newline]) = s.
Proof.
  intros H. unfold strip. destruct s as [|c s]; [reflexivity|].
  assert (Hc : isspace c = false) by (inversion H; assumption).
  simpl app. simpl lstrip at 2. rewrite Hc.
  change (rev (c :: s ++ [newline])) with (rev (s ++ [newline]) ++ [c]).
  rewrite rev_app_distr. simpl rev at 2. simpl app.
  change (lstrip (newline :: rev s ++ [c])) with (lstrip (rev (c :: s))).
  rewrite lstrip_nonspace; [apply rev_involutive|].
  apply Forall_rev. exact H.
Qed.

Lemma interpret_row_values (cells : list Cell) :
  interpret_row (map Cell_value cells) = Returned (map OCell cells).
Proof.
  induction cells as [|c cells IH]; simpl; [reflexivity|].
  rewrite IH. destruct c; reflexivity.
Qed.

Lemma Obj_str_cells (cells : list Cell) :
  flat_map Obj_str (map OCell cells) = map Cell_value cells.
Proof.
  induction cells as [|c cells IH]; simpl; [reflexivity|].
  rewrite IH. reflexivity.
Qed.

(** X4: reading back the lines that [print_maze] writes for a maze of cells
    gives that maze again, whatever the lengths of its rows. *)
Theorem read_maze_reads_back_print_maze (rows : list (list Cell)) :
  print_maze (map (map OCell) rows)
  = List.concat (map print_row (map (map OCell) rows)) /\
  read_maze (map print_row (map (map OCell) rows))
  = Returned (map (map OCell) rows).
Proof.
  split; [unfold print_maze; apply flat_map_concat_map|].
  induction rows as [|row rows IH]; simpl; [reflexivity|].
  rewrite IH. unfold print_row at 1. rewrite Obj_str_cells.
  rewrite strip_before_newline.
  - rewrite interpret_row_values. reflexivity.
  - apply Forall_forall. intros c Hc. apply in_map_iff in Hc.
    destruct Hc as [k [<- _]]. apply Cell_value_not_space.
Qed.

Lemma interpret_char_value (c : char) (cell : Cell) :
  interpret_char_as_cell c = Returned cell -> Cell_value cell = c.
Proof.
  rewrite interpret_char_as_cell_spec. unfold recognized, cell_of_char.
  destruct (c =? 83)%N eqn:E1; simpl.
  { apply N.eqb_eq in E1. intros H. inversion H. subst. reflexivity. }
  destruct (c =? 69)%N eqn:E2; simpl.
  { apply N.eqb_eq in E2. intros H. inversion H. subst. reflexivity. }
  destruct (c =? 46)%N eqn:E3; simpl.
  { apply N.eqb_eq in E3. intros H. inversion H. subst. reflexivity. }
  destruct (c =? 35)%N eqn:E4; simpl; [|discriminate].
  apply N.eqb_eq in E4. intros H. inversion H. subst. reflexivity.
Qed.

Lemma interpret_row_prints_back (s : list char) (row : list Obj) :
  interpret_row s = Returned row -> flat_map Obj_str row = s.
Proof.
  revert row. induction s as [|c s IH]; intros row H; simpl in H.
  - inversion H. reflexivity.
  - destruct (interpret_char_as_cell c) as [cell| |] eqn:Hc;
      try discriminate.
    destruct (interpret_row s) as [row'| |] eqn:Hr; try discriminate.
    inversion H. subst row. simpl.
    rewrite (interpret_char_value _ _ Hc), (IH row' eq_refl). reflexivity.
Qed.

(** X5: when [read_maze] succeeds, [print_maze] of its result writes the
    lines read, each without its leading and trailing whitespace and ended
    by a line feed. *)
Theorem print_maze_prints_back_read_maze (lines : list (list char))
    (maze : Maze) :
  read_maze lines = Returned maze ->
  print_maze maze
  = List.concat (map (fun line => strip line ++ [newline]) lines).
Proof.
  revert maze. induction lines as [|line lines IH]; intros maze H;
    simpl in H.
  - inversion H. reflexivity.
  - destruct (interpret_row (strip line)) as [row| |] eqn:Hrow;
      try discriminate.
    destruct (read_maze lines) as [maze'| |] eqn:Hm; try discriminate.
    inversion H. subst maze. simpl. unfold print_row at 1.
    rewrite (interpret_row_prints_back _ _ Hrow), (IH maze' eq_refl).
    reflexivity.
Qed.

Lemma print_maze_prints_back_read_maze_witness :
  print_maze maze4
  = List.concat
      (map (fun line => strip line ++ [newline])
           (map line_of ["#####"; "#.#E#"; "#.###"; "#S..#"; "#####"]%string)).
Proof.
  apply (print_maze_prints_back_read_maze
           (map line_of ["#####"; "#.#E#"; "#.###"; "#S..#"; "#####"]%string)
           maze4).
  reflexivity.
Defined.

(** ** Whitespace around a line *)

Lemma lstrip_spaces_app (a s : list char) :
  forallb isspace a = true -> lstrip (a ++ s) = lstrip s.
Proof.
  induction a as [|c a IH]; simpl; [reflexivity|].
  intros H. apply andb_true_iff in H. destruct H as [Hc Ha].
  rewrite Hc. apply IH. exact Ha.
Qed.

Lemma lstrip_app_spaces (s b : list char) :
  forallb isspace b = true ->
  lstrip (s ++ b) = match lstrip s with [] => [] | t => t ++ b end.
Proof.
  intros Hb. induction s as [|c s IH]; simpl.
  - rewrite <- (app_nil_r b) at 1. rewrite lstrip_spaces_app; auto.
  - destruct (isspace c); [exact IH|reflexivity].
Qed.

Lemma strip_padded (a s b : list char) :
  forallb isspace a = true -> forallb isspace b = true ->
  strip (a ++ s ++ b) = strip s.
Proof.
  intros Ha Hb. unfold strip.
  rewrite lstrip_spaces_app by exact Ha.
  rewrite lstrip_app_spaces by exact Hb.
  destruct (lstrip s) as [|c t] eqn:E; [reflexivity|].
  rewrite rev_app_distr, lstrip_spaces_app; [reflexivity|].
  rewrite forallb_forall in *. intros x Hx. apply Hb.
  apply in_rev. exact Hx.
Qed.

(** X6: whitespace before and after a line (indentation, trailing blanks,
    the line feed) does not change what [read_maze] returns or raises. *)
Theorem read_maze_ignores_padding
    (lines : list (list char * list char * list char)) :
  forallb padding_is_space lines = true ->
  read_maze (map padded lines) = read_maze (map unpadded lines).
Proof.
  induction lines as [|[[a s] b] lines IH]; simpl; [reflexivity|].
  intros H. apply andb_true_iff in H. destruct H as [Hp Hl].
  apply andb_true_iff in Hp. destruct Hp as [Ha Hb].
  rewrite (strip_padded a s b Ha Hb), (IH Hl). reflexivity.
Qed.

Lemma read_maze_ignores_padding_witness :
  read_maze [line_of "  #S# " ++ [newline]; 9%N :: line_of "#E#"]
  = read_maze [line_of "#S#"; line_of "#E#"].
Proof.
  apply (read_maze_ignores_padding
           [(line_of "  ", line_of "#S#", line_of " " ++ [newline]);
            ([9%N], line_of "#E#", [])]).
  reflexivity.
Defined.

(** ** Bounds *)

Lemma rectangular_row_length (maze : Maze) (row : list Obj) :
  is_rectangular maze = true -> In row maze -> len row = width maze.
Proof.
  unfold is_rectangular. rewrite forallb_forall. intros H Hin.
  apply Z.eqb_eq. apply H. exact Hin.
Qed.

(** X7: on a rectangular maze [is_within_bounds] answers [True] exactly for
    the positions that hold a cell, and there indexing the maze reads that
    cell; on a maze without rows it raises [IndexError], unless the x
    coordinate is negative, for which it answers [False]. *)
Theorem is_within_bounds_tells_cells (maze : Maze) (p : Position) :
  is_rectangular maze = true ->
  (is_within_bounds maze p = Returned true <->
   exists o, cell_at maze p = Some o) /\
  (forall o, cell_at maze p = Some o -> maze_at maze p = Some o) /\
  (maze = [] ->
   is_within_bounds maze p
   = if 0 <=? px p then Raised IndexError else Returned false).
Proof.
  intros Hrect. split; [|split].
  - unfold is_within_bounds, cell_at. destruct maze as [|row0 rest] eqn:Em.
    + destruct (0 <=? px p); simpl.
      * split; [discriminate|]. intros [o Ho].
        destruct (0 <=? py p); simpl in Ho;
          [destruct (Z.to_nat (py p)); discriminate|discriminate].
      * split; [discriminate|]. intros [o Ho]. discriminate.
    + rewrite <- Em in *. rewrite py_index_front
        by (rewrite Em; unfold len; simpl; lia).
      replace (nth_error maze (Z.to_nat 0)) with (Some row0)
        by (rewrite Em; reflexivity).
      assert (Hw : width maze = len row0) by (rewrite Em; reflexivity).
      destruct (0 <=? px p) eqn:Hx; simpl.
      * apply Z.leb_le in Hx.
        destruct (0 <=? py p) eqn:Hy; simpl.
        -- apply Z.leb_le in Hy. split.
           ++ intros H. inversion H as [H1]. clear H.
              apply andb_true_iff in H1. destruct H1 as [Hlt Hlt'].
              apply Z.ltb_lt in Hlt. apply Z.ltb_lt in Hlt'.
              destruct (nth_error_front maze (py p)) as [row Hrow]; [lia|].
              rewrite Hrow.
              pose proof (rectangular_row_length maze row Hrect
                            (nth_error_In _ _ Hrow)) as Hlen.
              apply (nth_error_front row (px p)). lia.
           ++ intros [o Ho].
              destruct (nth_error maze (Z.to_nat (py p))) as [row|] eqn:Hrow;
                [|discriminate].
              pose proof (rectangular_row_length maze row Hrect
                            (nth_error_In _ _ Hrow)) as Hlen.
              assert (Hy' : (Z.to_nat (py p) < List.length maze)%nat).
              { apply nth_error_Some. congruence. }
              assert (Hx' : (Z.to_nat (px p) < List.length row)%nat).
              { apply nth_error_Some. congruence. }
              f_equal. apply andb_true_iff. unfold len in *.
              split; apply Z.ltb_lt; lia.
        -- split.
           ++ intros H. inversion H as [H1].
              try rewrite andb_false_r in H1. discriminate.
           ++ intros [o Ho]. discriminate.
      * split; [discriminate|]. intros [o Ho]. discriminate.
  - intros o. unfold cell_at, maze_at.
    destruct ((0 <=? px p) && (0 <=? py p)) eqn:E; [|discriminate].
    apply andb_true_iff in E. destruct E as [Hx Hy].
    apply Z.leb_le in Hx. apply Z.leb_le in Hy.
    destruct (nth_error maze (Z.to_nat (py p))) as [row|] eqn:Hrow;
      [|discriminate].
    intros Ho.
    assert (Hy' : (Z.to_nat (py p) < List.length maze)%nat).
    { apply nth_error_Some. congruence. }
    assert (Hx' : (Z.to_nat (px p) < List.length row)%nat).
    { apply nth_error_Some. congruence. }
    rewrite py_index_front by (unfold len; lia). rewrite Hrow.
    rewrite py_index_front by (unfold len; lia). exact Ho.
  - intros ->. reflexivity.
Qed.

Lemma is_within_bounds_tells_cells_witness :
  (is_within_bounds maze1 (mkPosition 6 1) = Returned true <->
   exists o, cell_at maze1 (mkPosition 6 1) = Some o) /\
  (forall o,
     cell_at maze1 (mkPosition 6 1) = Some o ->
     maze_at maze1 (mkPosition 6 1) = Some o) /\
  (maze1 = [] ->
   is_within_bounds maze1 (mkPosition 6 1)
   = if 0 <=? px (mkPosition 6 1) then Raised IndexError else Returned false).
Proof.
  apply (is_within_bounds_tells_cells maze1 (mkPosition 6 1)). reflexivity.
Defined.

(** ** The counter *)

(** X8: the calls of a counter made by [create_counter(start)] return
    [start], [start + 1], [start + 2], ... in this order. *)
Theorem counter_counts_from_start (start : Z) (n : nat) :
  fst (count_calls n (create_counter start))
  = map (fun k => start + Z.of_nat k) (seq 0 n) /\
  snd (count_calls n (create_counter start)) = start + Z.of_nat n - 1.
Proof.
  assert (H : forall n counter,
            fst (count_calls n counter)
            = map (fun k => counter + 1 + Z.of_nat k) (seq 0 n) /\
            snd (count_calls n counter) = counter + Z.of_nat n).
  { clear. induction n as [|n IH]; intros counter;
      [simpl; split; [reflexivity|lia]|].
    cbn [count_calls increment].
    destruct (count_calls n (counter + 1)) as [vs c'] eqn:E.
    specialize (IH (counter + 1)). rewrite E in IH. simpl in IH.
    destruct IH as [Hv Hc]. cbn [fst snd]. split; [|lia].
    cbn [seq map]. f_equal; [lia|].
    rewrite Hv, <- seq_shift, map_map. apply map_ext. intros k. lia. }
  unfold create_counter. destruct (H n (start - 1)) as [Hv Hc].
  split; [|lia]. rewrite Hv. apply map_ext. intros k. lia.
Qed.

(** ** Sequence numbers *)

(** X9: at every point of either search the sequence numbers of the entries
    on the frontier are pairwise different, so two entries never agree on
    (cost, sequence number) and the heap never has to compare positions or
    directions. *)
Theorem frontier_sequence_numbers_differ (maze : Maze)
    (end_position : Position) (M T : Z) (p : Position) (d : Direction)
    (k : nat) :
  (forall st,
     mc_run k maze end_position M T (mc_init p d) = Some st ->
     NoDup (map s_seq (mc_queue st))) /\
  (forall st,
     cb_run k maze end_position M T (cb_init p end_position d) = Some st ->
     NoDup (map n_seq (cb_queue st))).
Proof.
  split; intros st Hrun.
  - apply (mc_run_seqs_fresh maze end_position M T p d k st Hrun).
  - apply (cb_run_seqs_fresh maze end_position M T p d k st Hrun).
Qed.

(** ** [min_cost_to_end] always finishes on a well-formed grid *)

Lemma all_positions_length (w h : nat) :
  List.length (all_positions w h) = (h * w)%nat.
Proof.
  unfold all_positions. generalize 0%nat at 2.
  induction h as [|h IH]; intros s; simpl; [reflexivity|].
  rewrite length_app, length_map, length_seq, IH. reflexivity.
Qed.

Lemma mc_loop_outcomes (maze : Maze) (end_position : Position) (M T : Z) :
  forall fuel st,
    mc_loop fuel maze end_position M T st = OutOfFuel \/
    (exists c, mc_loop fuel maze end_position M T st = Returned c) \/
    mc_loop fuel maze end_position M T st = Raised (ValueError NoPathFound) \/
    mc_loop fuel maze end_position M T st = Raised IndexError.
Proof.
  induction fuel as [|fuel IH]; intros st; simpl; [left; reflexivity|].
  pose proof (mc_iteration_case maze end_position M T st) as Hc.
  destruct (mc_iteration maze end_position M T st) as [st'|r]; [apply IH|].
  inversion Hc; subst; eauto.
Qed.

Section McTotal.

Variable maze : Maze.
Hypothesis Hwf : well_formed maze = true.
Variable end_position : Position.
Variables M T : Z.
Variable start_direction : Direction.

Lemma mc_loop_in_range :
  forall fuel st,
    mc_inv maze M T start_direction st ->
    mc_loop fuel maze end_position M T st <> Raised IndexError.
Proof.
  induction fuel as [|fuel IH]; intros st Hinv; simpl; [discriminate|].
  destruct (mc_iteration maze end_position M T st) as [st'|r] eqn:Hit.
  - apply IH.
    apply (mc_inv_step maze Hwf end_position M T start_direction st st'
             Hinv Hit).
  - intros ->. destruct Hinv as (Hb & _).
    eapply mc_bounded_in_range; eassumption.
Qed.

Lemma mc_loop_finishes :
  forall fuel st,
    (mc_measure maze st < fuel)%nat ->
    mc_inv maze M T start_direction st ->
    mc_loop fuel maze end_position M T st <> OutOfFuel.
Proof.
  induction fuel as [|fuel IH]; intros st Hlt Hinv; [lia|]. simpl.
  pose proof (mc_iteration_case maze end_position M T st) as Hc.
  destruct (mc_iteration maze end_position M T st) as [st'|r] eqn:Hit.
  - destruct (mc_inv_step maze Hwf end_position M T start_direction st st'
                Hinv Hit) as [Hinv' Hdec].
    apply IH; [lia|exact Hinv'].
  - inversion Hc; subst; discriminate.
Qed.

End McTotal.

(** X10: on a rectangular grid of at least 2 by 2 cells with walls all
    around, [min_cost_to_end] finishes within 3 * width * height + 2
    iterations of its loop, whatever the weights and the start direction,
    and it either returns a cost or raises its no-path [ValueError]; it
    raises no [IndexError]. *)
Theorem min_cost_to_end_finishes (maze : Maze) (start_direction : Direction)
    (M T : Z) (fuel : nat) :
  well_formed maze = true ->
  (Z.to_nat (3 * width maze * height maze + 2) <= fuel)%nat ->
  (exists c, min_cost_to_end fuel maze start_direction M T = Returned c) \/
  min_cost_to_end fuel maze start_direction M T
  = Raised (ValueError NoPathFound).
Proof.
  intros Hwf Hfuel. unfold min_cost_to_end.
  rewrite (find_end_position_wf maze Hwf).
  set (endp := mkPosition (width maze - 2) 1).
  set (st := mc_init (find_start_position maze) start_direction).
  assert (Hinv : mc_inv maze M T start_direction st)
    by (apply mc_inv_init; exact Hwf).
  assert (Hm : (mc_measure maze st < fuel)%nat).
  { unfold mc_measure, st, mc_init, positions_of. simpl.
    rewrite all_positions_length.
    pose proof (width_height_nonneg maze) as [Hw Hh]. nia. }
  pose proof (mc_loop_finishes maze Hwf endp M T start_direction fuel st
                Hm Hinv) as Hfin.
  pose proof (mc_loop_in_range maze Hwf endp M T start_direction fuel st
                Hinv) as Hrange.
  destruct (mc_loop_outcomes maze endp M T fuel st)
    as [H|[H|[H|H]]]; try contradiction; auto.
Qed.

Lemma min_cost_to_end_finishes_witness :
  (exists c, min_cost_to_end 146 maze1 EAST 1 1000 = Returned c) \/
  min_cost_to_end 146 maze1 EAST 1 1000 = Raised (ValueError NoPathFound).
Proof.
  apply (min_cost_to_end_finishes maze1 EAST 1 1000 146).
  - reflexivity.
  - vm_compute. lia.
Defined.

(** ** What [min_cost_to_end] returns *)

(** A walk costs at least the move cost times the distance it covers. *)
Lemma walk_covers_distance (maze : Maze) (M T : Z) :
  0 <= M -> 0 <= T ->
  forall ms p d q e c,
    walk maze M T p d ms = Some (q, e, c) ->
    M * (Z.abs (px q - px p) + Z.abs (py q - py p)) <= c.
Proof.
  intros HM HT. induction ms as [|m ms IH]; intros p d q e c Hw;
    simpl in Hw.
  - inversion Hw. subst. rewrite !Z.sub_diag. simpl. lia.
  - destruct (passable maze (advance (heading d m) p)); [|discriminate].
    destruct (walk maze M T (advance (heading d m) p) (heading d m) ms)
      as [[[q' e'] c']|] eqn:Hw'; [|discriminate].
    inversion Hw. subst q' e' c. clear Hw.
    specialize (IH _ _ _ _ _ Hw').
    assert (Hs : M <= step_cost M T m) by (destruct m; simpl; lia).
    assert (Hd : Z.abs (px q - px p) + Z.abs (py q - py p)
                 <= 1 + (Z.abs (px q - px (advance (heading d m) p))
                         + Z.abs (py q - py (advance (heading d m) p)))).
    { destruct (heading d m); unfold advance; cbn [value px py]; lia. }
    nia.
Qed.

(** X11: on a rectangular grid of at least 2 by 2 cells with walls all
    around whose end position is not a wall, a value returned by
    [min_cost_to_end] is the cost of a path through non-wall cells from the
    start state to the end position; with non-negative weights it is at
    least the move cost times the Manhattan distance between the two
    positions. *)
Theorem min_cost_to_end_returns_a_path_cost (maze : Maze)
    (start_direction : Direction) (M T : Z) (end_position : Position)
    (fuel : nat) (c : Z) :
  well_formed maze = true ->
  find_end_position maze = Returned end_position ->
  passable maze end_position = true ->
  min_cost_to_end fuel maze start_direction M T = Returned c ->
  (exists ms,
     path_to maze M T (find_start_position maze) start_direction
       end_position ms c) /\
  (0 <= M -> 0 <= T ->
   M * (Z.abs (px end_position - px (find_start_position maze))
        + Z.abs (py end_position - py (find_start_position maze))) <= c).
Proof.
  intros Hwf Hend Hpe Hret. unfold min_cost_to_end in Hret.
  rewrite Hend in Hret.
  destruct (mc_loop_returns_path_cost maze Hwf end_position M T
              start_direction Hpe fuel _ c
              (mc_inv_init maze Hwf M T start_direction) Hret)
    as [ms Hpath].
  split; [exists ms; exact Hpath|].
  intros HM HT. destruct Hpath as [_ [e Hw]].
  apply (walk_covers_distance maze M T HM HT ms _ _ _ _ _ Hw).
Qed.

Lemma min_cost_to_end_returns_a_path_cost_witness :
  (exists ms,
     path_to maze1 1 1000 (find_start_position maze1) EAST end1 ms 4012) /\
  (0 <= 1 -> 0 <= 1000 ->
   1 * (Z.abs (px end1 - px (find_start_position maze1))
        + Z.abs (py end1 - py (find_start_position maze1))) <= 4012).
Proof.
  apply (min_cost_to_end_returns_a_path_cost maze1 EAST 1 1000 end1 100 4012).
  - reflexivity.
  - reflexivity.
  - reflexivity.
  - vm_compute. reflexivity.
Defined.

(** ** [count_best_path_tiles] always finishes on a well-formed grid *)

Lemma cb_loop_outcomes (maze : Maze) (end_position : Position) (M T : Z) :
  forall fuel st,
    cb_loop fuel maze end_position M T st = OutOfFuel \/
    (exists st', cb_loop fuel maze end_position M T st = Returned st') \/
    cb_loop fuel maze end_position M T st = Raised KeyError \/
    cb_loop fuel maze end_position M T st = Raised IndexError.
Proof.
  induction fuel as [|fuel IH]; intros st; simpl; [left; reflexivity|].
  pose proof (cb_iteration_case maze end_position M T st) as Hc.
  destruct (cb_iteration maze end_position M T st) as [st'|r]; [apply IH|].
  inversion Hc; subst; eauto.
Qed.

(** An invariant of the loop body holds of the state the loop ends in. *)
Lemma cb_loop_keeps (maze : Maze) (end_position : Position) (M T : Z)
    (P : CbState -> Prop) :
  (forall st st',
     P st -> cb_iteration maze end_position M T st = Continue st' -> P st') ->
  forall fuel st st',
    P st -> cb_loop fuel maze end_position M T st = Returned st' -> P st'.
Proof.
  intros Hstep. induction fuel as [|fuel IH]; intros st st' HP Hloop;
    simpl in Hloop; [discriminate|].
  pose proof (cb_iteration_case maze end_position M T st) as Hc.
  destruct (cb_iteration maze end_position M T st) as [st1|r] eqn:Hit.
  - eapply IH; [|exact Hloop]. eapply Hstep; eassumption.
  - subst r. inversion Hc; subst. exact HP.
Qed.

Lemma cb_run_keeps (maze : Maze) (end_position : Position) (M T : Z)
    (P : CbState -> Prop) :
  (forall st st',
     P st -> cb_iteration maze end_position M T st = Continue st' -> P st') ->
  forall k st st',
    P st -> cb_run k maze end_position M T st = Some st' -> P st'.
Proof.
  intros Hstep. induction k as [|k IH]; intros st st' HP Hrun;
    simpl in Hrun.
  - inversion Hrun. subst. exact HP.
  - destruct (cb_iteration maze end_position M T st) as [st1|r] eqn:Hit;
      [|discriminate].
    eapply IH; [|exact Hrun]. eapply Hstep; eassumption.
Qed.

Section CbTotal.

Variable maze : Maze.
Hypothesis Hwf : well_formed maze = true.
Variable end_position : Position.
Variables M T : Z.
Hypothesis HM : 0 <= M.
Hypothesis HT : 0 <= T.
Hypothesis HMT : 1 <= M + T.
Variable B : Z.



End CbTotal.



(** ** The tuples [count_best_path_tiles] keeps cost the same *)

Lemma heappush_sorted {E : Type} (cost_of seq_of : E -> Z) (q : list E)
    (e : E) :
  StronglySorted (fun a b => cost_of a <= cost_of b) q ->
  StronglySorted (fun a b => cost_of a <= cost_of b)
                 (heappush cost_of seq_of q e).
Proof.
  induction q as [|f rest IH]; intros Hs; simpl.
  - constructor; constructor.
  - inversion Hs as [|? ? Hrest Hf]; subst.
    destruct (entry_ltb E cost_of seq_of e f) eqn:Hlt.
    + assert (Hle : cost_of e <= cost_of f).
      { unfold entry_ltb in Hlt. apply orb_true_iff in Hlt.
        destruct Hlt as [H|H]; [apply Z.ltb_lt in H; lia|].
        apply andb_true_iff in H. destruct H as [H _].
        apply Z.eqb_eq in H. lia. }
      constructor; [exact Hs|]. constructor; [exact Hle|].
      eapply Forall_impl; [|exact Hf]. intros x Hx. simpl in Hx. lia.
    + assert (Hle : cost_of f <= cost_of e).
      { unfold entry_ltb in Hlt. apply orb_false_iff in Hlt.
        destruct Hlt as [H _]. apply Z.ltb_ge in H. exact H. }
      constructor; [apply IH; exact Hrest|].
      eapply Permutation_Forall; [apply heappush_perm|].
      constructor; assumption.
Qed.

Lemma cb_ordered_step (maze : Maze) (end_position : Position) (M T : Z)
    (st st' : CbState) :
  0 <= M -> 0 <= T ->
  cb_ordered end_position st ->
  cb_iteration maze end_position M T st = Continue st' ->
  cb_ordered end_position st'.
Proof.
  intros HM HT [Hs Hbest] Hit.
  pose proof (cb_iteration_case maze end_position M T st) as Hc.
  rewrite Hit in Hc. unfold cb_ordered.
  assert (Hskip : forall n rest,
            cb_queue st = n :: rest ->
            cb_ordered end_position (cb_skip st rest)).
  { intros n rest Hq. rewrite Hq in Hs, Hbest.
    inversion Hs as [|? ? Hrest _]; subst. split; [exact Hrest|].
    simpl. eapply Forall_impl; [|exact Hbest].
    intros b (Hp & Hd & Hall). apply Forall_inv_tail in Hall. auto. }
  inversion Hc as [| | n rest o Hq Hat Hw
                   | | n rest o ec' Hq Hat Hw He Hlt
                   | n rest o ec' c Hq Hat Hw He Hle Hp Hlt
                   | n rest o ec' Hq Hat Hw He Hle Hend
                   | n rest o ec' Hq Hat Hw He Hle Hne];
    subst; try (apply (Hskip n rest Hq)).
  - (* an entry at the end position is accepted *)
    rewrite Hq in Hs, Hbest. inversion Hs as [|? ? Hrest Hn]; subst.
    simpl. split; [exact Hrest|].
    apply Forall_app. split.
    + eapply Forall_impl; [|exact Hbest].
      intros b (Hp & Hd & Hall).
      pose proof (Forall_inv Hall) as Hbn. cbv beta in Hbn.
      pose proof (Forall_inv_tail Hall) as Hbrest.
      rewrite He in Hd. inversion Hd. subst ec'.
      assert (n_cost b = n_cost n) by lia.
      split; [exact Hp|]. split; [|exact Hbrest].
      rewrite dict_get_set_same. congruence.
    + constructor; [|constructor].
      split; [reflexivity|]. split; [apply dict_get_set_same|exact Hn].
  - (* an entry elsewhere is expanded *)
    rewrite Hq in Hs, Hbest. inversion Hs as [|? ? Hrest Hn]; subst.
    simpl. split.
    + unfold push_node. repeat apply heappush_sorted. exact Hrest.
    + eapply Forall_impl; [|exact Hbest].
      intros b (Hp & Hd & Hall).
      pose proof (Forall_inv Hall) as Hbn. cbv beta in Hbn.
      pose proof (Forall_inv_tail Hall) as Hbrest.
      split; [exact Hp|]. split.
      * rewrite dict_get_set_other; [exact Hd|].
        intros E. apply Hne. symmetry. exact E.
      * eapply Permutation_Forall; [apply heappush3_perm|].
        constructor; [simpl; lia|].
        constructor; [simpl; lia|].
        constructor; [simpl; lia|exact Hbrest].
Qed.

(** X13: with non-negative weights, at every point of the run every tuple
    in [best_paths] is on the end position and its cost is the cost recorded
    for the end position: the kept tuples all cost the same, and the first
    one kept is never undercut. *)
Theorem best_paths_cost_the_same (maze : Maze) (end_position : Position)
    (M T : Z) (start : Position) (start_direction : Direction) (k : nat)
    (st : CbState) (b : Node) :
  0 <= M -> 0 <= T ->
  cb_run k maze end_position M T (cb_init start end_position start_direction)
  = Some st ->
  In b (cb_best_paths st) ->
  n_pos b = end_position /\
  dict_get (cb_min_cost st) end_position = Some (n_cost b) /\
  n_cost b <= 999999999.
Proof.
  intros HM HT Hrun Hin.
  assert (Hord : cb_ordered end_position st).
  { apply (cb_run_keeps maze end_position M T (cb_ordered end_position)
             (fun s s' H => cb_ordered_step maze end_position M T s s'
                              HM HT H)
             k (cb_init start end_position start_direction) st);
      [|exact Hrun].
    split; [|constructor]. unfold cb_init. simpl.
    constructor; constructor. }
  assert (Hcap : exists ec,
            dict_get (cb_min_cost st) end_position = Some ec /\
            ec <= SENTINEL).
  { apply (cb_run_keeps maze end_position M T
             (fun s => exists ec,
                  dict_get (cb_min_cost s) end_position = Some ec /\
                  ec <= SENTINEL)) with (k := k)
        (st := cb_init start end_position start_direction);
      [|unfold cb_init; simpl; rewrite Position_eqb_refl;
        exists SENTINEL; split; [reflexivity|apply Z.le_refl]
       |exact Hrun].
    intros s s' (ec & Hec & Hle) Hit.
    pose proof (cb_iteration_case maze end_position M T s) as Hc.
    rewrite Hit in Hc.
    inversion Hc as [| | | | | 
                     | n rest o ec' Hq Hat Hw He Hle' Hend
                     | n rest o ec' Hq Hat Hw He Hle' Hne];
      subst; simpl; try (exists ec; split; assumption).
    - exists (n_cost n). rewrite dict_get_set_same.
      rewrite Hec in He. inversion He. subst ec'.
      split; [reflexivity|lia].
    - exists ec. split; [|exact Hle].
      rewrite dict_get_set_other; [exact Hec|].
      intros E. apply Hne. symmetry. exact E. }
  destruct Hord as [_ Hbest]. rewrite Forall_forall in Hbest.
  destruct (Hbest b Hin) as (Hp & Hd & _).
  split; [exact Hp|]. split; [exact Hd|].
  destruct Hcap as (ec & Hec & Hle). rewrite Hd in Hec.
  inversion Hec. unfold SENTINEL in Hle. lia.
Qed.

Lemma best_paths_cost_the_same_witness :
  exists st b,
    cb_run 46 maze1 end1 1 1000 (cb_init start1 end1 EAST) = Some st /\
    In b (cb_best_paths st) /\
    n_pos b = end1 /\
    dict_get (cb_min_cost st) end1 = Some (n_cost b) /\
    n_cost b <= 999999999.
Proof.
  assert (H : exists st b,
             cb_run 46 maze1 end1 1 1000 (cb_init start1 end1 EAST)
             = Some st /\
             In b (cb_best_paths st)).
  { vm_compute. eexists. eexists. split; [reflexivity|].
    left. reflexivity. }
  destruct H as (st & b & Hrun & Hin).
  exists st, b. split; [exact Hrun|]. split; [exact Hin|].
  apply (best_paths_cost_the_same maze1 end1 1 1000 start1 EAST 46 st b);
    [lia|lia|exact Hrun|exact Hin].
Defined.

(** ** The tiles [count_best_path_tiles] counts lie on walks to the end *)

Lemma walk_cells_snoc (maze : Maze) (M T : Z) (m : Move) :
  forall ms p d q e c,
    walk maze M T p d ms = Some (q, e, c) ->
    walk_cells p d (ms ++ [m])
    = walk_cells p d ms ++ [advance (heading e m) q].
Proof.
  induction ms as [|m0 ms IH]; intros p d q e c Hw; simpl in *.
  - inversion Hw; subst. reflexivity.
  - destruct (passable maze (advance (heading d m0) p)); [|discriminate].
    destruct (walk maze M T (advance (heading d m0) p) (heading d m0) ms)
      as [[[q' e'] c']|] eqn:Hw'; [|discriminate].
    inversion Hw; subst. f_equal. eapply IH. exact Hw'.
Qed.

(** A tuple on a passable cell ends a walk from the start whose cells are
    the positions of its chain of back pointers. *)
Lemma chain_walk (maze : Maze) (M T : Z) (start : Position)
    (d : Direction) (n : Node) :
  chain_ok maze M T start d n ->
  passable maze (n_pos n) = true ->
  passable maze start = true /\
  exists ms,
    walk maze M T start d ms = Some (n_pos n, n_dir n, n_cost n) /\
    walk_cells start d ms = rev (chain_positions n).
Proof.
  induction 1 as [seq | n m seq Hn IH Hpass]; intros Hp.
  - simpl in *. split; [exact Hp|]. exists []. split; reflexivity.
  - destruct (IH Hpass) as (Hs & ms & Hw & Hc). split; [exact Hs|].
    exists (ms ++ [m]). split.
    + rewrite (walk_snoc maze M T m ms _ _ _ _ _ Hw Hp).
      unfold cb_child. cbn [n_pos n_dir n_cost].
      f_equal. f_equal. destruct m; unfold step_cost; lia.
    + rewrite (walk_cells_snoc maze M T m ms _ _ _ _ _ Hw).
      unfold cb_child. cbn [chain_positions rev]. rewrite Hc. reflexivity.
Qed.

Lemma chain_passable (maze : Maze) (M T : Z) (start : Position)
    (d : Direction) (n : Node) :
  chain_ok maze M T start d n ->
  passable maze (n_pos n) = true ->
  Forall (fun p => passable maze p = true) (chain_positions n).
Proof.
  induction 1 as [seq | n m seq Hn IH Hpass]; intros Hp.
  - simpl in *. constructor; [exact Hp|constructor].
  - unfold cb_child in *. cbn [chain_positions n_pos] in *.
    constructor; [exact Hp|apply IH; exact Hpass].
Qed.

Lemma chain_from_start (maze : Maze) (M T : Z) (start : Position)
    (d : Direction) (n : Node) :
  chain_ok maze M T start d n ->
  In start (chain_positions n) /\ In (n_pos n) (chain_positions n).
Proof.
  induction 1 as [seq | n m seq Hn IH Hpass].
  - simpl. auto.
  - unfold cb_child. cbn [chain_positions n_pos]. split.
    + right. apply IH.
    + left. reflexivity.
Qed.

Lemma set_add_In (s : list Position) (p q : Position) :
  In q (set_add s p) <-> In q s \/ q = p.
Proof.
  unfold set_add. destruct (existsb (Position_eqb p) s) eqn:E.
  - apply existsb_Position_In in E. split; [auto|].
    intros [H|H]; [exact H|subst; exact E].
  - rewrite in_app_iff. simpl. split.
    + intros [H|[H|[]]]; auto.
    + intros [H|H]; auto.
Qed.

Lemma set_add_NoDup (s : list Position) (p : Position) :
  NoDup s -> NoDup (set_add s p).
Proof.
  intros Hs. unfold set_add.
  destruct (existsb (Position_eqb p) s) eqn:E; [exact Hs|].
  apply NoDup_rev in Hs. rewrite <- (rev_involutive (s ++ [p])).
  apply NoDup_rev. rewrite rev_app_distr. simpl.
  constructor; [|exact Hs].
  intros Hin. apply in_rev in Hin. apply existsb_Position_In in Hin.
  congruence.
Qed.

Lemma unwind_In (n : Node) :
  forall s q, In q (unwind n s) <-> In q s \/ In q (chain_positions n).
Proof.
  revert n. fix IH 1.
  intros [c sq pos dir [prev|]] s q; simpl.
  - rewrite (IH prev (set_add s pos) q), set_add_In.
    split; intros H; intuition auto.
  - rewrite set_add_In. split; intros H; intuition auto.
Qed.

Lemma unwind_NoDup (n : Node) :
  forall s, NoDup s -> NoDup (unwind n s).
Proof.
  revert n. fix IH 1.
  intros [c sq pos dir [prev|]] s Hs; simpl.
  - apply (IH prev). apply set_add_NoDup. exact Hs.
  - apply set_add_NoDup. exact Hs.
Qed.

Lemma best_path_positions_In (bs : list Node) :
  forall s q,
    In q (fold_left (fun s end_node => unwind end_node s) bs s) <->
    In q s \/ exists b, In b bs /\ In q (chain_positions b).
Proof.
  induction bs as [|b bs IH]; intros s q; simpl.
  - split; [auto|]. intros [H|(b & [] & _)]. exact H.
  - rewrite IH, unwind_In. split.
    + intros [[H|H]|(b' & Hb & H)]; eauto.
    + intros [H|(b' & [Hb|Hb] & H)]; subst; eauto.
Qed.

Lemma best_path_positions_NoDup (bs : list Node) :
  forall s, NoDup s ->
    NoDup (fold_left (fun s end_node => unwind end_node s) bs s).
Proof.
  induction bs as [|b bs IH]; intros s Hs; simpl; [exact Hs|].
  apply IH. apply unwind_NoDup. exact Hs.
Qed.

Lemma inside_open_passable (maze : Maze) (p : Position) (o : Obj) :
  well_formed maze = true ->
  inside maze p = true -> maze_at maze p = Some o -> is_wall o = false ->
  passable maze p = true.
Proof.
  intros Hwf Hin Hat Hw.
  destruct (maze_at_inside maze Hwf p Hin) as (o' & Ha & Hc).
  rewrite Hat in Ha. inversion Ha; subst.
  unfold passable. rewrite Hc, Hw. reflexivity.
Qed.

Lemma cb_chains_step (maze : Maze) (end_position : Position) (M T : Z)
    (d : Direction) (st st' : CbState) :
  well_formed maze = true ->
  cb_bounded maze st ->
  cb_chains maze end_position M T d st ->
  cb_iteration maze end_position M T st = Continue st' ->
  cb_chains maze end_position M T d st'.
Proof.
  intros Hwf Hb [Hch Hbest] Hit.
  pose proof (cb_iteration_case maze end_position M T st) as Hc.
  rewrite Hit in Hc. unfold cb_chains. unfold cb_bounded in Hb.
  assert (Hskip : forall n rest,
            cb_queue st = n :: rest ->
            cb_chains maze end_position M T d (cb_skip st rest)).
  { intros n rest Hq. rewrite Hq in Hch.
    split; [exact (Forall_inv_tail Hch)|exact Hbest]. }
  inversion Hc as [| | n rest o Hq Hat Hw
                   | | n rest o ec' Hq Hat Hw He Hlt
                   | n rest o ec' c Hq Hat Hw He Hle Hp Hlt
                   | n rest o ec' Hq Hat Hw He Hle Hend
                   | n rest o ec' Hq Hat Hw He Hle Hne];
    subst; try (apply (Hskip n rest Hq)).
  - rewrite Hq in Hch, Hb. simpl.
    split; [exact (Forall_inv_tail Hch)|].
    apply Forall_app. split; [exact Hbest|].
    constructor; [|constructor].
    split; [exact (Forall_inv Hch)|]. split; [|reflexivity].
    exact (inside_open_passable maze (n_pos n) o Hwf (Forall_inv Hb) Hat Hw).
  - rewrite Hq in Hch, Hb. simpl. split; [|exact Hbest].
    pose proof (inside_open_passable maze (n_pos n) o Hwf
                  (Forall_inv Hb) Hat Hw) as Hpass.
    eapply Permutation_Forall; [apply heappush3_perm|].
    constructor; [apply chain_link; [exact (Forall_inv Hch)|exact Hpass]|].
    constructor; [apply chain_link; [exact (Forall_inv Hch)|exact Hpass]|].
    constructor; [apply chain_link; [exact (Forall_inv Hch)|exact Hpass]|].
    exact (Forall_inv_tail Hch).
Qed.

(** What holds of the state [count_best_path_tiles] leaves its loop in. *)
Lemma cb_loop_chains (maze : Maze) (d : Direction) (M T : Z) (fuel : nat)
    (st : CbState) :
  well_formed maze = true ->
  cb_loop fuel maze (mkPosition (width maze - 2) 1) M T
    (cb_init (find_start_position maze) (mkPosition (width maze - 2) 1) d)
  = Returned st ->
  cb_chains maze (mkPosition (width maze - 2) 1) M T d st.
Proof.
  intros Hwf Hloop.
  set (endp := mkPosition (width maze - 2) 1) in *.
  assert (Hinv : cb_bounded maze st /\ cb_chains maze endp M T d st).
  { apply (cb_loop_keeps maze endp M T
             (fun s => cb_bounded maze s /\ cb_chains maze endp M T d s))
      with (fuel := fuel) (st := cb_init (find_start_position maze) endp d);
      [| |exact Hloop].
    - intros s s' (Hb & Hch) Hit. split.
      + eapply cb_bounded_step; eassumption.
      + eapply cb_chains_step; eassumption.
    - split; [apply cb_bounded_init; exact Hwf|].
      split; [|constructor]. unfold cb_init; simpl.
      constructor; [apply chain_root|constructor]. }
  apply Hinv.
Qed.

Lemma cb_loop_ordered (maze : Maze) (start end_position : Position)
    (d : Direction) (M T : Z) (fuel : nat) (st : CbState) :
  0 <= M -> 0 <= T ->
  cb_loop fuel maze end_position M T (cb_init start end_position d)
  = Returned st ->
  cb_ordered end_position st.
Proof.
  intros HM HT Hloop.
  apply (cb_loop_keeps maze end_position M T (cb_ordered end_position))
    with (fuel := fuel) (st := cb_init start end_position d);
    [| |exact Hloop].
  - intros s s' Ho Hit.
    exact (cb_ordered_step maze end_position M T s s' HM HT Ho Hit).
  - split; [|constructor]. unfold cb_init; simpl.
    constructor; constructor.
Qed.

(** X14: on a well-formed grid with non-negative weights, there is one cost
    such that every position [count_best_path_tiles] collects lies on a walk
    of that cost from the start state to the end position that stays on
    cells that are not walls. *)
Theorem best_tiles_lie_on_paths (maze : Maze) (d : Direction) (M T : Z)
    (fuel : nat) (tiles : list Position) :
  well_formed maze = true -> 0 <= M -> 0 <= T ->
  best_tiles fuel maze d M T = Returned tiles ->
  exists c,
    forall p, In p tiles ->
      exists ms,
        path_to maze M T (find_start_position maze) d
                (mkPosition (width maze - 2) 1) ms c /\
        In p (walk_cells (find_start_position maze) d ms).
Proof.
  intros Hwf HM HT Hbt. unfold best_tiles in Hbt.
  rewrite (find_end_position_wf maze Hwf) in Hbt.
  destruct (cb_loop fuel maze (mkPosition (width maze - 2) 1) M T
              (cb_init (find_start_position maze)
                       (mkPosition (width maze - 2) 1) d))
    as [st|e|] eqn:Hloop; try discriminate.
  inversion Hbt as [Ht]. clear Hbt.
  destruct (cb_loop_chains maze d M T fuel st Hwf Hloop) as [_ Hch].
  destruct (cb_loop_ordered maze _ _ d M T fuel st HM HT Hloop) as [_ Ho].
  rewrite Forall_forall in Hch, Ho.
  destruct (cb_best_paths st) as [|b0 bs] eqn:Hbp.
  - exists 0. intros p Hin. destruct Hin.
  - exists (n_cost b0). intros p Hin.
    unfold best_path_positions in Hin.
    apply best_path_positions_In in Hin.
    destruct Hin as [[]|(b & Hb & Hp)].
    destruct (Hch b Hb) as (Hok & Hpass & Hpos).
    destruct (Ho b Hb) as (_ & Hd & _).
    destruct (Ho b0 (or_introl eq_refl)) as (_ & Hd0 & _).
    assert (Hcost : n_cost b = n_cost b0) by congruence.
    destruct (chain_walk maze M T _ d b Hok Hpass)
      as (Hs & ms & Hw & Hcells).
    exists ms. split.
    + split; [exact Hs|]. exists (n_dir b).
      rewrite Hw, Hpos, Hcost. reflexivity.
    + rewrite Hcells. apply -> in_rev. exact Hp.
Qed.

Lemma best_tiles_lie_on_paths_witness :
  exists c,
    forall p, In p tiles1 ->
      exists ms,
        path_to maze1 1 1000 (find_start_position maze1) EAST
                (mkPosition (width maze1 - 2) 1) ms c /\
        In p (walk_cells (find_start_position maze1) EAST ms).
Proof.
  apply (best_tiles_lie_on_paths maze1 EAST 1 1000 60 tiles1).
  - reflexivity.
  - lia.
  - lia.
  - vm_compute. reflexivity.
Defined.

(** X15: on a well-formed grid the positions [count_best_path_tiles]
    collects are pairwise different cells that are not walls, and when there
    are any, the start and the end position are among them; the number
    returned is the length of this list. *)
Theorem best_tiles_are_distinct_open_cells (maze : Maze) (d : Direction)
    (M T : Z) (fuel : nat) (tiles : list Position) :
  well_formed maze = true ->
  best_tiles fuel maze d M T = Returned tiles ->
  NoDup tiles /\
  Forall (fun p => passable maze p = true) tiles /\
  (tiles <> [] ->
   In (find_start_position maze) tiles /\
   In (mkPosition (width maze - 2) 1) tiles).
Proof.
  intros Hwf Hbt. unfold best_tiles in Hbt.
  rewrite (find_end_position_wf maze Hwf) in Hbt.
  destruct (cb_loop fuel maze (mkPosition (width maze - 2) 1) M T
              (cb_init (find_start_position maze)
                       (mkPosition (width maze - 2) 1) d))
    as [st|e|] eqn:Hloop; try discriminate.
  inversion Hbt as [Ht]. clear Hbt.
  destruct (cb_loop_chains maze d M T fuel st Hwf Hloop) as [_ Hch].
  rewrite Forall_forall in Hch.
  unfold best_path_positions. split; [|split].
  - apply best_path_positions_NoDup. constructor.
  - apply Forall_forall. intros p Hin.
    apply best_path_positions_In in Hin.
    destruct Hin as [[]|(b & Hb & Hp)].
    destruct (Hch b Hb) as (Hok & Hpass & _).
    pose proof (chain_passable maze M T _ d b Hok Hpass) as Hall.
    rewrite Forall_forall in Hall. apply Hall. exact Hp.
  - intros Hne.
    destruct (cb_best_paths st) as [|b0 bs] eqn:Hbp;
      [exfalso; apply Hne; reflexivity|].
    destruct (Hch b0 (or_introl eq_refl)) as (Hok & _ & Hpos).
    destruct (chain_from_start maze M T _ d b0 Hok) as [Hs He].
    rewrite Hpos in He.
    split; apply best_path_positions_In; right; exists b0;
      (split; [left; reflexivity|assumption]).
Qed.

Lemma best_tiles_are_distinct_open_cells_witness :
  NoDup tiles1 /\
  Forall (fun p => passable maze1 p = true) tiles1 /\
  (tiles1 <> [] ->
   In (find_start_position maze1) tiles1 /\
   In (mkPosition (width maze1 - 2) 1) tiles1).
Proof.
  apply (best_tiles_are_distinct_open_cells maze1 EAST 1 1000 60 tiles1).
  - reflexivity.
  - vm_compute. reflexivity.
Defined.

(** ** The maze [count_best_path_tiles] leaves behind *)

Lemma list_set_length {A : Type} (l : list A) :
  forall i v, List.length (list_set l i v) = List.length l.
Proof.
  induction l as [|a l IH]; intros [|i] v; simpl; auto.
Qed.

Lemma nth_list_set_same {A : Type} (l : list A) (d : A) :
  forall i v, (i < List.length l)%nat -> nth i (list_set l i v) d = v.
Proof.
  induction l as [|a l IH]; intros [|i] v Hi; simpl in *; try lia.
  - reflexivity.
  - apply IH. lia.
Qed.

Lemma nth_list_set_other {A : Type} (l : list A) (d : A) :
  forall i j v, i <> j -> nth j (list_set l i v) d = nth j l d.
Proof.
  induction l as [|a l IH]; intros [|i] [|j] v Hij; simpl; auto.
  - contradiction.
Qed.

Lemma list_set_twice {A : Type} (l : list A) :
  forall i a b, list_set (list_set l i a) i b = list_set l i b.
Proof.
  induction l as [|x l IH]; intros [|i] a b; simpl; auto.
  f_equal. apply IH.
Qed.

Lemma list_set_nth {A : Type} (l : list A) (d : A) :
  forall i, list_set l i (nth i l d) = l.
Proof.
  induction l as [|a l IH]; intros [|i]; simpl; auto.
  f_equal. apply IH.
Qed.

Lemma list_set_beyond {A : Type} (l : list A) :
  forall i v, (List.length l <= i)%nat -> list_set l i v = l.
Proof.
  induction l as [|a l IH]; intros [|i] v Hi; simpl in *; auto; try lia.
  f_equal. apply IH. lia.
Qed.

Lemma list_set_middle {A : Type} (pre suf : list A) (o v : A) :
  list_set (pre ++ o :: suf) (List.length pre) v = pre ++ v :: suf.
Proof.
  induction pre as [|a pre IH]; simpl; [reflexivity|].
  f_equal. exact IH.
Qed.

(** The inner loop writes the marked row into the row object. *)
Lemma mark_row_spec (s : list Position) (y : Z) (r : Ref) :
  forall suf pre h,
    row_of h r = pre ++ suf ->
    mark_row s y r (List.length suf) (List.length pre) h
    = list_set h r (pre ++ marked_row s y (List.length pre) suf).
Proof.
  induction suf as [|o suf IH]; intros pre h Hrow.
  - simpl. rewrite app_nil_r in *. rewrite <- Hrow. unfold row_of.
    symmetry. apply list_set_nth.
  - assert (Hr : (r < List.length h)%nat).
    { destruct (Nat.lt_ge_cases r (List.length h)) as [H|H]; [exact H|].
      unfold row_of in Hrow. rewrite nth_overflow in Hrow by exact H.
      destruct pre; discriminate. }
    cbn [mark_row marked_row List.length].
    destruct (existsb (Position_eqb (mkPosition (Z.of_nat (List.length pre)) y))
                      s) eqn:E.
    + assert (Hrow' : row_of (list_set h r
                                 (list_set (row_of h r) (List.length pre)
                                           O_mark)) r
                      = (pre ++ [O_mark]) ++ suf).
      { unfold row_of at 1. rewrite nth_list_set_same by exact Hr.
        rewrite Hrow, list_set_middle, <- app_assoc. reflexivity. }
      pose proof (IH _ _ Hrow') as H.
      rewrite length_app in H. simpl in H. rewrite Nat.add_1_r in H.
      rewrite H, list_set_twice, <- app_assoc. reflexivity.
    + assert (Hrow' : row_of h r = (pre ++ [o]) ++ suf).
      { rewrite Hrow, <- app_assoc. reflexivity. }
      pose proof (IH _ _ Hrow') as H.
      rewrite length_app in H. simpl in H. rewrite Nat.add_1_r in H.
      rewrite H, <- app_assoc. reflexivity.
Qed.

Lemma mark_row_whole (s : list Position) (y : Z) (r : Ref) (h : Heap) :
  mark_row s y r (List.length (row_of h r)) 0 h
  = list_set h r (marked_row s y 0 (row_of h r)).
Proof. exact (mark_row_spec s y r (row_of h r) [] h eq_refl). Qed.

(** When no row object occurs twice in the maze, the outer loop leaves the
    marked maze behind and writes to no other row object. *)
Lemma mark_rows_spec (s : list Position) :
  forall refs y h,
    NoDup refs ->
    deref (mark_rows s refs y h) refs = marked s y (deref h refs) /\
    forall r, ~ In r refs -> row_of (mark_rows s refs y h) r = row_of h r.
Proof.
  induction refs as [|r rest IH]; intros y h Hnd.
  - simpl. split; [reflexivity|]. intros; reflexivity.
  - inversion Hnd as [|? ? Hnotin Hnd']; subst.
    cbn [mark_rows]. rewrite mark_row_whole.
    set (h1 := list_set h r (marked_row s y 0 (row_of h r))).
    destruct (IH (y + 1) h1 Hnd') as [Hd Hf].
    assert (Hother : forall r', r' <> r -> row_of h1 r' = row_of h r').
    { intros r' Hne. unfold row_of, h1. apply nth_list_set_other.
      intros E. apply Hne. symmetry. exact E. }
    assert (Hsame : row_of h1 r = marked_row s y 0 (row_of h r)).
    { destruct (Nat.lt_ge_cases r (List.length h)) as [H|H].
      - unfold row_of at 1. unfold h1. apply nth_list_set_same. exact H.
      - unfold h1. rewrite list_set_beyond by exact H.
        unfold row_of. rewrite nth_overflow by exact H. reflexivity. }
    split.
    + cbn [deref map marked]. f_equal.
      * rewrite (Hf r Hnotin). exact Hsame.
      * change (deref (mark_rows s rest (y + 1) h1) rest
                = marked s (y + 1) (deref h rest)).
        rewrite Hd. f_equal. unfold deref. apply map_ext_in.
        intros r' Hin. apply Hother. intros E. subst r'. contradiction.
    + intros r' Hn. rewrite Hf.
      * apply Hother. intros E. apply Hn. left. symmetry. exact E.
      * intros Hin. apply Hn. right. exact Hin.
Qed.

Lemma nth_error_marked_row (s : list Position) (y : Z) :
  forall row x i,
    nth_error (marked_row s y x row) i
    = option_map
        (fun o => if existsb (Position_eqb (mkPosition (Z.of_nat (x + i)) y)) s
                  then O_mark else o)
        (nth_error row i).
Proof.
  induction row as [|o row IH]; intros x [|i]; simpl; try reflexivity.
  - rewrite Nat.add_0_r. reflexivity.
  - rewrite IH. rewrite <- plus_n_Sm. reflexivity.
Qed.

Lemma nth_error_marked (s : list Position) :
  forall maze y j,
    nth_error (marked s y maze) j
    = option_map (marked_row s (y + Z.of_nat j) 0) (nth_error maze j).
Proof.
  induction maze as [|row maze IH]; intros y [|j]; simpl nth_error;
    try reflexivity.
  - cbn [option_map]. rewrite Z.add_0_r. reflexivity.
  - cbn [marked nth_error]. rewrite IH.
    replace (y + 1 + Z.of_nat j) with (y + Z.of_nat (S j)) by lia.
    reflexivity.
Qed.

(** The cells of the marked maze. *)
Lemma cell_at_marked (s : list Position) (maze : Maze) (p : Position) :
  cell_at (marked s 0 maze) p
  = option_map (fun o => if existsb (Position_eqb p) s then O_mark else o)
               (cell_at maze p).
Proof.
  unfold cell_at.
  destruct ((0 <=? px p) && (0 <=? py p)) eqn:E; [|reflexivity].
  apply andb_true_iff in E. destruct E as [Hx Hy].
  apply Z.leb_le in Hx. apply Z.leb_le in Hy.
  rewrite nth_error_marked.
  destruct (nth_error maze (Z.to_nat (py p))) as [row|]; [|reflexivity].
  cbn [option_map]. rewrite nth_error_marked_row.
  replace (mkPosition (Z.of_nat (0 + Z.to_nat (px p)))
                      (0 + Z.of_nat (Z.to_nat (py p)))) with p.
  - reflexivity.
  - destruct p as [x y]. simpl in *. f_equal; lia.
Qed.

(** X16: when no row object occurs twice in the maze and the call returns,
    the returned number is the number of collected positions, the caller's
    maze keeps its shape and holds "O" exactly at the collected positions,
    every other cell being as before, and no other row object of the store
    is written to. *)
Theorem count_best_path_tiles_marks_collected_tiles (h h' : Heap)
    (refs : MazeRef) (d : Direction) (M T : Z) (fuel : nat) (n : Z) :
  NoDup refs ->
  count_best_path_tiles fuel h refs d M T = (Returned n, h') ->
  exists tiles,
    best_tiles fuel (deref h refs) d M T = Returned tiles /\
    n = len tiles /\
    List.length (deref h' refs) = List.length (deref h refs) /\
    (forall p,
       cell_at (deref h' refs) p
       = option_map
           (fun o => if existsb (Position_eqb p) tiles then O_mark else o)
           (cell_at (deref h refs) p)) /\
    (forall r, ~ In r refs -> row_of h' r = row_of h r).
Proof.
  intros Hnd Hc. unfold count_best_path_tiles in Hc.
  destruct (best_tiles fuel (deref h refs) d M T) as [tiles|e|] eqn:Hbt;
    try discriminate.
  inversion Hc as [[Hn Hh]]. subst h'. exists tiles.
  destruct (mark_rows_spec tiles refs 0 h Hnd) as [Hd Hf].
  split; [reflexivity|]. split; [reflexivity|]. split; [|split].
  - unfold deref. rewrite !length_map. reflexivity.
  - intros p. rewrite Hd. apply cell_at_marked.
  - exact Hf.
Qed.

Lemma count_best_path_tiles_marks_collected_tiles_witness :
  exists tiles,
    best_tiles 100 (deref heap1 refs1) EAST 1 1000 = Returned tiles /\
    13 = len tiles /\
    List.length (deref (mark_rows tiles1 refs1 0 heap1) refs1)
    = List.length (deref heap1 refs1) /\
    (forall p,
       cell_at (deref (mark_rows tiles1 refs1 0 heap1) refs1) p
       = option_map
           (fun o => if existsb (Position_eqb p) tiles then O_mark else o)
           (cell_at (deref heap1 refs1) p)) /\
    (forall r, ~ In r refs1 ->
               row_of (mark_rows tiles1 refs1 0 heap1) r = row_of heap1 r).
Proof.
  apply (count_best_path_tiles_marks_collected_tiles heap1
           (mark_rows tiles1 refs1 0 heap1) refs1 EAST 1 1000 100 13).
  - apply seq_NoDup.
  - vm_compute. reflexivity.
Defined.

(** ** The searches read the wall map only *)

Lemma len_map {A B : Type} (f : A -> B) (l : list A) :
  len (map f l) = len l.
Proof. unfold len. rewrite length_map. reflexivity. Qed.

Lemma py_index_map {A B : Type} (f : A -> B) (l : list A) (i : Z) :
  py_index (map f l) i = option_map f (py_index l i).
Proof.
  unfold py_index. rewrite len_map.
  destruct ((0 <=? i) && (i <? len l)); [apply nth_error_map|].
  destruct ((- len l <=? i) && (i <? 0)); [apply nth_error_map|reflexivity].
Qed.

Lemma maze_at_wall_map (maze : Maze) (p : Position) :
  option_map is_wall (maze_at maze p)
  = match py_index (wall_map maze) (py p) with
    | Some row => py_index row (px p)
    | None => None
    end.
Proof.
  unfold maze_at, wall_map. rewrite py_index_map.
  destruct (py_index maze (py p)) as [row|]; simpl; [|reflexivity].
  rewrite py_index_map. reflexivity.
Qed.

Section SameWalls.

Variables maze maze' : Maze.
Hypothesis Hwalls : wall_map maze = wall_map maze'.

Lemma same_walls_at (p : Position) :
  option_map is_wall (maze_at maze p) = option_map is_wall (maze_at maze' p).
Proof. rewrite !maze_at_wall_map, Hwalls. reflexivity. Qed.

Lemma same_walls_start :
  find_start_position maze = find_start_position maze'.
Proof.
  unfold find_start_position.
  rewrite <- (len_map (map is_wall) maze), <- (len_map (map is_wall) maze').
  fold (wall_map maze). fold (wall_map maze'). rewrite Hwalls. reflexivity.
Qed.

Lemma same_walls_end :
  find_end_position maze = find_end_position maze'.
Proof.
  unfold find_end_position.
  assert (H : option_map (map is_wall) (py_index maze 0)
              = option_map (map is_wall) (py_index maze' 0)).
  { rewrite <- !py_index_map. fold (wall_map maze). fold (wall_map maze').
    rewrite Hwalls. reflexivity. }
  destruct (py_index maze 0) as [r|], (py_index maze' 0) as [r'|];
    simpl in H; try discriminate; [|reflexivity].
  inversion H as [Hr].
  rewrite <- (len_map is_wall r), <- (len_map is_wall r'), Hr. reflexivity.
Qed.

Lemma same_walls_mc_iteration (end_position : Position) (M T : Z)
    (st : McState) :
  mc_iteration maze end_position M T st
  = mc_iteration maze' end_position M T st.
Proof.
  unfold mc_iteration.
  destruct (heappop (mc_queue st)) as [[e queue]|]; [|reflexivity].
  cbv zeta.
  destruct (Position_eqb (s_pos e) end_position); [reflexivity|].
  destruct (existsb (Position_eqb (s_pos e)) (mc_visited st)); [reflexivity|].
  pose proof (same_walls_at (s_pos e)) as H.
  destruct (maze_at maze (s_pos e)) as [o|],
           (maze_at maze' (s_pos e)) as [o'|];
    simpl in H; try discriminate; [|reflexivity].
  inversion H as [Ho]. rewrite Ho. reflexivity.
Qed.

Lemma same_walls_cb_iteration (end_position : Position) (M T : Z)
    (st : CbState) :
  cb_iteration maze end_position M T st
  = cb_iteration maze' end_position M T st.
Proof.
  unfold cb_iteration.
  destruct (heappop (cb_queue st)) as [[e queue]|]; [|reflexivity].
  cbv zeta.
  pose proof (same_walls_at (n_pos e)) as H.
  destruct (maze_at maze (n_pos e)) as [o|],
           (maze_at maze' (n_pos e)) as [o'|];
    simpl in H; try discriminate; [|reflexivity].
  inversion H as [Ho]. rewrite Ho. reflexivity.
Qed.

Lemma same_walls_mc_loop (end_position : Position) (M T : Z) :
  forall fuel st,
    mc_loop fuel maze end_position M T st
    = mc_loop fuel maze' end_position M T st.
Proof.
  induction fuel as [|fuel IH]; intros st; simpl; [reflexivity|].
  rewrite same_walls_mc_iteration.
  destruct (mc_iteration maze' end_position M T st); [apply IH|reflexivity].
Qed.

Lemma same_walls_cb_loop (end_position : Position) (M T : Z) :
  forall fuel st,
    cb_loop fuel maze end_position M T st
    = cb_loop fuel maze' end_position M T st.
Proof.
  induction fuel as [|fuel IH]; intros st; simpl; [reflexivity|].
  rewrite same_walls_cb_iteration.
  destruct (cb_iteration maze' end_position M T st); [apply IH|reflexivity].
Qed.

Lemma same_walls_min_cost_to_end (fuel : nat) (d : Direction) (M T : Z) :
  min_cost_to_end fuel maze d M T = min_cost_to_end fuel maze' d M T.
Proof.
  unfold min_cost_to_end. rewrite same_walls_start, same_walls_end.
  destruct (find_end_position maze'); try reflexivity.
  apply same_walls_mc_loop.
Qed.

Lemma same_walls_best_tiles (fuel : nat) (d : Direction) (M T : Z) :
  best_tiles fuel maze d M T = best_tiles fuel maze' d M T.
Proof.
  unfold best_tiles. rewrite same_walls_start, same_walls_end.
  destruct (find_end_position maze'); try reflexivity.
  rewrite same_walls_cb_loop. reflexivity.
Qed.

End SameWalls.

(** X17: two mazes of the same shape whose cells agree on being
    [Cell.WALL] give the same outcome in [min_cost_to_end] and the same set
    of positions in [count_best_path_tiles], whatever else the cells hold:
    the start and end markers, or anything that is no cell at all, are read
    as open cells. *)
Theorem searches_read_walls_only (maze maze' : Maze) (fuel : nat)
    (d : Direction) (M T : Z) :
  wall_map maze = wall_map maze' ->
  min_cost_to_end fuel maze d M T = min_cost_to_end fuel maze' d M T /\
  best_tiles fuel maze d M T = best_tiles fuel maze' d M T.
Proof.
  intros Hwalls. split.
  - apply same_walls_min_cost_to_end. exact Hwalls.
  - apply same_walls_best_tiles. exact Hwalls.
Qed.

Lemma searches_read_walls_only_witness :
  min_cost_to_end 100 maze1 EAST 1 1000
  = min_cost_to_end 100 (marked tiles1 0 maze1) EAST 1 1000 /\
  best_tiles 100 maze1 EAST 1 1000
  = best_tiles 100 (marked tiles1 0 maze1) EAST 1 1000.
Proof.
  apply (searches_read_walls_only maze1 (marked tiles1 0 maze1)
           100 EAST 1 1000).
  reflexivity.
Defined.

(** ** Searching the maze again after [count_best_path_tiles] *)

Lemma marked_row_walls (s : list Position) (y : Z) :
  forall row x,
    (forall i o,
       nth_error row i = Some o ->
       In (mkPosition (Z.of_nat (x + i)) y) s -> is_wall o = false) ->
    map is_wall (marked_row s y x row) = map is_wall row.
Proof.
  induction row as [|o row IH]; intros x Hopen; simpl; [reflexivity|].
  f_equal.
  - destruct (existsb (Position_eqb (mkPosition (Z.of_nat x) y)) s) eqn:E;
      [|reflexivity].
    apply existsb_Position_In in E.
    rewrite (Hopen 0%nat o eq_refl); [reflexivity|].
    rewrite Nat.add_0_r. exact E.
  - apply IH. intros i o' Hi Hin. apply (Hopen (S i) o' Hi).
    rewrite <- plus_n_Sm. exact Hin.
Qed.

Lemma marked_walls (s : list Position) :
  forall maze y,
    (forall j row i o,
       nth_error maze j = Some row -> nth_error row i = Some o ->
       In (mkPosition (Z.of_nat i) (y + Z.of_nat j)) s ->
       is_wall o = false) ->
    wall_map (marked s y maze) = wall_map maze.
Proof.
  unfold wall_map.
  induction maze as [|row maze IH]; intros y Hopen; simpl; [reflexivity|].
  f_equal.
  - apply marked_row_walls. intros i o Hi Hin.
    apply (Hopen 0%nat row i o eq_refl Hi).
    rewrite Z.add_0_r. exact Hin.
  - apply IH. intros j row' i o Hj Hi Hin.
    apply (Hopen (S j) row' i o Hj Hi).
    replace (y + Z.of_nat (S j)) with (y + 1 + Z.of_nat j) by lia.
    exact Hin.
Qed.

(** Marking positions that are not walls leaves the wall map as it is. *)
Lemma marked_open_walls (s : list Position) (maze : Maze) :
  Forall (fun p => passable maze p = true) s ->
  wall_map (marked s 0 maze) = wall_map maze.
Proof.
  intros Hs. apply marked_walls. intros j row i o Hj Hi Hin.
  rewrite Forall_forall in Hs. pose proof (Hs _ Hin) as Hp.
  unfold passable, cell_at in Hp. cbn [px py] in Hp.
  replace ((0 <=? Z.of_nat i) && (0 <=? 0 + Z.of_nat j)) with true in Hp
    by (symmetry; apply andb_true_iff; split; apply Z.leb_le; lia).
  replace (Z.to_nat (0 + Z.of_nat j)) with j in Hp by lia.
  rewrite Nat2Z.id in Hp. rewrite Hj, Hi in Hp.
  destruct (is_wall o); [discriminate|reflexivity].
Qed.

(** X18: on a well-formed grid in which no row object occurs twice, the
    marks [count_best_path_tiles] leaves in the caller's maze do not change
    what the searches compute: on the maze as it is after the call,
    [min_cost_to_end] has the outcome it has on the maze as it was before,
    and [count_best_path_tiles] returns what it returns there, for every
    start direction and all weights. *)
Theorem searches_agree_on_marked_maze (h h' : Heap) (refs : MazeRef)
    (d : Direction) (M T : Z) (fuel : nat) (n : Z) :
  well_formed (deref h refs) = true ->
  NoDup refs ->
  count_best_path_tiles fuel h refs d M T = (Returned n, h') ->
  forall fuel' d' M' T',
    min_cost_to_end fuel' (deref h' refs) d' M' T'
    = min_cost_to_end fuel' (deref h refs) d' M' T' /\
    fst (count_best_path_tiles fuel' h' refs d' M' T')
    = fst (count_best_path_tiles fuel' h refs d' M' T').
Proof.
  intros Hwf Hnd Hc fuel' d' M' T'.
  unfold count_best_path_tiles in Hc.
  destruct (best_tiles fuel (deref h refs) d M T) as [tiles|e|] eqn:Hbt;
    try discriminate.
  inversion Hc as [[Hn Hh]]. subst h'.
  destruct (mark_rows_spec tiles refs 0 h Hnd) as [Hd _].
  assert (Hopen : Forall (fun p => passable (deref h refs) p = true) tiles).
  { unfold best_tiles in Hbt.
    rewrite (find_end_position_wf _ Hwf) in Hbt.
    destruct (cb_loop fuel (deref h refs)
                (mkPosition (width (deref h refs) - 2) 1) M T
                (cb_init (find_start_position (deref h refs))
                         (mkPosition (width (deref h refs) - 2) 1) d))
      as [st|e|] eqn:Hloop; try discriminate.
    inversion Hbt as [Ht]. clear Hbt.
    destruct (cb_loop_chains _ d M T fuel st Hwf Hloop) as [_ Hch].
    rewrite Forall_forall in Hch.
    apply Forall_forall. intros p Hin.
    unfold best_path_positions in Hin.
    apply best_path_positions_In in Hin.
    destruct Hin as [[]|(b & Hb & Hp)].
    destruct (Hch b Hb) as (Hok & Hpass & _).
    pose proof (chain_passable _ M T _ d b Hok Hpass) as Hall.
    rewrite Forall_forall in Hall. apply Hall. exact Hp. }
  pose proof (marked_open_walls tiles (deref h refs) Hopen) as Hw.
  rewrite <- Hd in Hw.
  split.
  - apply same_walls_min_cost_to_end. exact Hw.
  - unfold count_best_path_tiles.
    rewrite (same_walls_best_tiles _ _ Hw fuel' d' M' T').
    destruct (best_tiles fuel' (deref h refs) d' M' T'); reflexivity.
Qed.

Lemma searches_agree_on_marked_maze_witness :
  min_cost_to_end 100 (deref (mark_rows tiles1 refs1 0 heap1) refs1)
                  NORTH 2 3
  = min_cost_to_end 100 (deref heap1 refs1) NORTH 2 3 /\
  fst (count_best_path_tiles 100 (mark_rows tiles1 refs1 0 heap1) refs1
         NORTH 2 3)
  = fst (count_best_path_tiles 100 heap1 refs1 NORTH 2 3).
Proof.
  apply (searches_agree_on_marked_maze heap1
           (mark_rows tiles1 refs1 0 heap1) refs1 EAST 1 1000 100 13).
  - reflexivity.
  - apply seq_NoDup.
  - vm_compute. reflexivity.
Defined.

(** ** [min_cost_to_end] reaches the end position when a walk does *)

Lemma behind_advance (d : Direction) (p : Position) :
  behind d (advance d p) = p.
Proof.
  destruct p as [x y]. destruct d; unfold behind, advance; simpl;
    f_equal; lia.
Qed.

Lemma direction_cases (d e : Direction) :
  d = turn_counter_clockwise e \/ d = e \/ d = turn_clockwise e \/
  d = turn_clockwise (turn_clockwise e).
Proof. destruct d, e; simpl; auto. Qed.

Lemma cell_at_maze_at (maze : Maze) (p : Position) (o : Obj) :
  cell_at maze p = Some o -> maze_at maze p = Some o.
Proof.
  unfold cell_at, maze_at.
  destruct ((0 <=? px p) && (0 <=? py p)) eqn:E; [|discriminate].
  apply andb_true_iff in E. destruct E as [Hx Hy].
  apply Z.leb_le in Hx. apply Z.leb_le in Hy.
  destruct (nth_error maze (Z.to_nat (py p))) as [row|] eqn:Hrow;
    [|discriminate].
  intros Ho.
  assert (Hy' : (Z.to_nat (py p) < List.length maze)%nat).
  { apply nth_error_Some. congruence. }
  assert (Hx' : (Z.to_nat (px p) < List.length row)%nat).
  { apply nth_error_Some. congruence. }
  rewrite py_index_front by (unfold len; lia). rewrite Hrow.
  rewrite py_index_front by (unfold len; lia). exact Ho.
Qed.

Lemma passable_open (maze : Maze) (p : Position) (o : Obj) :
  passable maze p = true -> maze_at maze p = Some o -> is_wall o = false.
Proof.
  unfold passable. intros Hp Hat.
  destruct (cell_at maze p) as [o'|] eqn:Hc; [|discriminate].
  rewrite (cell_at_maze_at maze p o' Hc) in Hat. inversion Hat; subst.
  destruct (is_wall o); [discriminate|reflexivity].
Qed.

Lemma queued_cons (q : Position) (e : Step) (rest : list Step) :
  queued q (e :: rest) -> q = s_pos e \/ queued q rest.
Proof.
  intros (e' & [H|H] & Hp); [left; subst; reflexivity|].
  right. exists e'. split; assumption.
Qed.

Lemma queued_push3 (q : Position) (rest : list Step) (a b c : Step) :
  queued q (c :: b :: a :: rest) ->
  queued q (push_step (push_step (push_step rest a) b) c).
Proof.
  intros (e & Hin & Hp). exists e. split; [|exact Hp].
  eapply Permutation_in; [apply heappush3_perm|exact Hin].
Qed.

Lemma mc_closed_step (maze : Maze) (end_position : Position)
    (d0 : Direction) (M T : Z) (st st' : McState) :
  passable maze (behind d0 (find_start_position maze)) = false ->
  mc_closed maze end_position d0 st ->
  mc_iteration maze end_position M T st = Continue st' ->
  mc_closed maze end_position d0 st'.
Proof.
  intros Hback (Hq & Hs & He & Hk) Hit.
  pose proof (mc_iteration_case maze end_position M T st) as Hc.
  rewrite Hit in Hc.
  inversion Hc as [ | | e rest Hqe Hne Hin Heq
                  | | e rest o Hqe Hne Hnin Hat Hw Heq
                  | e rest o Hqe Hne Hnin Hat Hw Heq];
    clear Hc; rewrite Hqe in Hq, Hs, Hk;
    pose proof (Forall_inv Hq) as Hentry;
    pose proof (Forall_inv_tail Hq) as Hrest; cbv beta in Hentry;
    unfold mc_closed; cbn [mc_queue mc_visited].
  - (* a position seen before *)
    split; [exact Hrest|]. split; [|split; [exact He|]].
    + destruct Hs as [H|H]; [left; exact H|].
      apply queued_cons in H. destruct H as [H|H];
        [left; rewrite H; exact Hin|right; exact H].
    + intros p d Hp Hpass Hpass'.
      destruct (Hk p d Hp Hpass Hpass') as [H|H]; [left; exact H|].
      apply queued_cons in H. destruct H as [H|H];
        [left; rewrite H; exact Hin|right; exact H].
  - (* a wall *)
    split; [|split; [|split]].
    + eapply Forall_impl; [|exact Hrest].
      intros a [H|H]; [left; exact H|right; right; exact H].
    + destruct Hs as [H|H]; [left; right; exact H|].
      apply queued_cons in H. destruct H as [H|H];
        [left; left; symmetry; exact H|right; exact H].
    + intros [H|H]; [apply Hne; exact H|apply He; exact H].
    + intros p d [Hp|Hp] Hpass Hpass'.
      * subst p. rewrite (passable_open maze _ o Hpass Hat) in Hw.
        discriminate.
      * destruct (Hk p d Hp Hpass Hpass') as [H|H]; [left; right; exact H|].
        apply queued_cons in H. destruct H as [H|H];
          [left; left; symmetry; exact H|right; exact H].
  - (* an open cell *)
    split; [|split; [|split]].
    + eapply Permutation_Forall; [apply heappush3_perm|].
      constructor;
        [right; left; unfold mc_child; cbn [s_pos s_dir];
         symmetry; apply behind_advance|].
      constructor;
        [right; left; unfold mc_child; cbn [s_pos s_dir];
         symmetry; apply behind_advance|].
      constructor;
        [right; left; unfold mc_child; cbn [s_pos s_dir];
         symmetry; apply behind_advance|].
      eapply Forall_impl; [|exact Hrest].
      intros a [H|H]; [left; exact H|right; right; exact H].
    + destruct Hs as [H|H]; [left; right; exact H|].
      apply queued_cons in H. destruct H as [H|(e' & Hin' & Hp')];
        [left; left; symmetry; exact H|].
      right. apply queued_push3. exists e'.
      split; [right; right; right; exact Hin'|exact Hp'].
    + intros [H|H]; [apply Hne; exact H|apply He; exact H].
    + intros p d [Hp|Hp] Hpass Hpass'.
      * subst p.
        destruct (direction_cases d (s_dir e)) as [H|[H|[H|H]]]; subst d.
        -- right. apply queued_push3.
           exists (mc_child M T e TurnLeft (mc_count st + 1)).
           split; [right; right; left; reflexivity|reflexivity].
        -- right. apply queued_push3.
           exists (mc_child M T e Forward (mc_count st + 1 + 1)).
           split; [right; left; reflexivity|reflexivity].
        -- right. apply queued_push3.
           exists (mc_child M T e TurnRight (mc_count st + 1 + 1 + 1)).
           split; [left; reflexivity|reflexivity].
        -- destruct Hentry as [[Hp0 Hd0]|H].
           ++ exfalso. unfold behind in Hback.
              rewrite <- Hp0, <- Hd0, Hpass' in Hback. discriminate.
           ++ left. right. exact H.
      * destruct (Hk p d Hp Hpass Hpass') as [H|H]; [left; right; exact H|].
        apply queued_cons in H. destruct H as [H|(e' & Hin' & Hp')];
          [left; left; symmetry; exact H|].
        right. apply queued_push3. exists e'.
        split; [right; right; right; exact Hin'|exact Hp'].
Qed.

Lemma mc_run_keeps (maze : Maze) (end_position : Position) (M T : Z)
    (P : McState -> Prop) :
  (forall st st',
     P st -> mc_iteration maze end_position M T st = Continue st' -> P st') ->
  forall k st st',
    P st -> mc_run k maze end_position M T st = Some st' -> P st'.
Proof.
  intros Hstep. induction k as [|k IH]; intros st st' HP Hrun;
    simpl in Hrun.
  - inversion Hrun. subst. exact HP.
  - destruct (mc_iteration maze end_position M T st) as [st1|r] eqn:Hit;
      [|discriminate].
    eapply IH; [|exact Hrun]. eapply Hstep; eassumption.
Qed.

Lemma walk_stays_visited (maze : Maze) (M T : Z) (V : list Position) :
  (forall p d,
     In p V -> passable maze p = true ->
     passable maze (advance d p) = true -> In (advance d p) V) ->
  forall ms p d q e c,
    walk maze M T p d ms = Some (q, e, c) ->
    passable maze p = true -> In p V -> In q V.
Proof.
  intros Hk. induction ms as [|m ms IH]; intros p d q e c Hw Hp Hin;
    simpl in Hw.
  - inversion Hw; subst. exact Hin.
  - destruct (passable maze (advance (heading d m) p)) eqn:Hp';
      [|discriminate].
    destruct (walk maze M T (advance (heading d m) p) (heading d m) ms)
      as [[[q' e'] c']|] eqn:Hw'; [|discriminate].
    inversion Hw; subst.
    apply (IH _ _ _ _ _ Hw' Hp'). apply Hk; assumption.
Qed.

(** When the loop runs out of tuples, no walk leads from the start state to
    the end position. *)
Lemma mc_loop_no_path_sound (maze : Maze) (end_position : Position)
    (d : Direction) (M T : Z) (fuel : nat) :
  passable maze (behind d (find_start_position maze)) = false ->
  mc_loop fuel maze end_position M T (mc_init (find_start_position maze) d)
  = Raised (ValueError NoPathFound) ->
  forall ms c,
    ~ path_to maze M T (find_start_position maze) d end_position ms c.
Proof.
  intros Hback Hloop ms c [Hps [e Hw]].
  destruct (mc_loop_no_path_exhausted maze end_position M T fuel _ Hloop)
    as (n & st & Hrun & Hempty).
  assert (Hcl : mc_closed maze end_position d st).
  { apply (mc_run_keeps maze end_position M T
             (mc_closed maze end_position d)
             (fun s s' H => mc_closed_step maze end_position d M T s s'
                              Hback H)
             n (mc_init (find_start_position maze) d) st); [|exact Hrun].
    unfold mc_closed, mc_init. simpl. split; [|split; [|split]].
    - constructor; [left; split; reflexivity|constructor].
    - right. eexists. split; [left; reflexivity|reflexivity].
    - intros [].
    - intros p d' []. }
  destruct Hcl as (_ & Hs & He & Hk). rewrite Hempty in Hs, Hk.
  assert (Hstart : In (find_start_position maze) (mc_visited st)).
  { destruct Hs as [H|(e' & [] & _)]. exact H. }
  apply He.
  apply (walk_stays_visited maze M T (mc_visited st)) with (ms := ms)
    (p := find_start_position maze) (d := d) (e := e) (c := c);
    [|exact Hw|exact Hps|exact Hstart].
  intros p d' Hp Hpass Hpass'.
  destruct (Hk p d' Hp Hpass Hpass') as [H|(e' & [] & _)]. exact H.
Qed.

(** X19: when the cell behind the start state is not open, the error "No path to the end of the maze found." of [min_cost_to_end]
    is truthful: no sequence of moves leads from the start state to the end
    position over cells that are not walls. *)
Theorem no_path_error_is_truthful (maze : Maze) (d : Direction) (M T : Z)
    (end_position : Position) (fuel : nat) :
  find_end_position maze = Returned end_position ->
  passable maze (behind d (find_start_position maze)) = false ->
  min_cost_to_end fuel maze d M T = Raised (ValueError NoPathFound) ->
  forall ms c,
    ~ path_to maze M T (find_start_position maze) d end_position ms c.
Proof.
  intros Hend Hback Hret. unfold min_cost_to_end in Hret.
  rewrite Hend in Hret.
  exact (mc_loop_no_path_sound maze end_position d M T fuel Hback Hret).
Qed.

Lemma no_path_error_is_truthful_witness :
  min_cost_to_end 50 maze4 EAST 1 1000 = Raised (ValueError NoPathFound) /\
  forall ms c,
    ~ path_to maze4 1 1000 (find_start_position maze4) EAST
        (mkPosition 3 1) ms c.
Proof.
  split; [vm_compute; reflexivity|].
  apply (no_path_error_is_truthful maze4 EAST 1 1000 (mkPosition 3 1) 50).
  - reflexivity.
  - reflexivity.
  - vm_compute. reflexivity.
Defined.

(** On a well-formed grid the cell behind the start state is a border wall
    when the start direction is EAST or NORTH. *)
Lemma nothing_behind_start (maze : Maze) (d : Direction) :
  well_formed maze = true ->
  d = EAST \/ d = NORTH ->
  passable maze (behind d (find_start_position maze)) = false.
Proof.
  intros Hwf Hd.
  pose proof (wf_size maze Hwf) as [Hw Hh].
  set (q := behind d (find_start_position maze)).
  assert (Hq : inside maze q = true /\ on_border maze q = true).
  { unfold q, behind, find_start_position, on_border.
    fold (height maze).
    destruct Hd; subst d; unfold advance; cbn [turn_clockwise value px py];
      split.
    - apply inside_spec. cbn [px py]. lia.
    - cbn [px py]. replace (1 + -1 =? 0) with true by reflexivity.
      reflexivity.
    - apply inside_spec. cbn [px py]. lia.
    - cbn [px py].
      replace (height maze - 2 + 1 =? height maze - 1) with true
        by (symmetry; apply Z.eqb_eq; lia).
      rewrite !orb_true_r. reflexivity. }
  destruct Hq as [Hin Hb].
  pose proof (border_is_wall maze Hwf q Hin Hb) as Hwall.
  unfold wall_at in Hwall. unfold passable.
  destruct (cell_at maze q) as [o|]; [|reflexivity].
  rewrite Hwall. reflexivity.
Qed.

(** X20: on a well-formed grid, for the start directions EAST (the default)
    and NORTH, [min_cost_to_end] returns whenever some sequence of moves
    leads from the start state to the end position over cells that are not
    walls, and what it returns is the cost of such a sequence of moves. *)
Theorem min_cost_to_end_finds_a_path (maze : Maze) (d : Direction)
    (M T : Z) (fuel : nat) (ms : list Move) (c : Z) :
  well_formed maze = true ->
  d = EAST \/ d = NORTH ->
  path_to maze M T (find_start_position maze) d
          (mkPosition (width maze - 2) 1) ms c ->
  (Z.to_nat (3 * width maze * height maze + 2) <= fuel)%nat ->
  exists c' ms',
    min_cost_to_end fuel maze d M T = Returned c' /\
    path_to maze M T (find_start_position maze) d
            (mkPosition (width maze - 2) 1) ms' c'.
Proof.
  intros Hwf Hd Hpath Hfuel.
  pose proof (nothing_behind_start maze d Hwf Hd) as Hback.
  unfold min_cost_to_end.
  rewrite (find_end_position_wf maze Hwf).
  set (endp := mkPosition (width maze - 2) 1) in *.
  set (st := mc_init (find_start_position maze) d).
  assert (Hinv : mc_inv maze M T d st) by (apply mc_inv_init; exact Hwf).
  assert (Hm : (mc_measure maze st < fuel)%nat).
  { unfold mc_measure, st, mc_init, positions_of. simpl.
    rewrite all_positions_length.
    pose proof (width_height_nonneg maze) as [Hw Hh]. nia. }
  pose proof (mc_loop_finishes maze Hwf endp M T d fuel st Hm Hinv) as Hfin.
  pose proof (mc_loop_in_range maze Hwf endp M T d fuel st Hinv) as Hrange.
  assert (Hpe : passable maze endp = true).
  { destruct Hpath as [Hps [e Hw]].
    destruct (walk_end_passable maze M T ms _ _ _ _ _ Hw) as [[_ H]|H];
      [rewrite H; exact Hps|exact H]. }
  destruct (mc_loop_outcomes maze endp M T fuel st)
    as [H|[[c' H]|[H|H]]]; try contradiction.
  - exists c'.
    destruct (mc_loop_returns_path_cost maze Hwf endp M T d Hpe fuel st c'
                Hinv H) as [ms' Hp'].
    exists ms'. split; [exact H|exact Hp'].
  - exfalso.
    exact (mc_loop_no_path_sound maze endp d M T fuel Hback H ms c Hpath).
Qed.

Lemma min_cost_to_end_finds_a_path_witness :
  exists c' ms',
    min_cost_to_end 146 maze1 EAST 1 1000 = Returned c' /\
    path_to maze1 1 1000 (find_start_position maze1) EAST
            (mkPosition (width maze1 - 2) 1) ms' c'.
Proof.
  apply (min_cost_to_end_finds_a_path maze1 EAST 1 1000 146
           best_route1 4008).
  - reflexivity.
  - left. reflexivity.
  - split; [reflexivity|]. exists EAST. vm_compute. reflexivity.
  - vm_compute. lia.
Defined.

(** ** [count_best_path_tiles] reaches the end position when a short walk
    does *)

Lemma cb_iteration_continue (maze : Maze) (end_position : Position)
    (M T : Z) (st st' : CbState) :
  cb_iteration maze end_position M T st = Continue st' ->
  cb_continue maze end_position M T st st'.
Proof.
  unfold cb_iteration.
  destruct (cb_queue st) as [|n rest] eqn:Hq; simpl; [discriminate|].
  destruct (maze_at maze (n_pos n)) as [o|] eqn:Hat; [|discriminate].
  destruct (is_wall o) eqn:Hw.
  { intros H. inversion H. eapply cb_continue_wall; eassumption. }
  destruct (dict_get (cb_min_cost st) end_position) as [ec|] eqn:He;
    [|discriminate].
  destruct (ec <? n_cost n) eqn:Hlt.
  { intros H. inversion H. apply Z.ltb_lt in Hlt.
    eapply cb_continue_beyond_end; eassumption. }
  apply Z.ltb_ge in Hlt.
  destruct (dict_get (cb_min_cost st) (n_pos n)) as [c|] eqn:Hd.
  - destruct (c <? n_cost n) eqn:Hlt'.
    { intros H. inversion H. apply Z.ltb_lt in Hlt'.
      eapply cb_continue_beyond_position; eassumption. }
    apply Z.ltb_ge in Hlt'.
    assert (Hall : forall c',
               dict_get (cb_min_cost st) (n_pos n) = Some c' ->
               n_cost n <= c')
      by (intros c' E; rewrite Hd in E; inversion E; subst; exact Hlt').
    destruct (Position_eqb (n_pos n) end_position) eqn:Hp.
    + apply Position_eqb_eq in Hp. intros H. inversion H.
      eapply cb_continue_arrive; eauto.
    + apply Position_eqb_neq in Hp. intros H. inversion H.
      eapply cb_continue_expand; eauto.
  - assert (Hall : forall c',
               dict_get (cb_min_cost st) (n_pos n) = Some c' ->
               n_cost n <= c')
      by (intros c' E; rewrite Hd in E; discriminate).
    destruct (Position_eqb (n_pos n) end_position) eqn:Hp.
    + apply Position_eqb_eq in Hp. intros H. inversion H.
      eapply cb_continue_arrive; eauto.
    + apply Position_eqb_neq in Hp. intros H. inversion H.
      eapply cb_continue_expand; eauto.
Qed.

Lemma cb_queued_cons (q : Position) (b : Z) (n : Node) (rest : list Node) :
  cb_queued q b (n :: rest) ->
  (n_pos n = q /\ n_cost n <= b) \/ cb_queued q b rest.
Proof.
  intros (n' & [H|H] & Hp & Hc); [left; subst; auto|].
  right. exists n'. auto.
Qed.

Lemma cb_queued_push3 (q : Position) (bound : Z) (rest : list Node)
    (a b c : Node) :
  cb_queued q bound (c :: b :: a :: rest) ->
  cb_queued q bound (push_node (push_node (push_node rest a) b) c).
Proof.
  intros (n & Hin & Hp). exists n. split; [|exact Hp].
  eapply Permutation_in; [apply heappush3_perm|exact Hin].
Qed.

Lemma cb_recorded_le (st : CbState) (q : Position) (b b' : Z) :
  cb_recorded st q b -> b <= b' -> cb_recorded st q b'.
Proof. intros (c & Hd & Hc) Hle. exists c. split; [exact Hd|lia]. Qed.

(** Recording a cost that is not above the one held before keeps what is
    recorded. *)
Lemma cb_recorded_set (st st' : CbState) (p : Position) (c : Z) :
  cb_min_cost st' = dict_set (cb_min_cost st) p c ->
  (forall c', dict_get (cb_min_cost st) p = Some c' -> c <= c') ->
  forall q b, cb_recorded st q b -> cb_recorded st' q b.
Proof.
  intros Hset Hle q b (c' & Hd & Hc). unfold cb_recorded. rewrite Hset.
  destruct (Position_eqb q p) eqn:E.
  - apply Position_eqb_eq in E. subst q.
    exists c. split; [apply dict_get_set_same|].
    pose proof (Hle c' Hd). lia.
  - apply Position_eqb_neq in E. exists c'.
    split; [rewrite dict_get_set_other; assumption|exact Hc].
Qed.

Lemma cb_found_step (maze : Maze) (end_position : Position)
    (d0 : Direction) (M T : Z) (st st' : CbState) :
  0 <= M -> 0 <= T ->
  passable maze (find_start_position maze) = true ->
  passable maze (behind d0 (find_start_position maze)) = false ->
  cb_found maze end_position d0 M T st ->
  cb_iteration maze end_position M T st = Continue st' ->
  cb_found maze end_position d0 M T st'.
Proof.
  intros HM HT Hstart Hback Hfound Hit.
  apply cb_iteration_continue in Hit.
  destruct Hfound as [Hbest|(Hend & Ha & Hs & Hk)].
  { left. inversion Hit; subst; simpl; try exact Hbest.
    intros E. apply app_eq_nil in E. destruct E as [_ E]. discriminate. }
  assert (Hskip : forall n rest,
            cb_queue st = n :: rest ->
            (forall b, n_cost n <= b -> b <= SENTINEL ->
                       passable maze (n_pos n) = true ->
                       cb_recorded st (n_pos n) b) ->
            cb_found maze end_position d0 M T (cb_skip st rest)).
  { intros n rest Hq Hgone. right. rewrite Hq in Ha, Hs, Hk.
    unfold cb_closed, cb_skip. cbn [cb_queue cb_min_cost].
    split; [exact Hend|]. split; [exact (Forall_inv_tail Ha)|]. split.
    - destruct Hs as [H|H]; [left; exact H|].
      apply cb_queued_cons in H. destruct H as [[Hp Hc]|H];
        [|right; exact H].
      left. rewrite <- Hp. apply (Hgone 0 Hc); [unfold SENTINEL; lia|].
      rewrite Hp. exact Hstart.
    - intros p d cp Hd Hne Hpass Hpass' Hcap.
      destruct (Hk p d cp Hd Hne Hpass Hpass' Hcap) as [H|H];
        [left; exact H|].
      apply cb_queued_cons in H. destruct H as [[Hp Hc]|H];
        [|right; exact H].
      left. rewrite <- Hp. apply (Hgone _ Hc Hcap).
      rewrite Hp. exact Hpass'. }
  inversion Hit as [n rest o Hq Hat Hw Heq
                   | n rest ec Hq He Hlt Heq
                   | n rest c Hq Hd Hlt Heq
                   | n rest o ec Hq Hat Hw He Hle Hrec Hp Heq
                   | n rest o ec Hq Hat Hw He Hle Hrec Hp Heq]; clear Hit.
  - (* a wall *)
    apply (Hskip n rest Hq). intros b _ _ Hpass.
    rewrite (passable_open maze _ o Hpass Hat) in Hw. discriminate.
  - (* beyond the cost of the end position *)
    apply (Hskip n rest Hq). intros b Hb Hcap _.
    rewrite Hend in He. inversion He. subst ec. lia.
  - (* beyond the cost of the position *)
    apply (Hskip n rest Hq). intros b Hb _ _.
    exists c. split; [exact Hd|lia].
  - (* the end position is reached *)
    left. simpl. intros E. apply app_eq_nil in E. destruct E as [_ E].
    discriminate.
  - (* an open cell *)
    right. rewrite Hq in Ha, Hs, Hk.
    pose proof (Forall_inv Ha) as Hentry. cbv beta in Hentry.
    pose proof (Forall_inv_tail Ha) as Hrest.
    set (st1 := mkCb
                  (push_node
                     (push_node
                        (push_node rest
                           (cb_child M T n TurnLeft (cb_count st + 1)))
                        (cb_child M T n Forward (cb_count st + 1 + 1)))
                     (cb_child M T n TurnRight (cb_count st + 1 + 1 + 1)))
                  (cb_count st + 1 + 1 + 1)
                  (dict_set (cb_min_cost st) (n_pos n) (n_cost n))
                  (cb_best_paths st)).
    assert (Hmono : forall q b, cb_recorded st q b -> cb_recorded st1 q b)
      by (apply (cb_recorded_set st st1 (n_pos n) (n_cost n) eq_refl Hrec)).
    assert (Hhere : forall b, n_cost n <= b -> cb_recorded st1 (n_pos n) b).
    { intros b Hb. exists (n_cost n).
      split; [apply dict_get_set_same|exact Hb]. }
    unfold cb_closed. cbn [cb_queue cb_min_cost st1].
    split; [|split; [|split]].
    + rewrite dict_get_set_other by (intros E; apply Hp; symmetry; exact E).
      exact Hend.
    + eapply Permutation_Forall; [apply heappush3_perm|].
      constructor;
        [right; unfold cb_child; cbn [n_pos n_dir n_cost];
         rewrite behind_advance; apply Hhere; lia|].
      constructor;
        [right; unfold cb_child; cbn [n_pos n_dir n_cost];
         rewrite behind_advance; apply Hhere; lia|].
      constructor;
        [right; unfold cb_child; cbn [n_pos n_dir n_cost];
         rewrite behind_advance; apply Hhere; lia|].
      eapply Forall_impl; [|exact Hrest].
      intros a [H|H]; [left; exact H|right; apply Hmono; exact H].
    + destruct Hs as [H|H]; [left; apply Hmono; exact H|].
      apply cb_queued_cons in H.
      destruct H as [[Hp0 Hc0]|(n' & Hin' & Hp')].
      * left. rewrite <- Hp0. apply Hhere. exact Hc0.
      * right. apply cb_queued_push3. exists n'.
        split; [right; right; right; exact Hin'|exact Hp'].
    + intros p d cp Hd Hne Hpass Hpass' Hcap.
      destruct (Position_eqb p (n_pos n)) eqn:E.
      * apply Position_eqb_eq in E. subst p.
        rewrite dict_get_set_same in Hd. inversion Hd. subst cp.
        destruct (direction_cases d (n_dir n)) as [H|[H|[H|H]]]; subst d.
        -- right. apply cb_queued_push3.
           exists (cb_child M T n TurnLeft (cb_count st + 1)).
           split; [right; right; left; reflexivity|].
           split; [reflexivity|]. unfold cb_child. cbn [n_cost]. lia.
        -- right. apply cb_queued_push3.
           exists (cb_child M T n Forward (cb_count st + 1 + 1)).
           split; [right; left; reflexivity|].
           split; [reflexivity|]. unfold cb_child. cbn [n_cost]. lia.
        -- right. apply cb_queued_push3.
           exists (cb_child M T n TurnRight (cb_count st + 1 + 1 + 1)).
           split; [left; reflexivity|].
           split; [reflexivity|]. unfold cb_child. cbn [n_cost]. lia.
        -- destruct Hentry as [[Hp0 Hd0]|H].
           ++ exfalso. unfold behind in Hback.
              rewrite <- Hp0, <- Hd0, Hpass' in Hback. discriminate.
           ++ left. apply Hmono.
              apply (cb_recorded_le st _ (n_cost n)); [exact H|lia].
      * apply Position_eqb_neq in E.
        rewrite dict_get_set_other in Hd by exact E.
        destruct (Hk p d cp Hd Hne Hpass Hpass' Hcap) as [H|H];
          [left; apply Hmono; exact H|].
        apply cb_queued_cons in H.
        destruct H as [[Hp0 Hc0]|(n' & Hin' & Hp')].
        -- left. rewrite <- Hp0. apply Hhere. exact Hc0.
        -- right. apply cb_queued_push3. exists n'.
           split; [right; right; right; exact Hin'|exact Hp'].
Qed.

Lemma cb_loop_returns_empty (maze : Maze) (end_position : Position)
    (M T : Z) :
  forall fuel st st',
    cb_loop fuel maze end_position M T st = Returned st' ->
    cb_queue st' = [].
Proof.
  induction fuel as [|fuel IH]; intros st st' Hloop; simpl in Hloop;
    [discriminate|].
  pose proof (cb_iteration_case maze end_position M T st) as Hc.
  destruct (cb_iteration maze end_position M T st) as [st1|r] eqn:Hit.
  - eapply IH. exact Hloop.
  - subst r. inversion Hc; subst. assumption.
Qed.

Lemma walk_stays_recorded (maze : Maze) (M T : Z) (D : Dict)
    (end_position : Position) :
  0 <= M -> 0 <= T ->
  dict_get D end_position = Some SENTINEL ->
  (forall p d cp,
     dict_get D p = Some cp -> p <> end_position ->
     passable maze p = true -> passable maze (advance d p) = true ->
     cp + M + T <= SENTINEL ->
     exists c, dict_get D (advance d p) = Some c /\ c <= cp + M + T) ->
  forall ms p d q e c cp,
    walk maze M T p d ms = Some (q, e, c) ->
    passable maze p = true ->
    dict_get D p = Some cp ->
    cp + (M + T) * Z.of_nat (List.length ms) < SENTINEL ->
    exists cq, dict_get D q = Some cq /\ cq < SENTINEL.
Proof.
  intros HM HT Hend Hk.
  induction ms as [|m ms IH]; intros p d q e c cp Hw Hp Hd Hcap;
    simpl in Hw.
  - inversion Hw; subst. exists cp. split; [exact Hd|].
    simpl in Hcap. lia.
  - destruct (passable maze (advance (heading d m) p)) eqn:Hp';
      [|discriminate].
    destruct (walk maze M T (advance (heading d m) p) (heading d m) ms)
      as [[[q' e'] c']|] eqn:Hw'; [|discriminate].
    inversion Hw; subst. clear Hw.
    cbn [List.length] in Hcap. rewrite Nat2Z.inj_succ in Hcap.
    assert (Hlen : 0 <= Z.of_nat (List.length ms)) by lia.
    assert (Hne : p <> end_position).
    { intros E. subst p. rewrite Hend in Hd. inversion Hd. subst cp. nia. }
    destruct (Hk p (heading d m) cp Hd Hne Hp Hp') as (c1 & Hd1 & Hc1);
      [nia|].
    apply (IH _ _ _ _ _ c1 Hw' Hp' Hd1). nia.
Qed.

(** X21: with non-negative weights, when the cell behind the start state is
    not open and some sequence of moves leads from the start state to the
    end position, a move and a turn for each of its steps costing less than
    the sentinel 999999999, the set [count_best_path_tiles] collects holds
    the end position: the function does not return 0. *)
Theorem count_best_path_tiles_finds_a_path (maze : Maze) (d : Direction)
    (M T : Z) (end_position : Position) (fuel : nat)
    (tiles : list Position) (ms : list Move) (c : Z) :
  0 <= M -> 0 <= T ->
  find_end_position maze = Returned end_position ->
  passable maze (behind d (find_start_position maze)) = false ->
  path_to maze M T (find_start_position maze) d end_position ms c ->
  (M + T) * Z.of_nat (List.length ms) < 999999999 ->
  best_tiles fuel maze d M T = Returned tiles ->
  In end_position tiles /\ 1 <= len tiles.
Proof.
  intros HM HT Hfe Hback [Hps [e Hw]] Hshort Hbt.
  unfold best_tiles in Hbt. rewrite Hfe in Hbt.
  destruct (cb_loop fuel maze end_position M T
              (cb_init (find_start_position maze) end_position d))
    as [st|ex|] eqn:Hloop; try discriminate.
  inversion Hbt as [Ht]. clear Hbt.
  pose proof (cb_loop_returns_empty maze end_position M T fuel _ st Hloop)
    as Hempty.
  destruct (cb_loop_ordered maze _ end_position d M T fuel st HM HT Hloop)
    as [_ Ho].
  assert (Hfound : cb_found maze end_position d M T st).
  { apply (cb_loop_keeps maze end_position M T
             (cb_found maze end_position d M T)
             (fun s s' H => cb_found_step maze end_position d M T s s'
                              HM HT Hps Hback H)
             fuel (cb_init (find_start_position maze) end_position d) st);
      [|exact Hloop].
    right. unfold cb_closed, cb_init. simpl.
    rewrite Position_eqb_refl. split; [reflexivity|]. split; [|split].
    - constructor; [left; split; reflexivity|constructor].
    - right. eexists. split; [left; reflexivity|].
      split; [reflexivity|simpl; lia].
    - intros p d' cp Hd Hne. exfalso.
      destruct (Position_eqb p end_position) eqn:E; [|discriminate].
      apply Position_eqb_eq in E. contradiction. }
  assert (Hin : In end_position (best_path_positions (cb_best_paths st))).
  { destruct Hfound as [Hbest|(Hend & _ & Hs & Hk)].
    - destruct (cb_best_paths st) as [|b bs] eqn:Hbp;
        [contradiction|].
      rewrite Forall_forall in Ho.
      destruct (Ho b (or_introl eq_refl)) as (Hpos & _).
      unfold best_path_positions. apply best_path_positions_In.
      right. exists b. split; [left; reflexivity|].
      rewrite <- Hpos. destruct b as [? ? ? ? [?|]]; left; reflexivity.
    - exfalso. rewrite Hempty in Hs, Hk.
      destruct Hs as [(c0 & Hd0 & Hc0)|(n & [] & _)].
      destruct (walk_stays_recorded maze M T (cb_min_cost st) end_position
                  HM HT Hend) with (ms := ms)
        (p := find_start_position maze) (d := d) (q := end_position)
        (e := e) (c := c) (cp := c0) as (cq & Hdq & Hcq);
        [|exact Hw|exact Hps|exact Hd0|unfold SENTINEL; lia|].
      + intros p d' cp Hd Hne Hpass Hpass' Hcap.
        destruct (Hk p d' cp Hd Hne Hpass Hpass' Hcap)
          as [H|(n & [] & _)]. exact H.
      + rewrite Hend in Hdq. inversion Hdq. lia. }
  split; [exact Hin|].
  destruct (best_path_positions (cb_best_paths st)); [destruct Hin|].
  unfold len. simpl. lia.
Qed.

Lemma count_best_path_tiles_finds_a_path_witness :
  In (mkPosition 4 1) tiles1 /\ 1 <= len tiles1.
Proof.
  apply (count_best_path_tiles_finds_a_path maze1 EAST 1 1000
           (mkPosition 4 1) 60 tiles1 best_route1 4008).
  - lia.
  - lia.
  - reflexivity.
  - reflexivity.
  - split; [reflexivity|]. exists EAST. vm_compute. reflexivity.
  - vm_compute. reflexivity.
  - vm_compute. reflexivity.
Defined.
